(** * redwood-filter: URL rule matching and the resilient transport layer

    A shallow embedding of [src/url.go] and [src/transport.go] together with
    the properties of the specification that concern them.

    Conventions.
    - A Go [string] is a byte sequence: Rocq's [string] (a list of [ascii]).
    - Go's [int] results that use [-1] for "not found" are [Z].
    - A Go run-time panic (a slice expression out of range) is the [Panic]
      outcome of the [run] monad; loops that are not structurally recursive
      take fuel and report [OutOfFuel] on exhaustion, which is then shown
      never to happen for the fuel the callers pass.
    - Packages outside the repository (regexp, punycode, net, crypto/x509,
      bufio) are interfaces: type classes whose members are the calls the
      source makes.  [strings.ToLower] is embedded on ASCII bytes and is an
      interface on the text between them, with the two facts about it that
      the properties rest on. *)

From Stdlib Require Import ZArith Ascii String List Lia Bool.

From stdpp Require Import base option list gmap strings.

Local Open Scope Z_scope.

(** ** Go strings *)

Module GoString.

Definition len (s : string) : Z := Z.of_nat (String.length s).

(** The lower case of an ASCII byte: 'A'..'Z' are mapped to 'a'..'z', every
    other byte is kept. *)
Definition lowerByte (c : ascii) : ascii :=
  let n := nat_of_ascii c in
  if ((65 <=? n) && (n <=? 90))%nat then ascii_of_nat (n + 32) else c.

(** A byte below [0x80]: in UTF-8 an ASCII character, which is a rune of its
    own and occurs in the encoding of no other rune. *)
Definition isASCII (c : ascii) : bool := (nat_of_ascii c <? 128)%nat.

(** [strings.ToLower] maps its argument to lower case rune by rune.  The
    ASCII bytes of the argument are runes of their own and cut the rest into
    runs of bytes from [0x80] up, which are decoded independently of what
    surrounds them.  An ASCII byte is lowered by [lowerByte]; a run is
    lowered by [lowerRun], which stands for what [strings.ToLower] makes of
    text without ASCII bytes: the letters among its runes go to lower case,
    and a byte that is not valid UTF-8 becomes U+FFFD.  [pending] holds the
    run being read, last byte first. *)
Definition flushRun (lowerRun : string -> string) (pending : string) : string :=
  match pending with
  | EmptyString => EmptyString
  | String _ _ => lowerRun (String.rev pending)
  end.

Fixpoint lowerRuns (lowerRun : string -> string) (pending s : string) : string :=
  match s with
  | EmptyString => flushRun lowerRun pending
  | String c s' =>
      if isASCII c
      then flushRun lowerRun pending +:+ String (lowerByte c) (lowerRuns lowerRun EmptyString s')
      else lowerRuns lowerRun (String c pending) s'
  end.

(** [strings.HasPrefix s prefix]. *)
Fixpoint HasPrefix (s prefix : string) : bool :=
  match prefix, s with
  | EmptyString, _ => true
  | String _ _, EmptyString => false
  | String p prefix', String c s' =>
      if Ascii.eqb c p then HasPrefix s' prefix' else false
  end.

Fixpoint indexNat (s sub : string) : option nat :=
  if HasPrefix s sub then Some 0%nat
  else match s with
       | EmptyString => None
       | String _ s' => S <$> indexNat s' sub
       end.

Fixpoint lastIndexNat (s sub : string) : option nat :=
  match s with
  | EmptyString => if HasPrefix s sub then Some 0%nat else None
  | String _ s' =>
      match lastIndexNat s' sub with
      | Some i => Some (S i)
      | None => if HasPrefix s sub then Some 0%nat else None
      end
  end.

(** [strings.Index] and [strings.LastIndex]: the byte offset of the first
    (last) occurrence of [sub] in [s], or [-1]. *)
Definition Index (s sub : string) : Z :=
  match indexNat s sub with Some i => Z.of_nat i | None => -1 end.

Definition LastIndex (s sub : string) : Z :=
  match lastIndexNat s sub with Some i => Z.of_nat i | None => -1 end.

(** [strings.Contains s sub] is [Index(s, sub) >= 0]. *)
Definition Contains (s sub : string) : bool := 0 <=? Index s sub.

Fixpoint takeBytes (n : nat) (s : string) : string :=
  match n, s with
  | S n', String c s' => String c (takeBytes n' s')
  | _, _ => EmptyString
  end.

Fixpoint dropBytes (n : nat) (s : string) : string :=
  match n, s with
  | S n', String _ s' => dropBytes n' s'
  | _, _ => s
  end.

(** [strings.Join]. *)
Fixpoint Join (elems : list string) (sep : string) : string :=
  match elems with
  | [] => EmptyString
  | [e] => e
  | e :: rest => e +:+ sep +:+ Join rest sep
  end.

(** [strings.Split s sep] for a non-empty separator: the pieces of [s]
    between the successive non-overlapping occurrences of [sep].
    [skip] counts the bytes of an occurrence still to be passed over,
    [cur] is the piece being read, reversed. *)
Fixpoint splitGo (s sep : string) (skip : nat) (cur : string) : list string :=
  match s with
  | EmptyString => [String.rev cur]
  | String c s' =>
      match skip with
      | S k => splitGo s' sep k cur
      | O =>
          if HasPrefix s sep
          then String.rev cur :: splitGo s' sep (String.length sep - 1) EmptyString
          else splitGo s' sep 0 (String c cur)
      end
  end.

Definition Split (s sep : string) : list string := splitGo s sep 0 EmptyString.

(** [strings.Replace s old new (-1)] for a non-empty [old]: every
    non-overlapping occurrence, left to right, is replaced. *)
Definition ReplaceAll (s old new : string) : string := Join (Split s old) new.

End GoString.

Import GoString.

(** ** Outcomes of a call: a value, a run-time panic, or fuel exhausted *)

Inductive run (A : Type) : Type :=
| Ret (a : A)
| Panic (msg : string)
| OutOfFuel.

Arguments Ret {A} a.
Arguments Panic {A} msg.
Arguments OutOfFuel {A}.

Global Instance run_eq_dec {A : Type} `{EqDecision A} : EqDecision (run A).
Proof. solve_decision. Defined.

Definition run_bind {A B : Type} (x : run A) (k : A -> run B) : run B :=
  match x with
  | Ret a => k a
  | Panic msg => Panic msg
  | OutOfFuel => OutOfFuel
  end.

Notation "'let*' x ':=' e 'in' k" := (run_bind e (fun x => k))
  (at level 10, x name, e at level 100, k at level 200).

(** The slice expressions [s[:hi]] and [s[lo:]] of Go, which panic when the
    bound is negative or beyond [len(s)]. *)
Definition sliceTo (s : string) (hi : Z) : run string :=
  if (0 <=? hi) && (hi <=? len s)
  then Ret (takeBytes (Z.to_nat hi) s)
  else Panic "slice bounds out of range".

Definition sliceFrom (s : string) (lo : Z) : run string :=
  if (0 <=? lo) && (lo <=? len s)
  then Ret (dropBytes (Z.to_nat lo) s)
  else Panic "slice bounds out of range".

(** ** Errors, contexts and HTTP messages (the parts of the Go standard
    library that [transport.go] inspects) *)

(** An [error] value.  The sentinel errors that the source compares against
    are constructors of their own; [wrapped] is any error with an [Unwrap]
    method (fmt.Errorf with %w, *net.OpError, *url.Error ...). *)
Inductive error : Type :=
| io_EOF
| io_ErrUnexpectedEOF
| syscall_EPIPE
| context_Canceled
| context_DeadlineExceeded
| errors_New (text : string)
| wrapped (text : string) (cause : error).

Global Instance error_eq_dec : EqDecision error.
Proof. solve_decision. Defined.

(** [err.Error()]. *)
Definition Error (e : error) : string :=
  match e with
  | io_EOF => "EOF"
  | io_ErrUnexpectedEOF => "unexpected EOF"
  | syscall_EPIPE => "broken pipe"
  | context_Canceled => "context canceled"
  | context_DeadlineExceeded => "context deadline exceeded"
  | errors_New text => text
  | wrapped text _ => text
  end.

(** [errors.Is err target]: [target] occurs in the [Unwrap] chain of [err]. *)
Fixpoint errors_Is (err target : error) : bool :=
  if decide (err = target) then true
  else match err with
       | wrapped _ cause => errors_Is cause target
       | _ => false
       end.

(** A [context.Context] is a handle; whether it is done is a fact of the
    environment at the moment of the test. *)
Definition Context := nat.

Module url.

(** The fields of [url.URL] that the matcher reads. *)
Record URL : Type := { Scheme : string; Host : string; Path : string; RawQuery : string }.

End url.

Module http.

(** A request body: [http.NoBody] or some other reader. *)
Inductive body : Type :=
| NoBody
| reader (id : nat).

Global Instance body_eq_dec : EqDecision body.
Proof. solve_decision. Defined.

Abbreviation MIMEHeader := (gmap string (list string)).

(** [Header.Get key] for a key in canonical form: the first value stored
    under the key, or the empty string. *)
Definition Get (h : MIMEHeader) (key : string) : string :=
  match h !! key with
  | Some (v :: _) => v
  | _ => ""
  end.

(** [*http.Request]; [Body = None] is a nil body, [GetBody = None] a nil
    function. *)
Record Request : Type := {
  Method : string;
  URL : url.URL;
  Host : string;
  Header : MIMEHeader;
  Body : option body;
  GetBody : option nat;
  Ctx : Context
}.

End http.

(** [shouldRedialForError], transport.go lines 122-135. *)
Definition shouldRedialForError (err : error) : bool :=
  if errors_Is err io_EOF then true
  else if errors_Is err io_ErrUnexpectedEOF then true
  else if errors_Is err syscall_EPIPE then true
  else if Contains (Error err) "no renegotiation" then true
  else false.

(** [requestIsReplayable], transport.go lines 139-153. *)
Definition requestIsReplayable (r : http.Request) : bool :=
  if bool_decide (http.Body r = None)
     || bool_decide (http.Body r = Some http.NoBody)
     || bool_decide (http.GetBody r <> None)
  then
    if bool_decide (http.Method r ∈ ["GET"; "HEAD"; "OPTIONS"; "TRACE"]) then true
    else if negb (bool_decide (http.Get (http.Header r) "Idempotency-Key" = ""))
            || negb (bool_decide (http.Get (http.Header r) "X-Idempotency-Key" = ""))
    then true
    else false
  else false.

(** ** The environment of [transport.go] *)

Module http_resp.

(** A response body is an [io.ReadCloser]: one handed out by the reader of
    the connection, or the source's [bodyWithContext] wrapper around
    another one (transport.go lines 198-201). *)
Inductive ReadCloser : Type :=
| connBody (id : nat)
| bodyWithContext (inner : ReadCloser) (Ctx : Context).

Record Response : Type := { StatusCode : Z; Body : ReadCloser }.

End http_resp.

Import http_resp.

(** What a call of [Read] does: it returns [(n, err)], or it never returns. *)
Inductive readOutcome : Type :=
| returns (n : Z) (err : option error)
| blocks.

(** [x509.VerifyOptions], with [Roots = None] for the system roots. *)
Record VerifyOptions (CertPool : Type) : Type := {
  Intermediates : CertPool;
  DNSName : string;
  Roots : option CertPool
}.

Arguments Intermediates {CertPool} _.
Arguments DNSName {CertPool} _.
Arguments Roots {CertPool} _.

(** The calls that [transport.go] makes into net, bufio, crypto/tls,
    crypto/x509 and context, and into [ReadResponse] and [certPoolWith],
    which live elsewhere in the repository.  [Env] is the state of the
    outside world (peers, sockets, clocks); a call that can change it
    returns the new one. *)
Class Network : Type := {
  Env : Type;
  net_Conn : Type;
  bufio_Reader : Type;
  Certificate : Type;
  CertPool : Type;
  (** [req.Write(conn)] *)
  Request_Write : http.Request -> net_Conn -> Env -> option error * Env;
  (** [conn.Close()] *)
  Conn_Close : net_Conn -> Env -> Env;
  (** [bufio.NewReader(conn)] *)
  bufio_NewReader : net_Conn -> bufio_Reader;
  (** [ReadResponse(br, req)]; the reader is consumed and handed back *)
  ReadResponse : bufio_Reader -> http.Request -> Env ->
                 (Response + error) * bufio_Reader * Env;
  (** [ctx.Err()]; [ctx.Done()] is closed exactly when it is not nil *)
  ctx_Err : Context -> Env -> option error;
  (** [Read] of a body handed out by [ReadResponse] *)
  connBody_Read : nat -> Z -> Env -> readOutcome * Env;
  (** the host part of [net.SplitHostPort(addr)] *)
  net_SplitHostPort : string -> string;
  (** [tls.DialWithDialer(dialer, network, addr, &tls.Config{ServerName,
      InsecureSkipVerify: true})] *)
  tls_DialWithDialer : string -> string -> string -> Env -> (net_Conn + error) * Env;
  (** [conn.ConnectionState().PeerCertificates] *)
  PeerCertificates : net_Conn -> Env -> list Certificate;
  certPoolWith : list Certificate -> CertPool;
  (** [cert.Verify(opts)]: the verified chains or an error *)
  Verify : Certificate -> VerifyOptions CertPool -> Env -> list (list Certificate) + error
}.

Section Transport.

Context `{Network}.

(** A call made to the outside, as recorded in the order it happened. *)
Inductive call : Type :=
| WriteCall (conn : net_Conn) (req : http.Request)
| ReadResponseCall (req : http.Request)
| CloseCall (conn : net_Conn)
| RedialCall
| DialCall (network addr : string)
| RoundTripCall (req : http.Request) (result : option Response * option error).

(** [log.Printf(format, v...)]: the format and its arguments. *)
Record logEntry : Type := { format : string; args : list string }.

(** The fields of the configuration read here. *)
Record Config : Type := {
  Verbose : gmap string bool;
  ExtraRootCerts : option CertPool
}.

(** The state a call runs in: the process log, the record of the calls
    made so far (newest first), the configuration and the environment. *)
Record World : Type := {
  log : list logEntry;
  calls : list call;
  getConfig : Config;
  env : Env
}.

Definition withEnv (w : World) (e : Env) : World :=
  {| log := log w; calls := calls w; getConfig := getConfig w; env := e |}.

Definition record (c : call) (w : World) : World :=
  {| log := log w; calls := c :: calls w; getConfig := getConfig w; env := env w |}.

(** [logVerbose], log.go lines 253-257. *)
Definition logVerbose (messageCategory format : string) (v : list string)
    (w : World) : World :=
  if default false (Verbose (getConfig w) !! messageCategory)
  then {| log := {| format := format; args := v |} :: log w;
          calls := calls w; getConfig := getConfig w; env := env w |}
  else w.

(** *** connTransport *)

Definition redialFunc : Type := Context -> Env -> (net_Conn + error) * Env.

(** [connTransport], transport.go lines 90-96. *)
Record connTransport : Type := {
  Conn : net_Conn;
  Redial : option redialFunc;
  br : option bufio_Reader;
  used : bool
}.

(** [connTransport.redial], lines 182-194. *)
Definition redial (ct : connTransport) (ctx : Context) (w : World)
    : option error * connTransport * World :=
  match Redial ct with
  | None => (Some (errors_New "no redial function provided"), ct, w)
  | Some f =>
      let '(r, e) := f ctx (env w) in
      let w := record RedialCall (withEnv w e) in
      match r with
      | inr err => (Some err, ct, w)
      | inl newConn =>
          let w := record (CloseCall (Conn ct)) (withEnv w (Conn_Close (Conn ct) (env w))) in
          (None,
           {| Conn := newConn; Redial := Redial ct;
              br := Some (bufio_NewReader newConn); used := used ct |},
           w)
      end
  end.

(** [connTransport.roundTrip], lines 155-180. *)
Definition roundTrip (ct : connTransport) (req : http.Request) (w : World)
    : (option Response * option error) * connTransport * World :=
  let ctx := http.Ctx req in
  match ctx_Err ctx (env w) with
  | Some err => ((None, Some err), ct, w)
  | None =>
      let '(werr, e) := Request_Write req (Conn ct) (env w) in
      let w := record (WriteCall (Conn ct) req) (withEnv w e) in
      match werr with
      | Some err => ((None, Some err), ct, w)
      | None =>
          let rd := match br ct with
                    | None => bufio_NewReader (Conn ct)
                    | Some rd => rd
                    end in
          let '(r, rd, e) := ReadResponse rd req (env w) in
          let w := record (ReadResponseCall req) (withEnv w e) in
          let ct := {| Conn := Conn ct; Redial := Redial ct; br := Some rd; used := used ct |} in
          match r with
          | inl resp =>
              ((Some {| StatusCode := StatusCode resp;
                        Body := bodyWithContext (Body resp) ctx |}, None), ct, w)
          | inr err => ((None, Some err), ct, w)
          end
      end
  end.

Definition setUsed (ct : connTransport) : connTransport :=
  {| Conn := Conn ct; Redial := Redial ct; br := br ct; used := true |}.

(** [connTransport.RoundTrip], lines 98-120.  In the first [if] the
    source tests the named result [err], which has not been assigned yet
    and is nil, not [redialErr]. *)
Definition RoundTrip (ct : connTransport) (req : http.Request) (w : World)
    : (option Response * option error) * connTransport * World :=
  let err : option error := None in
  let '(ct, w) :=
    if used ct && negb (requestIsReplayable req) then
      let '(redialErr, ct, w) := redial ct (http.Ctx req) w in
      match err with
      | Some _ =>
          (ct, logVerbose "redial" "Error redialing connection to %s: %v"
                 [http.Host req; from_option Error "<nil>" redialErr] w)
      | None => (ct, w)
      end
    else (ct, w) in
  let ct := setUsed ct in
  let '(resp, err, ct, w) := roundTrip ct req w in
  match err with
  | Some e =>
      if shouldRedialForError e && requestIsReplayable req then
        let '(redialErr, ct, w) := redial ct (http.Ctx req) w in
        match redialErr with
        | None => roundTrip ct req w
        | Some re =>
            ((resp, err), ct,
             logVerbose "redial" "Error redialing connection to %s: %v"
               [http.Host req; Error re] w)
        end
      else ((resp, err), ct, w)
  | None => ((resp, err), ct, w)
  end.

(** [bodyWithContext.Read], lines 203-210, and below it the [Read] of the
    body it wraps. *)
Fixpoint Read (b : ReadCloser) (plen : Z) (e : Env) : readOutcome * Env :=
  match b with
  | connBody id => connBody_Read id plen e
  | bodyWithContext inner ctx =>
      match ctx_Err ctx e with
      | Some err => (returns 0 (Some err), e)
      | None => Read inner plen e
      end
  end.

(** *** RetryTransport *)

(** An [http.RoundTripper]: the inner transport, acting on the
    environment. *)
Definition RoundTripper : Type :=
  http.Request -> Env -> (option Response * option error) * Env.

Record RetryTransport : Type := { transport : RoundTripper }.

(** [t.transport.RoundTrip(req)], recorded as a call. *)
Definition transport_RoundTrip (t : RetryTransport) (req : http.Request) (w : World)
    : (option Response * option error) * World :=
  let '(r, e) := transport t req (env w) in
  (r, record (RoundTripCall req r) (withEnv w e)).

(** The loop [for range n] of lines 273-279; [None] when the loop ends
    without returning. *)
Fixpoint retryLoop (n : nat) (t : RetryTransport) (req : http.Request) (w : World)
    : option (option Response * option error) * World :=
  match n with
  | O => (None, w)
  | S n' =>
      let '((resp, err), w) := transport_RoundTrip t req w in
      match err with
      | None => (Some (resp, err), w)
      | Some e =>
          if negb (shouldRedialForError e) then (Some (resp, err), w)
          else retryLoop n' t req
                 (logVerbose "redial" "retrying request for %v"
                    [url.Host (http.URL req) +:+ url.Path (http.URL req)] w)
      end
  end.

(** [RetryTransport.RoundTrip], lines 271-282. *)
Definition RetryTransport_RoundTrip (t : RetryTransport) (req : http.Request) (w : World)
    : (option Response * option error) * World :=
  if requestIsReplayable req then
    match retryLoop 3 t req w with
    | (Some r, w) => (r, w)
    | (None, w) => transport_RoundTrip t req w
    end
  else transport_RoundTrip t req w.

(** *** dialWithExtraRootCerts, lines 39-76 *)

Definition dialWithExtraRootCerts (network addr : string) (w : World)
    : run ((option net_Conn * option error) * World) :=
  let serverName := net_SplitHostPort addr in
  let '(r, e) := tls_DialWithDialer network addr serverName (env w) in
  let w := record (DialCall network addr) (withEnv w e) in
  match r with
  | inr err => Ret ((None, Some err), w)
  | inl conn =>
      match PeerCertificates conn (env w) with
      | [] => Panic "index out of range [0] with length 0"
      | serverCert :: rest =>
          match Verify serverCert
                  {| Intermediates := certPoolWith rest; DNSName := serverName;
                     Roots := None |} (env w) with
          | inl chains => Ret ((Some conn, None), w)
          | inr err =>
              let closeAndFail (err : error) :=
                Ret ((None, Some err),
                     record (CloseCall conn) (withEnv w (Conn_Close conn (env w)))) in
              match ExtraRootCerts (getConfig w) with
              | Some extra =>
                  match Verify serverCert
                          {| Intermediates := certPoolWith rest; DNSName := serverName;
                             Roots := Some extra |} (env w) with
                  | inl chains => Ret ((Some conn, None), w)
                  | inr err => closeAndFail err
                  end
              | None => closeAndFail err
              end
          end
      end
  end.

End Transport.

(** ** FTPTransport *)

Module ftp.

(** The values that a transfer sends on its [Status] channel: the two that
    the bridge acts on, and any other. *)
Inductive status : Type :=
| COMPLETED
| ERROR
| otherStatus (n : nat).

(** A [*ftp.Transfer], by what it sends: the values of its [Status] channel,
    in order, and those of its [Error] channel. *)
Record Transfer : Type := { Status : list status; Error : list error }.

(** The body of a download is the read end of the pipe. *)
Inductive body : Type :=
| pipeReader.

(** The response that [FTPTransport.RoundTrip] builds: the fields of
    [http.Response] that it sets.  [Body = None] and [Header = None] are
    nil. *)
Record Response : Type := {
  StatusCode : Z;
  ProtoMajor : Z;
  ProtoMinor : Z;
  Request : http.Request;
  Body : option body;
  Header : option http.MIMEHeader
}.

(** How the write end of the pipe ends up. *)
Inductive pipeEnd : Type :=
| stillOpen
| closed
| closedWithError (err : error).

End ftp.

(** The calls that [FTPTransport.RoundTrip] makes into the ftp, path, mime
    and net/url packages. *)
Class FTP : Type := {
  FtpEnv : Type;
  (** [ftp.GetAsync(fullPath, w)] *)
  ftp_GetAsync : string -> FtpEnv -> (ftp.Transfer + error) * FtpEnv;
  (** [path.Ext] *)
  path_Ext : string -> string;
  (** [mime.TypeByExtension] *)
  mime_TypeByExtension : string -> string;
  (** [u.String()] *)
  URL_String : url.URL -> string
}.

Section FTPTransport.

Context `{FTP}.

(** [FTPTransport.RoundTrip], transport.go lines 215-263: the result, the
    transfer on which the goroutine of lines 230-243 has been started, if
    any, and the environment. *)
Definition FTPTransport_RoundTrip (req : http.Request) (e : FtpEnv)
    : (option ftp.Response * option error) * option ftp.Transfer * FtpEnv :=
  if negb (String.eqb (http.Method req) "GET") then
    ((Some {| ftp.StatusCode := 405; ftp.ProtoMajor := 0; ftp.ProtoMinor := 0;
              ftp.Request := req; ftp.Body := None; ftp.Header := None |}, None),
     None, e)
  else
    let fullPath := url.Host (http.URL req) +:+ url.Path (http.URL req) in
    let '(r, e) := ftp_GetAsync fullPath e in
    match r with
    | inr err => ((None, Some err), None, e)
    | inl xfer =>
        let header : http.MIMEHeader := ∅ in
        let ext := path_Ext (url.Path (http.URL req)) in
        let header :=
          if negb (String.eqb ext "") then
            let ct := mime_TypeByExtension ext in
            if negb (String.eqb ct "") then <["Content-Type" := [ct]]> header
            else header
          else header in
        ((Some {| ftp.StatusCode := 200; ftp.ProtoMajor := 1; ftp.ProtoMinor := 1;
                  ftp.Request := req; ftp.Body := Some ftp.pipeReader;
                  ftp.Header := Some header |}, None),
         Some xfer, e)
    end.

(** The goroutine of lines 230-243, on the values that the transfer sends:
    how it leaves the write end of the pipe, and what it logs.  It stops at
    the first [COMPLETED] or [ERROR]; at [ERROR] it waits for a value of the
    [Error] channel; when the [Status] channel is closed or falls silent
    before that, it has not closed the pipe.  A transfer that closes its
    [Error] channel without sending a value is not represented. *)
Fixpoint bridge (req : http.Request) (statuses : list ftp.status) (errors : list error)
    : ftp.pipeEnd * list logEntry :=
  match statuses with
  | [] => (ftp.stillOpen, [])
  | ftp.COMPLETED :: _ => (ftp.closed, [])
  | ftp.ERROR :: _ =>
      match errors with
      | err :: _ =>
          (ftp.closedWithError err,
           [{| format := "FTP: error downloading %v: %v";
               args := [URL_String (http.URL req); Error err] |}])
      | [] => (ftp.stillOpen, [])
      end
  | ftp.otherStatus _ :: rest => bridge req rest errors
  end.

End FTPTransport.

(** * The rule matching engine, [url.go] *)

(** ** Rules *)

(** The kinds of rule that [url.go] names, and [otherRule] for the kinds of
    the repository that it does not dispatch on. *)
Inductive ruleType : Type :=
| urlMatch
| urlRegex
| hostRegex
| pathRegex
| queryRegex
| otherRule.

Global Instance ruleType_eq_dec : EqDecision ruleType.
Proof. solve_decision. Defined.

(** Modelled from the spec: the [rule] struct is declared outside [src/];
    the data model makes it an immutable record of an identity, a kind, a
    pattern text, an action, a description and conditions, compared by value
    and usable as a map key.  The matcher reads the kind [t] and the pattern
    text [content]; two rules that agree on these may differ elsewhere. *)
Record rule : Type := {
  identity : string;
  t : ruleType;
  content : string;
  action : string;
  description : string;
  conditions : list string
}.

Global Instance rule_eq_dec : EqDecision rule.
Proof. solve_decision. Defined.

(** Rules are keys of maps: a rule is counted through the list of its
    fields, the kind being written as a digit. *)
Definition ruleType_code (k : ruleType) : string :=
  match k with
  | urlMatch => "0" | urlRegex => "1" | hostRegex => "2"
  | pathRegex => "3" | queryRegex => "4" | otherRule => "5"
  end.

Definition ruleType_of_code (code : string) : ruleType :=
  if String.eqb code "0" then urlMatch
  else if String.eqb code "1" then urlRegex
  else if String.eqb code "2" then hostRegex
  else if String.eqb code "3" then pathRegex
  else if String.eqb code "4" then queryRegex
  else otherRule.

Definition rule_fields (r : rule) : list string :=
  ruleType_code (t r) :: identity r :: content r :: action r :: description r
  :: conditions r.

Definition rule_of_fields (fields : list string) : rule :=
  match fields with
  | k :: i :: c :: a :: d :: cs =>
      {| identity := i; t := ruleType_of_code k; content := c; action := a;
         description := d; conditions := cs |}
  | _ =>
      {| identity := ""; t := otherRule; content := ""; action := "";
         description := ""; conditions := [] |}
  end.

Global Instance rule_countable : Countable rule.
Proof.
  refine (inj_countable' rule_fields rule_of_fields _).
  intros [i [] c a d cs]; reflexivity.
Defined.

(** The tally of a request: [map[rule]int], every value stored being 1. *)
Abbreviation Tally := (gmap rule Z).

(** ** The packages and helpers that [url.go] calls *)

Class Patterns : Type := {
  (** [*regexp.Regexp] *)
  Regexp : Type;
  (** [regexp.Compile]; [None] for a pattern that does not parse *)
  Compile : string -> option Regexp;
  (** [re.MatchString(s)] *)
  MatchString : Regexp -> string -> bool;
  (** [regexStrings(pattern)], declared outside [src/]: the literal strings
      extracted from the pattern, or [None] when extraction fails *)
  regexStrings : string -> option (list string);
  (** [ss.minLen()], declared outside [src/] *)
  minLen : list string -> Z;
  (** [punycode.DecodeString] *)
  punycode_DecodeString : string -> option string;
  (** [url.QueryUnescape] *)
  url_QueryUnescape : string -> option string;
  (** [strings.ToLower], consulted for text without ASCII bytes *)
  strings_ToLower : string -> string;
  (** it maps every rune to a rune: only the empty text has an empty image *)
  strings_ToLower_empty : forall s, strings_ToLower s = "" -> s = "";
  (** the lower case of a rune is a colon only when the rune is one *)
  strings_ToLower_colon : forall s, Contains (strings_ToLower s) ":" = Contains s ":"
}.

(** [strings.ToLower]: every ASCII byte is lowered here, every run of other
    bytes by the package. *)
Definition ToLower `{Patterns} (s : string) : string :=
  lowerRuns strings_ToLower "" s.

(** [strings.HasSuffix]. *)
Definition HasSuffix (s suffix : string) : bool :=
  (String.length suffix <=? String.length s)%nat
  && HasPrefix (dropBytes (String.length s - String.length suffix) s) suffix.

(** Modelled from the spec: the phrase list and its scanner are declared
    outside [src/].  The phrase list is the set of literals inserted with
    [addPhrase]; the scanner is fed one byte at a time and, after each byte,
    invokes its callback for every registered phrase that ends at the current
    position.  [scanByte] returns the phrases for which the callback is
    invoked. *)
Abbreviation phraseList := (gset string).

Definition newPhraseList : phraseList := ∅.

Definition addPhrase (p : string) (l : phraseList) : phraseList := {[p]} ∪ l.

Record phraseScanner : Type := {
  scanList : phraseList;
  scanned : string
}.

Definition newPhraseScanner (l : phraseList) : phraseScanner :=
  {| scanList := l; scanned := "" |}.

Definition scanByte (ps : phraseScanner) (c : ascii) : phraseScanner * list string :=
  let text := scanned ps +:+ String c "" in
  ({| scanList := scanList ps; scanned := text |},
   List.filter (fun p => HasSuffix text p) (elements (scanList ps))).

Section Matcher.

Context `{Patterns}.

(** ** regexMap *)

(** [regexRule], lines 13-16. *)
Record regexRule : Type := { rule_ : rule; re : Regexp }.

(** [regexMap], lines 21-24. *)
Record regexMap : Type := {
  stringList : phraseList;
  rules : gmap string (list regexRule)
}.

Definition newRegexMap : regexMap :=
  {| stringList := newPhraseList; rules := ∅ |}.

(** [rm.rules[p]]: the bucket of [p], empty when there is none. *)
Definition bucket (rm : regexMap) (p : string) : list regexRule :=
  default [] (rules rm !! p).

(** The loop [for _, r := range rs { if r.MatchString(s) { tally[r.rule] = 1 } }]
    of lines 39-43 and 52-56. *)
Definition tallyRules (rs : list regexRule) (s : string) (tally : Tally) : Tally :=
  foldl (fun tally r => if MatchString (re r) s then <[rule_ r := 1]> tally else tally)
        tally rs.

(** The callback of lines 35-45, on the pair of [tried] and [tally]. *)
Definition callback (rm : regexMap) (s : string) (st : gmap string bool * Tally)
    (p : string) : gmap string bool * Tally :=
  if default false (st.1 !! p) then st
  else (<[p := true]> st.1, tallyRules (bucket rm p) s st.2).

(** The loop of lines 47-49 over the bytes [rest] still to scan. *)
Fixpoint scanLoop (rm : regexMap) (s rest : string) (scanner : phraseScanner)
    (st : gmap string bool * Tally) : gmap string bool * Tally :=
  match rest with
  | EmptyString => st
  | String c rest' =>
      let '(scanner, reported) := scanByte scanner c in
      scanLoop rm s rest' scanner (foldl (callback rm s) st reported)
  end.

(** [regexMap.findMatches], lines 33-57. *)
Definition findMatches (rm : regexMap) (s : string) (tally : Tally) : Tally :=
  let st := scanLoop rm s s (newPhraseScanner (stringList rm)) (∅, tally) in
  tallyRules (bucket rm "") s st.2.

Definition appendRule (rm : regexMap) (p : string) (r : regexRule) : regexMap :=
  {| stringList := stringList rm;
     rules := <[p := bucket rm p ++ [r]]> (rules rm) |}.

(** The loop of lines 76-79: the rule is registered under each of its
    literals, which are added to the phrase list. *)
Definition registerUnder (y : regexRule) (rm : regexMap) (ss : list string) : regexMap :=
  foldl (fun rm p =>
           appendRule {| stringList := addPhrase p (stringList rm); rules := rules rm |} p y)
        rm ss.

(** [regexMap.addRule], lines 60-80.  The [log.Printf] of line 65 writes
    to the process log only, which the matcher never reads. *)
Definition addRule (rm : regexMap) (r : rule) : regexMap :=
  let s := content r in
  match Compile s with
  | None => rm
  | Some re =>
      match regexStrings s with
      | Some ss =>
          if minLen ss =? 0 then appendRule rm "" {| rule_ := r; re := re |}
          else registerUnder {| rule_ := r; re := re |} rm ss
      | None => appendRule rm "" {| rule_ := r; re := re |}
      end
  end.

(** ** URLMatcher *)

(** [URLMatcher], lines 82-88. *)
Record URLMatcher : Type := {
  fragments : gmap string rule;
  regexes : regexMap;
  hostRegexes : regexMap;
  pathRegexes : regexMap;
  queryRegexes : regexMap
}.

(** [newURLMatcher], lines 99-107. *)
Definition newURLMatcher : URLMatcher :=
  {| fragments := ∅; regexes := newRegexMap; hostRegexes := newRegexMap;
     pathRegexes := newRegexMap; queryRegexes := newRegexMap |}.

(** [URLMatcher.AddRule], lines 110-123. *)
Definition AddRule (m : URLMatcher) (r : rule) : URLMatcher :=
  match t r with
  | urlMatch =>
      {| fragments := <[content r := r]> (fragments m); regexes := regexes m;
         hostRegexes := hostRegexes m; pathRegexes := pathRegexes m;
         queryRegexes := queryRegexes m |}
  | urlRegex =>
      {| fragments := fragments m; regexes := addRule (regexes m) r;
         hostRegexes := hostRegexes m; pathRegexes := pathRegexes m;
         queryRegexes := queryRegexes m |}
  | hostRegex =>
      {| fragments := fragments m; regexes := regexes m;
         hostRegexes := addRule (hostRegexes m) r; pathRegexes := pathRegexes m;
         queryRegexes := queryRegexes m |}
  | pathRegex =>
      {| fragments := fragments m; regexes := regexes m;
         hostRegexes := hostRegexes m; pathRegexes := addRule (pathRegexes m) r;
         queryRegexes := queryRegexes m |}
  | queryRegex =>
      {| fragments := fragments m; regexes := regexes m;
         hostRegexes := hostRegexes m; pathRegexes := pathRegexes m;
         queryRegexes := addRule (queryRegexes m) r |}
  | otherRule => m
  end.

(** The rule loader of the specification: every rule goes through
    [AddRule], in order, starting from [newURLMatcher]. *)
Definition loadRules (rs : list rule) : URLMatcher := foldl AddRule newURLMatcher rs.

(** Lines 133-138: strip off the port number, if present. *)
Definition stripPort (host : string) : run string :=
  let colon := LastIndex host ":" in
  if negb (colon =? -1) then
    let* tail := sliceFrom host colon in
    if negb (Contains tail "]") then sliceTo host colon else Ret host
  else Ret host.

(** The body of the loop of lines 143-151 for one label. *)
Definition decodeLabel (puny : string) : run string :=
  if negb (HasPrefix puny "xn--") then Ret puny
  else
    let* rest := sliceFrom puny (len "xn--") in
    match punycode_DecodeString rest with
    | Some uni => Ret uni
    | None => Ret puny
    end.

Fixpoint decodeLabels (labels : list string) : run (list string) :=
  match labels with
  | [] => Ret []
  | puny :: rest =>
      let* uni := decodeLabel puny in
      let* rest := decodeLabels rest in
      Ret (uni :: rest)
  end.

(** Lines 140-153: internationalized domain names. *)
Definition decodeIDN (host : string) : run string :=
  if Contains host "xn--" then
    let* labels := decodeLabels (Split host ".") in
    Ret (ToLower (Join labels "."))
  else Ret host.

Definition tallyFragment (fragments : gmap string rule) (key : string)
    (result : Tally) : Tally :=
  match fragments !! key with
  | Some r => <[r := 1]> result
  | None => result
  end.

(** The inner loop of lines 186-195, on the candidate [s2]. *)
Fixpoint pathLoop (fuel : nat) (fragments : gmap string rule) (s2 : string)
    (result : Tally) : run Tally :=
  match fuel with
  | O => OutOfFuel
  | S fuel =>
      let result := tallyFragment fragments s2 result in
      let* front := sliceTo s2 (len s2 - 1) in
      let slash := LastIndex front "/" in
      if slash =? -1 then Ret result
      else
        let* s2 := sliceTo s2 (slash + 1) in
        pathLoop fuel fragments s2 result
  end.

(** The outer loop of lines 183-205, on the domain [s]. *)
Fixpoint hostLoop (fuel : nat) (fragments : gmap string rule) (s path : string)
    (result : Tally) : run Tally :=
  match fuel with
  | O => OutOfFuel
  | S fuel =>
      let s2 := s +:+ path in
      let* result := pathLoop (S (String.length s2)) fragments s2 result in
      let result := tallyFragment fragments s result in
      let dot := Index s "." in
      if dot =? -1 then Ret result
      else
        let* s := sliceFrom s (dot + 1) in
        hostLoop fuel fragments s path result
  end.

(** Lines 131-153: the host that the matching works on. *)
Definition matchingHost (u : url.URL) : run string :=
  let host := ToLower (url.Host u) in
  let* host := stripPort host in
  decodeIDN host.

(** [URLMatcher.MatchingRules], lines 128-208. *)
Definition MatchingRules (m : URLMatcher) (u : url.URL) : run Tally :=
  let result : Tally := ∅ in
  let* host := matchingHost u in
  let urlString := "" in
  let urlString :=
    if negb (String.eqb (url.Scheme u) "")
    then urlString +:+ ToLower (url.Scheme u) +:+ ":" else urlString in
  let '(urlString, result) :=
    if negb (String.eqb host "")
    then (urlString +:+ "//" +:+ host, findMatches (hostRegexes m) host result)
    else (urlString, result) in
  let path := ToLower (url.Path u) in
  let result := findMatches (pathRegexes m) path result in
  let urlString := urlString +:+ path in
  let query := ToLower (url.RawQuery u) in
  let '(urlString, result) :=
    if negb (String.eqb query "") then
      let query :=
        match url_QueryUnescape query with
        | Some q => ReplaceAll q " " "+"
        | None => query
        end in
      (urlString +:+ "?" +:+ query, findMatches (queryRegexes m) query result)
    else (urlString, result) in
  let result := findMatches (regexes m) urlString result in
  hostLoop (S (String.length host)) (fragments m) host path result.

End Matcher.

(** * The vocabulary of the properties, and inputs to run the code on *)

(** ** The transport layer *)

(** A small concrete network, to run the transport on.  The environment is
    a clock: writing a request takes one tick, and so does a read that
    returns.  Connection [0] has been closed by its peer (every response read
    on it ends in [io.EOF]), any other connection answers 200; a read of the
    body of connection [1] returns the bytes asked for after one tick, a read
    of any other body blocks.  Context [0] is never done; context [n+1] is
    canceled from tick [n] on, so context [1] is canceled from the start.
    The TLS peer presents a leaf and one intermediate, which the system roots
    do not know, and which has expired for any other pool. *)
Definition testNet : Network := {|
  Env := nat;
  net_Conn := nat;
  bufio_Reader := nat;
  Certificate := string;
  CertPool := list string;
  Request_Write := fun _ _ e => (None, S e);
  Conn_Close := fun _ e => e;
  bufio_NewReader := fun c => c;
  ReadResponse := fun rd _ e =>
    match rd with
    | O => (inr io_EOF, rd, e)
    | S _ => (inl {| StatusCode := 200; Body := connBody rd |}, rd, e)
    end;
  ctx_Err := fun ctx e =>
    match ctx with
    | O => None
    | S n => if (n <=? e)%nat then Some context_Canceled else None
    end;
  connBody_Read := fun id plen e =>
    match id with
    | 1%nat => (returns plen None, S e)
    | _ => (blocks, e)
    end;
  net_SplitHostPort := fun addr =>
    match lastIndexNat addr ":" with Some i => takeBytes i addr | None => addr end;
  tls_DialWithDialer := fun _ _ _ e => (inl 1%nat, e);
  PeerCertificates := fun _ _ => ["leaf"; "intermediate"];
  certPoolWith := fun certs => certs;
  Verify := fun _ opts _ =>
    match Roots opts with
    | None => inr (errors_New "x509: certificate signed by unknown authority")
    | Some _ => inr (errors_New "x509: certificate has expired or is not yet valid")
    end
|}.

Definition testConfig : @Config testNet :=
  @Build_Config testNet {["redial" := true]} (Some ["private-ca"]).

Definition testWorld : @World testNet :=
  @Build_World testNet [] [] testConfig 0%nat.

Definition testURL : url.URL :=
  {| url.Scheme := "http"; url.Host := "example.com"; url.Path := "/"; url.RawQuery := "" |}.

(** [GET http://example.com/] without a body, and a [POST] with one. *)
Definition getRequest (ctx : Context) : http.Request :=
  {| http.Method := "GET"; http.URL := testURL; http.Host := "example.com";
     http.Header := ∅; http.Body := None; http.GetBody := None; http.Ctx := ctx |}.

Definition postRequest (ctx : Context) : http.Request :=
  {| http.Method := "POST"; http.URL := testURL; http.Host := "example.com";
     http.Header := ∅; http.Body := Some (http.reader 7); http.GetBody := None;
     http.Ctx := ctx |}.

Definition bodyEmptyOrReproducible (r : http.Request) : Prop :=
  http.Body r = None \/ http.Body r = Some http.NoBody \/ http.GetBody r <> None.

Definition safeMethod (r : http.Request) : Prop :=
  http.Method r ∈ ["GET"; "HEAD"; "OPTIONS"; "TRACE"].

(** The header is present in the request, whatever its values. *)
Definition headerPresent (r : http.Request) (key : string) : Prop :=
  is_Some (http.Header r !! key).

(** The header is present and its first value is not empty. *)
Definition headerNonEmpty (r : http.Request) (key : string) : Prop :=
  exists v vs, http.Header r !! key = Some (v :: vs) /\ v <> "".

(** A [POST] without a body whose [Idempotency-Key] header is present with
    an empty value. *)
Definition emptyMarkerRequest : http.Request :=
  {| http.Method := "POST"; http.URL := testURL; http.Host := "example.com";
     http.Header := {["Idempotency-Key" := [""]]};
     http.Body := None; http.GetBody := None; http.Ctx := 0%nat |}.

Section RetrySpec.

Context `{Network}.

(** An attempt that failed with an error classified as redial-worthy. *)
Definition redialWorthyFailure (r : option Response * option error) : Prop :=
  exists e, r.2 = Some e /\ shouldRedialForError e = true.

End RetrySpec.

(** The number of attempts recorded in a list of calls. *)
Definition isRoundTripCall `{Network} (c : call) : bool :=
  match c with RoundTripCall _ _ => true | _ => false end.

Definition roundTripCalls `{Network} (cs : list call) : nat :=
  length (List.filter isRoundTripCall cs).

(** An inner transport whose connection attempt always ends in [io.EOF]. *)
Definition eofTransport : @RetryTransport testNet :=
  @Build_RetryTransport testNet (fun _ e => ((None, Some io_EOF), e)).

(** A used transport on the dead connection [0], without a redial function. *)
Definition usedTransport : @connTransport testNet :=
  @Build_connTransport testNet 0%nat None None true.

(** A fresh transport on the live connection [1], without a redial
    function, and one whose redial function hands out connection [2]. *)
Definition liveTransport : @connTransport testNet :=
  @Build_connTransport testNet 1%nat None None false.

Definition redialingTransport : @connTransport testNet :=
  @Build_connTransport testNet 0%nat (Some (fun _ e => (inl 2%nat, e))) None true.

Definition failingRedialTransport : @connTransport testNet :=
  @Build_connTransport testNet 0%nat
    (Some (fun _ e => (inr (errors_New "dial tcp: connection refused"), e))) None true.

(** ** The matcher *)

(** A pattern engine to run the matcher on: a pattern is a literal, it
    matches the texts that contain it, and it is its own required literal.
    No label is valid punycode, and query strings are taken as they are.
    Text without ASCII bytes is taken to be in lower case already, which it
    is in the inputs below. *)
Definition literalPatterns : Patterns := {|
  Regexp := string;
  Compile := fun pattern => Some pattern;
  MatchString := fun re s => Contains s re;
  regexStrings := fun pattern => Some [pattern];
  minLen := fun ss =>
    foldr (fun s n => Z.min (len s) n) (match ss with [] => 0 | s :: _ => len s end) ss;
  punycode_DecodeString := fun _ => None;
  url_QueryUnescape := fun q => Some q;
  strings_ToLower := fun s => s;
  strings_ToLower_empty := fun _ Hs => Hs;
  strings_ToLower_colon := fun _ => eq_refl
|}.

(** A rule of which only the kind and the pattern are stated. *)
Definition plainRule (kind : ruleType) (pattern : string) : rule :=
  {| identity := ""; t := kind; content := pattern; action := "";
     description := ""; conditions := [] |}.

Definition badRule : rule := plainRule urlMatch "bad.com".

Definition shopBadRule : rule := plainRule urlMatch "Shop.xn--bcher-kva.bad.com".

(** The pattern engine above, with a punycode decoder that knows two
    labels, [bcher-kva], the encoding of [bücher], and [dca], the encoding of
    [É], and with a lower-casing that knows one run of bytes beyond ASCII:
    [É] becomes [é]. *)
Definition idnPatterns : Patterns := {|
  Regexp := string;
  Compile := fun pattern => Some pattern;
  MatchString := fun re s => Contains s re;
  regexStrings := fun pattern => Some [pattern];
  minLen := @minLen literalPatterns;
  punycode_DecodeString := fun label =>
    if String.eqb label "bcher-kva" then Some "bücher"
    else if String.eqb label "dca" then Some "É" else None;
  url_QueryUnescape := fun q => Some q;
  strings_ToLower := fun s => if String.eqb s "É" then "é" else s;
  strings_ToLower_empty :=
    ltac:(intros s; cbv beta; destruct (String.eqb s "É"); [intros [=]|exact (fun Hs => Hs)]);
  strings_ToLower_colon :=
    ltac:(intros s; cbv beta; destruct (String.eqb_spec s "É") as [->|_]; reflexivity)
|}.



Definition subRule : rule := plainRule urlMatch "example.com/sub".

Definition httpURL (host path : string) : url.URL :=
  {| url.Scheme := "http"; url.Host := host; url.Path := path; url.RawQuery := "" |}.




Definition withHost (u : url.URL) (h : string) : url.URL :=
  {| url.Scheme := url.Scheme u; url.Host := h; url.Path := url.Path u;
     url.RawQuery := url.RawQuery u |}.

(** [tally[k] = 1] for every [k] of a list. *)
Definition markAll (ks : list rule) (tally : Tally) : Tally :=
  foldl (fun tally k => <[k := 1]> tally) tally ks.

Section RegexMapSpec.

Context `{Patterns}.

Implicit Types (rm : regexMap) (x y : regexRule) (r k : rule) (p q s : string).

(** The rules of a list that match [s]. *)
Definition matching (l : list regexRule) (s : string) : list rule :=
  rule_ <$> List.filter (fun x => MatchString (re x) s) l.

(** The buckets under which [addRule] files a rule. *)
Definition filedUnder (r : rule) (q : string) : Prop :=
  match regexStrings (content r) with
  | Some ss => if minLen ss =? 0 then q = "" else q ∈ ss
  | None => q = ""
  end.

(** The rules of a [regexMap] filled by [addRule] from a list of rules. *)
Definition regexMapOf (rs : list rule) : regexMap := foldl addRule newRegexMap rs.

End RegexMapSpec.

(** Phrase [p] of the list [l] ends at some position of [rest] when [rest]
    is scanned after [pre]. *)
Definition reportedIn (l : phraseList) (pre rest p : string) : Prop :=
  p ∈ l /\ exists t1 t2, rest = t1 +:+ t2 /\ t1 <> "" /\ HasSuffix (pre +:+ t1) p = true.

Section ScanSpec.

Context `{Patterns}.

Implicit Types (rm : regexMap) (x y : regexRule) (r k : rule) (p q s : string).

Implicit Types (st : gmap string bool * Tally).

(** The tally holds exactly the matching rules of the buckets tried. *)
Definition consistent rm s (tally0 : Tally) st : Prop :=
  (forall p b, st.1 !! p = Some b -> b = true) /\
  exists ks, st.2 = markAll ks tally0 /\
    forall k, k ∈ ks <->
      exists p x, st.1 !! p = Some true /\ x ∈ bucket rm p /\
                  MatchString (re x) s = true /\ rule_ x = k.

End ScanSpec.

Section PruningSpec.

Context `{Patterns}.

(** The reference of the specification: every registered rule whose pattern
    compiles is evaluated on the text, one by one. *)
Definition naiveMatches (rs : list rule) (s : string) (tally : Tally) : Tally :=
  foldl (fun tally r =>
           match Compile (content r) with
           | Some re0 => if MatchString re0 s then <[r := 1]> tally else tally
           | None => tally
           end)
        tally rs.

(** The contract of [regexStrings], which is declared outside [src/], on
    the rules [rs] and the text [s]: when literals were extracted from the
    pattern of a rule and the shortest of them is not empty, a text that the
    pattern matches holds one of them.  Nothing is asked of a pattern whose
    extraction fails or yields a literal of length zero. *)
Definition literalsRequired (rs : list rule) (s : string) : Prop :=
  forall r re0 ss,
    r ∈ rs -> Compile (content r) = Some re0 -> regexStrings (content r) = Some ss ->
    minLen ss <> 0 ->
    MatchString re0 s = true -> exists p, p ∈ ss /\ Contains s p = true.

End PruningSpec.

Definition adsRules : list rule :=
  [ plainRule hostRegex "ads."; plainRule hostRegex "tracker"; plainRule hostRegex "" ].

(** The candidates that [pathLoop] looks up, in order. *)
Fixpoint pathKeys (fuel : nat) (s2 : string) : run (list string) :=
  match fuel with
  | O => OutOfFuel
  | S fuel =>
      let* front := sliceTo s2 (len s2 - 1) in
      let slash := LastIndex front "/" in
      if slash =? -1 then Ret [s2]
      else
        let* s2' := sliceTo s2 (slash + 1) in
        let* ks := pathKeys fuel s2' in
        Ret (s2 :: ks)
  end.

(** The candidates that [hostLoop] looks up, in order. *)
Fixpoint hostKeys (fuel : nat) (s path : string) : run (list string) :=
  match fuel with
  | O => OutOfFuel
  | S fuel =>
      let* ks1 := pathKeys (S (String.length (s +:+ path))) (s +:+ path) in
      let dot := Index s "." in
      if dot =? -1 then Ret (ks1 ++ [s])
      else
        let* s' := sliceFrom s (dot + 1) in
        let* ks2 := hostKeys fuel s' path in
        Ret (ks1 ++ s :: ks2)
  end.

Definition tallyFragments (frags : gmap string rule) (keys : list string)
    (result : Tally) : Tally :=
  foldl (fun result key => tallyFragment frags key result) result keys.

(** A host in the form that [MatchingRules] reduces hosts to: lower case,
    without a colon, without an ACE label. *)
Definition normalHost `{Patterns} (h : string) : Prop :=
  ToLower h = h /\ Contains h ":" = false /\ Contains h "xn--" = false.

Section MatcherSpec.

Context `{Patterns}.

Implicit Types (m : URLMatcher) (rm : regexMap) (r : rule) (rs : list rule) (u : url.URL).

(** The tally of the four regular-expression tiers, lines 155-179. *)
Definition regexTally m u (host : string) : Tally :=
  let result : Tally := ∅ in
  let urlString := "" in
  let urlString :=
    if negb (String.eqb (url.Scheme u) "")
    then urlString +:+ ToLower (url.Scheme u) +:+ ":" else urlString in
  let '(urlString, result) :=
    if negb (String.eqb host "")
    then (urlString +:+ "//" +:+ host, findMatches (hostRegexes m) host result)
    else (urlString, result) in
  let path := ToLower (url.Path u) in
  let result := findMatches (pathRegexes m) path result in
  let urlString := urlString +:+ path in
  let query := ToLower (url.RawQuery u) in
  let '(urlString, result) :=
    if negb (String.eqb query "") then
      let query :=
        match url_QueryUnescape query with
        | Some q => ReplaceAll q " " "+"
        | None => query
        end in
      (urlString +:+ "?" +:+ query, findMatches (queryRegexes m) query result)
    else (urlString, result) in
  findMatches (regexes m) urlString result.

End MatcherSpec.

(** ** More of the transport layer *)

(** The number of requests written, and of calls of the redial function,
    recorded in a list of calls. *)
Definition isWriteCall `{Network} (c : call) : bool :=
  match c with WriteCall _ _ => true | _ => false end.

Definition writeCalls `{Network} (cs : list call) : nat :=
  length (List.filter isWriteCall cs).

Definition isRedialCall `{Network} (c : call) : bool :=
  match c with RedialCall => true | _ => false end.

Definition redialCalls `{Network} (cs : list call) : nat :=
  length (List.filter isRedialCall cs).

(** Whether [logVerbose] writes for the category. *)
Definition verbose `{Network} (w : World) (category : string) : bool :=
  default false (Verbose (getConfig w) !! category).

(** The network of [testNet], with a peer whose chain leads to the private
    authority: the system roots do not know it, a supplementary pool that
    holds [private-ca] verifies it. *)
Definition privateNet : Network := {|
  Env := nat;
  net_Conn := nat;
  bufio_Reader := nat;
  Certificate := string;
  CertPool := list string;
  Request_Write := fun _ _ e => (None, S e);
  Conn_Close := fun _ e => e;
  bufio_NewReader := fun c => c;
  ReadResponse := fun rd _ e => (inl {| StatusCode := 200; Body := connBody rd |}, rd, e);
  ctx_Err := fun _ _ => None;
  connBody_Read := fun _ _ e => (blocks, e);
  net_SplitHostPort := fun addr =>
    match lastIndexNat addr ":" with Some i => takeBytes i addr | None => addr end;
  tls_DialWithDialer := fun _ _ _ e => (inl 1%nat, e);
  PeerCertificates := fun _ _ => ["leaf"; "intermediate"];
  certPoolWith := fun certs => certs;
  Verify := fun cert opts _ =>
    match Roots opts with
    | Some pool =>
        if bool_decide ("private-ca" ∈ pool)
        then inl [cert :: Intermediates opts ++ ["private-ca"]]
        else inr (errors_New "x509: certificate signed by unknown authority")
    | None => inr (errors_New "x509: certificate signed by unknown authority")
    end
|}.

Definition privateWorld : @World privateNet :=
  @Build_World privateNet [] [] (@Build_Config privateNet ∅ (Some ["private-ca"])) 0%nat.

(** A status on which the bridge does not act. *)
Definition passedOver (s : ftp.status) : Prop :=
  s <> ftp.COMPLETED /\ s <> ftp.ERROR.

(** An FTP client to run the bridge on: a path that ends with [/missing] is
    not there, any other is; a transfer reports its start and then its end;
    the environment counts the transfers started. *)
Definition testFTP : FTP := {|
  FtpEnv := nat;
  ftp_GetAsync := fun fullPath e =>
    if HasSuffix fullPath "/missing"
    then (inl {| ftp.Status := [ftp.otherStatus 1; ftp.ERROR];
                 ftp.Error := [errors_New "550 No such file"] |}, S e)
    else (inl {| ftp.Status := [ftp.otherStatus 1; ftp.COMPLETED]; ftp.Error := [] |}, S e);
  path_Ext := fun p =>
    match lastIndexNat p "." with Some i => dropBytes i p | None => "" end;
  mime_TypeByExtension := fun ext => if String.eqb ext ".txt" then "text/plain" else "";
  URL_String := fun u => url.Scheme u +:+ "://" +:+ url.Host u +:+ url.Path u
|}.

Definition ftpRequest (method path : string) : http.Request :=
  {| http.Method := method;
     http.URL := {| url.Scheme := "ftp"; url.Host := "ftp.example.com"; url.Path := path;
                    url.RawQuery := "" |};
     http.Host := "ftp.example.com"; http.Header := ∅; http.Body := None;
     http.GetBody := None; http.Ctx := 0%nat |}.

(** ** More of the matcher *)

(** The domains a host belongs to: the host itself, and what follows each of
    its dots. *)
Definition domainOf (host s : string) : Prop :=
  s = host \/ exists a, host = a +:+ "." +:+ s.

(** The fragment rule that a list of rules leaves under [key]: the last of
    its fragment rules with that content, since the assignment of line 113
    replaces what an earlier rule stored there. *)
Definition lastFragment (rs : list rule) (key : string) : option rule :=
  last (filter (fun r => t r = urlMatch /\ content r = key) rs).

(** The rule is in force once the list is loaded: a fragment rule when it is
    the last fragment rule of the list with its content, any other rule when
    it is in the list. *)
Definition inForce (rs : list rule) (r : rule) : Prop :=
  match t r with
  | urlMatch => lastFragment rs (content r) = Some r
  | _ => r ∈ rs
  end.

(** The candidates looked up for the domain [s] and the path: the domain,
    the domain followed by the whole path, and every shorter prefix of that
    which ends with a slash. *)
Definition fragmentKey (s path k : string) : Prop :=
  k = s \/ k = s +:+ path \/
  exists rest, rest <> "" /\ s +:+ path = k +:+ rest /\ HasSuffix k "/" = true.

Section MatchSpec.

Context `{Patterns}.

(** The text that the query tier works on, lines 168-174; [None] when the
    URL has no query. *)
Definition matchingQuery (u : url.URL) : option string :=
  let query := ToLower (url.RawQuery u) in
  if String.eqb query "" then None
  else Some (match url_QueryUnescape query with
             | Some q => ReplaceAll q " " "+"
             | None => query
             end).

(** The text that the whole-URL tier works on, lines 155-177. *)
Definition matchingURL (u : url.URL) (host : string) : string :=
  (if String.eqb (url.Scheme u) "" then "" else ToLower (url.Scheme u) +:+ ":")
  +:+ (if String.eqb host "" then "" else "//" +:+ host)
  +:+ ToLower (url.Path u)
  +:+ (match matchingQuery u with Some q => "?" +:+ q | None => "" end).

(** The pattern of the rule compiles and matches [s], and one of the
    literals under which [addRule] files the rule occurs in [s] (the empty
    literal, under which rules without a usable literal are filed, occurs in
    every text). *)
Definition hits (r : rule) (s : string) : Prop :=
  exists re0, Compile (content r) = Some re0 /\ MatchString re0 s = true /\
    exists q, filedUnder r q /\ Contains s q = true.

(** What it takes for a rule to be reported for a URL whose host is matched
    as [host]. *)
Definition ruleApplies (r : rule) (u : url.URL) (host : string) : Prop :=
  match t r with
  | urlMatch => exists s, domainOf host s /\ fragmentKey s (ToLower (url.Path u)) (content r)
  | hostRegex => host <> "" /\ hits r host
  | pathRegex => hits r (ToLower (url.Path u))
  | queryRegex => exists q, matchingQuery u = Some q /\ hits r q
  | urlRegex => hits r (matchingURL u host)
  | otherRule => False
  end.

(** What the loop of lines 143-151 makes of a label: a label that does not
    start with [xn--] is kept, and so is one whose remainder is not valid
    punycode; any other is replaced by its decoding. *)
Definition decodesTo (l l' : string) : Prop :=
  (HasPrefix l "xn--" = false /\ l' = l) \/
  exists rest, l = "xn--" +:+ rest /\
    match punycode_DecodeString rest with
    | Some uni => l' = uni
    | None => l' = l
    end.

End MatchSpec.

Definition mixedCaseURL : url.URL :=
  {| url.Scheme := "HTTP"; url.Host := "Example.COM"; url.Path := "/Sub"; url.RawQuery := "" |}.

Definition dirRule : rule := plainRule urlMatch "example.com/sub/".

Definition idnURL (host : string) : url.URL :=
  {| url.Scheme := "https"; url.Host := host; url.Path := "/"; url.RawQuery := "" |}.

Definition buecherRule : rule := plainRule urlMatch "bücher.example".

Definition eAcuteRule : rule := plainRule urlMatch "é.com".

Definition spaceQueryURL : url.URL :=
  {| url.Scheme := "http"; url.Host := "example.com"; url.Path := "/search";
     url.RawQuery := "q=a b" |}.

(** Two rules on the same fragment, which differ in what they stand for. *)
Definition blockBad : rule :=
  {| identity := "block-bad"; t := urlMatch; content := "bad.com"; action := "block";
     description := "known bad host"; conditions := [] |}.

Definition allowBad : rule :=
  {| identity := "allow-bad"; t := urlMatch; content := "bad.com"; action := "allow";
     description := "exception for staff"; conditions := ["group=staff"] |}.

Definition plusRule : rule := plainRule queryRegex "a+b".

Definition emptyPatternRule : rule := plainRule urlRegex "".

(** * The code on small inputs *)

(** An equation between closed terms of a type with decidable equality is
    settled by evaluating the decision. *)
Ltac by_evaluation := apply (bool_decide_unpack _); vm_compute; exact I.

Example Split_example : Split "a.b..c" "." = ["a"; "b"; ""; "c"].
Proof. reflexivity. Qed.

Example Split_example2 : Split "a--b-c" "--" = ["a"; "b-c"].
Proof. reflexivity. Qed.

Example LastIndex_example : LastIndex "[::1]:80" ":" = 5.
Proof. reflexivity. Qed.

Example ToLower_example : ToLower (H := literalPatterns) "Ex.COM:80" = "ex.com:80".
Proof. reflexivity. Qed.

Example shouldRedial_wrapped :
  shouldRedialForError (wrapped "read tcp: EOF" io_EOF) = true.
Proof. reflexivity. Qed.

Example shouldRedial_renegotiation :
  shouldRedialForError (errors_New "tls: no renegotiation") = true.
Proof. reflexivity. Qed.

Example shouldRedial_canceled : shouldRedialForError context_Canceled = false.
Proof. reflexivity. Qed.

(** * Properties of the transport layer *)

(** ** requestIsReplayable *)

Lemma Get_nonempty (r : http.Request) (key : string) :
  http.Get (http.Header r) key <> "" <-> headerNonEmpty r key.
Proof.
  unfold http.Get, headerNonEmpty. split.
  - destruct (http.Header r !! key) as [[|v vs]|]; try congruence. eauto.
  - intros (v & vs & -> & Hv). exact Hv.
Qed.

(** C7, as stated, fails: a request whose idempotency marker header is
    present but empty has an empty body and carries the marker, and
    [requestIsReplayable] returns false on it. *)
Lemma requestIsReplayable_empty_marker :
  ~ (requestIsReplayable emptyMarkerRequest = true <->
     bodyEmptyOrReproducible emptyMarkerRequest /\
     (safeMethod emptyMarkerRequest \/
      headerPresent emptyMarkerRequest "Idempotency-Key" \/
      headerPresent emptyMarkerRequest "X-Idempotency-Key")).
Proof.
  intros [_ Hback].
  assert (requestIsReplayable emptyMarkerRequest = false) as Hfalse by reflexivity.
  rewrite Hback in Hfalse; [discriminate|].
  split; [left; reflexivity|].
  right; left. unfold headerPresent. simpl. rewrite lookup_singleton_eq. eauto.
Qed.

(** C7 (amended): [requestIsReplayable] returns true if and only if the body
    is nil, [NoBody] or reproducible through [GetBody], and either the method
    is GET, HEAD, OPTIONS or TRACE, or the first value of the
    [Idempotency-Key] or of the [X-Idempotency-Key] header is not empty. *)
Theorem requestIsReplayable_iff (r : http.Request) :
  requestIsReplayable r = true <->
  bodyEmptyOrReproducible r /\
  (safeMethod r \/ headerNonEmpty r "Idempotency-Key" \/
   headerNonEmpty r "X-Idempotency-Key").
Proof.
  rewrite <- !Get_nonempty.
  unfold requestIsReplayable, bodyEmptyOrReproducible, safeMethod.
  repeat case_bool_decide; simpl; split; intros Hyp;
    try discriminate; try reflexivity; try tauto;
    destruct Hyp as [[?|[?|?]] [?|[?|?]]]; tauto.
Qed.

(** ** RetryTransport *)

Section RetryProperties.

Context `{Network}.

Lemma logVerbose_calls category fmt v (w : World) :
  calls (logVerbose category fmt v w) = calls w.
Proof. unfold logVerbose. by destruct (default false _). Qed.

Lemma logVerbose_env category fmt v (w : World) :
  env (logVerbose category fmt v w) = env w.
Proof. unfold logVerbose. by destruct (default false _). Qed.

Lemma logVerbose_getConfig category fmt v (w : World) :
  getConfig (logVerbose category fmt v w) = getConfig w.
Proof. unfold logVerbose. by destruct (default false _). Qed.

(** The loop of [n] rounds: the attempts it makes, oldest first, are
    recorded as calls; either it returns the result of the last one, which
    is then not a redial-worthy failure while all the earlier ones are, or
    it falls through after [n] redial-worthy failures. *)
Lemma retryLoop_attempts (n : nat) (t : RetryTransport) (req : http.Request) (w : World) :
  exists outs : list (option Response * option error),
    calls (retryLoop n t req w).2 = (RoundTripCall req <$> rev outs) ++ calls w /\
    match (retryLoop n t req w).1 with
    | Some r =>
        exists earlier, outs = earlier ++ [r] /\ (length earlier < n)%nat /\
          Forall redialWorthyFailure earlier /\ ~ redialWorthyFailure r
    | None => length outs = n /\ Forall redialWorthyFailure outs
    end.
Proof.
  revert w. induction n as [|n IH]; intros w; simpl.
  - exists []. simpl. auto.
  - unfold transport_RoundTrip.
    destruct (transport t req (env w)) as [[resp err] e] eqn:Hcall.
    set (w1 := record _ _).
    destruct err as [e0|]; [destruct (shouldRedialForError e0) eqn:Hredial|]; simpl.
    + destruct (IH (logVerbose "redial" "retrying request for %v"
                      [url.Host (http.URL req) +:+ url.Path (http.URL req)] w1))
        as (outs & Hcalls & Hres).
      exists ((resp, Some e0) :: outs). split.
      * rewrite Hcalls, logVerbose_calls. subst w1. simpl.
        rewrite fmap_app. simpl. by rewrite <- app_assoc.
      * assert (redialWorthyFailure (resp, Some e0)) as Hfail by (exists e0; auto).
        destruct (retryLoop n t req _).1 as [r|].
        -- destruct Hres as (earlier & -> & Hlen & Hall & Hlast).
           exists ((resp, Some e0) :: earlier). simpl.
           repeat split; auto. lia.
        -- destruct Hres as [<- Hall]. auto.
    + exists [(resp, Some e0)]. split; [done|].
      exists []. repeat split; auto; [simpl; lia|].
      intros (e1 & Heq & Hyes). simpl in Heq. congruence.
    + exists [(resp, None)]. split; [done|].
      exists []. repeat split; auto; [simpl; lia|].
      intros (e1 & Heq & _). simpl in Heq. congruence.
Qed.

(** C1 (amended): for a replayable request [RetryTransport.RoundTrip]
    makes at least one and at most four attempts (three in its loop and one
    after it); every attempt but the last failed with a redial-worthy
    error; it returns what the last attempt returned; and when it stops
    before the fourth attempt, the last attempt succeeded or failed with an
    error that is not redial-worthy. *)
Theorem RetryTransport_RoundTrip_attempts
    (t : RetryTransport) (req : http.Request) (w : World) :
  requestIsReplayable req = true ->
  exists (earlier : list (option Response * option error)),
    let r := (RetryTransport_RoundTrip t req w).1 in
    calls (RetryTransport_RoundTrip t req w).2
      = RoundTripCall req r :: (RoundTripCall req <$> rev earlier) ++ calls w /\
    (length earlier <= 3)%nat /\
    Forall redialWorthyFailure earlier /\
    ((length earlier < 3)%nat -> ~ redialWorthyFailure r).
Proof.
  intros Hreplay. unfold RetryTransport_RoundTrip. rewrite Hreplay.
  destruct (retryLoop_attempts 3 t req w) as (outs & Hcalls & Hres).
  destruct (retryLoop 3 t req w) as [[r|] w1]; simpl in *.
  - destruct Hres as (earlier & -> & Hlen & Hall & Hlast).
    exists earlier. rewrite Hcalls, rev_app_distr. simpl.
    repeat split; auto. lia.
  - destruct Hres as [Hlen Hall]. exists outs.
    unfold transport_RoundTrip.
    destruct (transport t req (env w1)) as [r e]. simpl.
    rewrite Hcalls. repeat split; auto; lia.
Qed.

End RetryProperties.

Lemma RetryTransport_RoundTrip_attempts_witness :
  requestIsReplayable (getRequest 0%nat) = true /\
  exists earlier,
    calls (RetryTransport_RoundTrip eofTransport (getRequest 0%nat) testWorld).2
      = RoundTripCall (getRequest 0%nat)
          (RetryTransport_RoundTrip eofTransport (getRequest 0%nat) testWorld).1
        :: (RoundTripCall (getRequest 0%nat) <$> rev earlier) ++ calls testWorld /\
    (length earlier <= 3)%nat /\
    Forall redialWorthyFailure earlier /\
    ((length earlier < 3)%nat ->
     ~ redialWorthyFailure (RetryTransport_RoundTrip eofTransport (getRequest 0%nat) testWorld).1).
Proof.
  split; [reflexivity|].
  apply (@RetryTransport_RoundTrip_attempts testNet eofTransport (getRequest 0%nat) testWorld).
  reflexivity.
Defined.

(** C1, as stated, fails: against an inner transport that keeps failing with
    [io.EOF], a replayable GET is attempted four times, not at most three,
    before the error is returned. *)
Lemma RetryTransport_RoundTrip_fourth_attempt :
  requestIsReplayable (getRequest 0%nat) = true /\
  (RetryTransport_RoundTrip eofTransport (getRequest 0%nat) testWorld).1 = (None, Some io_EOF) /\
  roundTripCalls (calls (RetryTransport_RoundTrip eofTransport (getRequest 0%nat) testWorld).2) = 4%nat /\
  ~ (roundTripCalls (calls (RetryTransport_RoundTrip eofTransport (getRequest 0%nat) testWorld).2) <= 3)%nat.
Proof.
  assert (roundTripCalls
            (calls (RetryTransport_RoundTrip eofTransport (getRequest 0%nat) testWorld).2) = 4%nat)
    as Hfour by (vm_compute; reflexivity).
  split; [reflexivity|]. split; [reflexivity|]. split; [exact Hfour|].
  rewrite Hfour. lia.
Qed.

(** ** connTransport *)

Section ConnProperties.

Context `{Network}.

(** C10: when [redial] fails, because there is no redial function or
    because the redial function returns an error, it returns that error,
    the transport (its [Conn], [br] and [used]) is exactly what it was, no
    [Close] has been called and nothing is logged; [Conn] and [br] are
    replaced, and the old connection closed, only in the other case, when
    the redial function has returned a new connection. *)
Theorem redial_failure_keeps_session (ct : connTransport) (ctx : Context) (w : World) :
  match redial ct ctx w with
  | (Some err, ct', w') =>
      ct' = ct /\ log w' = log w /\
      ((Redial ct = None /\ err = errors_New "no redial function provided" /\ w' = w) \/
       (exists f e, Redial ct = Some f /\ f ctx (env w) = (inr err, e) /\
                    w' = record RedialCall (withEnv w e)))
  | (None, ct', w') =>
      exists f newConn e,
        Redial ct = Some f /\ f ctx (env w) = (inl newConn, e) /\
        Conn ct' = newConn /\ br ct' = Some (bufio_NewReader newConn) /\
        used ct' = used ct /\ Redial ct' = Redial ct /\
        calls w' = CloseCall (Conn ct) :: RedialCall :: calls w /\
        env w' = Conn_Close (Conn ct) e
  end.
Proof.
  unfold redial. destruct (Redial ct) as [f|] eqn:Hf.
  - destruct (f ctx (env w)) as [[newConn|err] e] eqn:Hcall.
    + exists f, newConn, e. simpl. repeat split; auto.
    + repeat split; auto. right. exists f, e. auto.
  - repeat split; auto.
Qed.

Lemma redial_log (ct : connTransport) (ctx : Context) (w : World) :
  log (redial ct ctx w).2 = log w.
Proof.
  unfold redial. destruct (Redial ct) as [f|]; [|done].
  destruct (f ctx (env w)) as [[newConn|err] e]; done.
Qed.

Lemma roundTrip_log (ct : connTransport) (req : http.Request) (w : World) :
  log (roundTrip ct req w).2 = log w.
Proof.
  unfold roundTrip. destruct (ctx_Err _ _); [done|].
  destruct (Request_Write _ _ _) as [[err|] e]; [done|].
  destruct (ReadResponse _ _ _) as [[[resp|err] rd] e']; done.
Qed.

(** C6 (amended): if the request's context is already done when
    [roundTrip] begins, [roundTrip] returns its error and leaves the transport
    and the world as they were: no call has been made, so nothing has been
    written; and the body of every response that [roundTrip] returns is a
    [bodyWithContext] on the request's context, whose [Read], when it begins
    while that context is done, returns [(0, ctx.Err())] without reading from
    the body underneath, and, when it begins while the context is not done,
    is the [Read] of the body underneath, whatever happens to the context
    before that one returns. *)
Theorem roundTrip_cancellation (ct : connTransport) (req : http.Request) (w : World) :
  (forall err, ctx_Err (http.Ctx req) (env w) = Some err ->
               roundTrip ct req w = ((None, Some err), ct, w)) /\
  (forall resp, (roundTrip ct req w).1.1.1 = Some resp ->
     exists inner, Body resp = bodyWithContext inner (http.Ctx req) /\
       (forall plen e err, ctx_Err (http.Ctx req) e = Some err ->
                           Read (Body resp) plen e = (returns 0 (Some err), e)) /\
       (forall plen e, ctx_Err (http.Ctx req) e = None ->
                       Read (Body resp) plen e = Read inner plen e)).
Proof.
  split.
  - intros err Hdone. unfold roundTrip. by rewrite Hdone.
  - intros resp. unfold roundTrip. destruct (ctx_Err _ _); [discriminate|].
    destruct (Request_Write _ _ _) as [[err|] e]; [discriminate|].
    destruct (ReadResponse _ _ _) as [[[resp0|err] rd] e']; simpl; [|discriminate].
    intros [= <-]. exists (Body resp0). split; [done|]. split.
    + intros plen e1 err Hdone. simpl. by rewrite Hdone.
    + intros plen e1 Hlive. simpl. by rewrite Hlive.
Qed.

(** The same at the level of [RoundTrip], when no proactive redial is due
    and the context's error is not one that asks for a redial. *)
Lemma RoundTrip_canceled (ct : connTransport) (req : http.Request) (w : World) err :
  used ct && negb (requestIsReplayable req) = false ->
  ctx_Err (http.Ctx req) (env w) = Some err ->
  shouldRedialForError err = false ->
  RoundTrip ct req w = ((None, Some err), setUsed ct, w).
Proof.
  intros Hfresh Hdone Hno. unfold RoundTrip. rewrite Hfresh.
  unfold roundTrip. rewrite Hdone. by rewrite Hno.
Qed.

Lemma redial_no_write (ct : connTransport) (ctx : Context) (w : World) conn req :
  WriteCall conn req ∈ calls (redial ct ctx w).2 -> WriteCall conn req ∈ calls w.
Proof.
  unfold redial. destruct (Redial ct) as [f|]; [|done].
  destruct (f ctx (env w)) as [[newConn|err] e]; simpl.
  - intros [?|[?|?]%elem_of_cons]%elem_of_cons; done.
  - intros [?|?]%elem_of_cons; done.
Qed.

(** X15: when the context of the request is done and stays done, with an
    error that does not ask for a redial, [RoundTrip] returns that error and
    writes no request to any connection, whatever the state of the transport:
    the proactive redial may take place, the exchange does not. *)
Lemma RoundTrip_canceled_throughout
    (ct : connTransport) (req : http.Request) (w : World) err :
  (forall e, ctx_Err (http.Ctx req) e = Some err) ->
  shouldRedialForError err = false ->
  (RoundTrip ct req w).1.1 = (None, Some err) /\
  forall conn req', WriteCall conn req' ∈ calls (RoundTrip ct req w).2 ->
                    WriteCall conn req' ∈ calls w.
Proof.
  intros Hdone Hno. unfold RoundTrip.
  destruct (used ct && negb (requestIsReplayable req)).
  - pose proof (redial_no_write ct (http.Ctx req) w) as Hcalls.
    destruct (redial ct (http.Ctx req) w) as [[redialErr ct1] w1]. simpl in Hcalls.
    unfold roundTrip. rewrite Hdone, Hno. simpl. split; [done|]. apply Hcalls.
  - unfold roundTrip. rewrite Hdone, Hno. simpl. done.
Qed.

(** For a request that is not replayable, [RoundTrip] never logs: the
    proactive redial is the only redial it can perform, and its failure
    goes unreported. *)
Lemma RoundTrip_not_replayable_log (ct : connTransport) (req : http.Request) (w : World) :
  requestIsReplayable req = false ->
  log (RoundTrip ct req w).2 = log w.
Proof.
  intros Hno. unfold RoundTrip. rewrite Hno. simpl negb.
  destruct (used ct && true).
  - pose proof (redial_log ct (http.Ctx req) w) as Hlog.
    destruct (redial ct (http.Ctx req) w) as [[redialErr ct1] w1]. simpl in Hlog.
    pose proof (roundTrip_log (setUsed ct1) req w1) as Hlog2.
    destruct (roundTrip (setUsed ct1) req w1) as [[[resp err] ct2] w2]. simpl in Hlog2.
    destruct err; rewrite ?andb_false_r; simpl; congruence.
  - pose proof (roundTrip_log (setUsed ct) req w) as Hlog2.
    destruct (roundTrip (setUsed ct) req w) as [[[resp err] ct2] w2]. simpl in Hlog2.
    destruct err; rewrite ?andb_false_r; simpl; congruence.
Qed.

(** ** dialWithExtraRootCerts *)

(** C3 (amended): when the dial succeeds and the verification of the
    presented chain fails against the system roots and against the
    configured supplementary pool, [dialWithExtraRootCerts] closes the
    connection and returns the error of the second verification, the one
    against the supplementary pool. *)
Theorem dialWithExtraRootCerts_both_fail
    (network addr : string) (w : World) (conn : net_Conn) (e : Env)
    (serverCert : Certificate) (rest : list Certificate) (extra : CertPool)
    (systemErr extraErr : error) :
  tls_DialWithDialer network addr (net_SplitHostPort addr) (env w) = (inl conn, e) ->
  PeerCertificates conn e = serverCert :: rest ->
  Verify serverCert
    {| Intermediates := certPoolWith rest; DNSName := net_SplitHostPort addr;
       Roots := None |} e = inr systemErr ->
  ExtraRootCerts (getConfig w) = Some extra ->
  Verify serverCert
    {| Intermediates := certPoolWith rest; DNSName := net_SplitHostPort addr;
       Roots := Some extra |} e = inr extraErr ->
  dialWithExtraRootCerts network addr w =
    Ret ((None, Some extraErr),
         {| log := log w;
            calls := CloseCall conn :: DialCall network addr :: calls w;
            getConfig := getConfig w;
            env := Conn_Close conn e |}).
Proof.
  intros Hdial Hcerts Hsystem Hconf Hextra.
  unfold dialWithExtraRootCerts. rewrite Hdial. simpl.
  rewrite Hcerts, Hsystem, Hconf, Hextra. reflexivity.
Qed.

End ConnProperties.

Example redial_without_function :
  redial usedTransport 0%nat testWorld
  = (Some (errors_New "no redial function provided"), usedTransport, testWorld).
Proof. reflexivity. Qed.

(** C4, at a failing input: the session is used, the request is a POST with
    a body (not replayable), there is no redial function and the "redial"
    log category is on.  The proactive redial fails, nothing is logged, and
    the request is written to the existing connection. *)
Theorem RoundTrip_proactive_redial_failure_unlogged :
  used usedTransport = true /\
  requestIsReplayable (postRequest 0%nat) = false /\
  Verbose (getConfig testWorld) !! "redial" = Some true /\
  (redial usedTransport (http.Ctx (postRequest 0%nat)) testWorld).1.1
    = Some (errors_New "no redial function provided") /\
  log (RoundTrip usedTransport (postRequest 0%nat) testWorld).2 = [] /\
  calls (RoundTrip usedTransport (postRequest 0%nat) testWorld).2
    = [@ReadResponseCall testNet (postRequest 0%nat);
       @WriteCall testNet 0%nat (postRequest 0%nat)].
Proof. repeat split; vm_compute; reflexivity. Qed.

(** The sibling path does report it: a replayable GET on the same transport
    fails with [io.EOF], the reactive redial fails, and that failure is
    logged. *)
Example RoundTrip_reactive_redial_failure_logged :
  log (RoundTrip usedTransport (getRequest 0%nat) testWorld).2
  = [{| format := "Error redialing connection to %s: %v";
        args := ["example.com"; "no redial function provided"] |}].
Proof. vm_compute. reflexivity. Qed.

(** A canceled request: nothing is written, the cancellation error comes
    back. *)
Example roundTrip_canceled_example :
  roundTrip usedTransport (getRequest 1%nat) testWorld
  = ((None, Some context_Canceled), usedTransport, testWorld).
Proof. reflexivity. Qed.

(** A live transport on connection [1], and the body of the response it
    returns: reading it after the context has been canceled fails at once,
    although the read underneath would block. *)
Example bodyWithContext_Read_example :
  Read (H := testNet) (bodyWithContext (connBody 2) 1%nat) 512 0%nat
  = (returns 0 (Some context_Canceled), 0%nat) /\
  Read (H := testNet) (connBody 2) 512 0%nat = (blocks, 0%nat).
Proof. split; reflexivity. Qed.

Example dialWithExtraRootCerts_example :
  dialWithExtraRootCerts "tcp" "intranet.example:443" testWorld =
  Ret ((None, Some (errors_New "x509: certificate has expired or is not yet valid")),
       @Build_World testNet []
         [@CloseCall testNet 1%nat; @DialCall testNet "tcp" "intranet.example:443"]
         testConfig 0%nat).
Proof. reflexivity. Qed.

Lemma dialWithExtraRootCerts_both_fail_witness :
  dialWithExtraRootCerts "tcp" "intranet.example:443" testWorld =
  Ret ((None, Some (errors_New "x509: certificate has expired or is not yet valid")),
       @Build_World testNet []
         [@CloseCall testNet 1%nat; @DialCall testNet "tcp" "intranet.example:443"]
         testConfig 0%nat).
Proof.
  apply (@dialWithExtraRootCerts_both_fail testNet "tcp" "intranet.example:443" testWorld
           1%nat 0%nat "leaf" ["intermediate"] ["private-ca"]
           (errors_New "x509: certificate signed by unknown authority")
           (errors_New "x509: certificate has expired or is not yet valid"));
    reflexivity.
Defined.

(** C3, as stated, fails: the chain is rejected by the system roots as
    signed by an unknown authority and by the supplementary pool as expired;
    the error returned is the second one, not the original one. *)
Lemma dialWithExtraRootCerts_returns_second_error :
  let systemErr := errors_New "x509: certificate signed by unknown authority" in
  let opts roots :=
    {| Intermediates := ["intermediate"]; DNSName := "intranet.example"; Roots := roots |} in
  Verify (Network := testNet) "leaf" (opts None) 0%nat = inr systemErr /\
  ExtraRootCerts testConfig = Some ["private-ca"] /\
  (exists extraErr, Verify (Network := testNet) "leaf" (opts (Some ["private-ca"])) 0%nat
                    = inr extraErr) /\
  forall r w', dialWithExtraRootCerts "tcp" "intranet.example:443" testWorld = Ret (r, w') ->
               r.2 <> Some systemErr.
Proof.
  repeat split; [eexists; reflexivity|].
  intros r w'. rewrite dialWithExtraRootCerts_example.
  intros [= <- _]. simpl. discriminate.
Qed.

Lemma roundTrip_cancellation_witness :
  roundTrip usedTransport (getRequest 1%nat) testWorld
  = ((None, Some context_Canceled), usedTransport, testWorld) /\
  exists inner,
    Body {| StatusCode := 200; Body := bodyWithContext (connBody 1) 3%nat |}
    = bodyWithContext inner (http.Ctx (getRequest 3%nat)) /\
    (forall plen e err,
       ctx_Err (Network := testNet) (http.Ctx (getRequest 3%nat)) e = Some err ->
       Read (H := testNet)
         (Body {| StatusCode := 200; Body := bodyWithContext (connBody 1) 3%nat |}) plen e
       = (returns 0 (Some err), e)) /\
    (forall plen e,
       ctx_Err (Network := testNet) (http.Ctx (getRequest 3%nat)) e = None ->
       Read (H := testNet)
         (Body {| StatusCode := 200; Body := bodyWithContext (connBody 1) 3%nat |}) plen e
       = Read (H := testNet) inner plen e).
Proof.
  split.
  - apply (proj1 (@roundTrip_cancellation testNet usedTransport (getRequest 1%nat) testWorld)).
    reflexivity.
  - apply (proj2 (@roundTrip_cancellation testNet liveTransport (getRequest 3%nat) testWorld)).
    reflexivity.
Defined.

(** C6, as stated, fails for a read that is blocked when the signal is set.
    The request's context is canceled at tick 2.  [roundTrip] returns at tick
    1 with a response; a read of its body begins at tick 1, while the context
    is not done, and waits in the body underneath; when that one returns, at
    tick 2, the context is done, and the read returns the 512 bytes, not the
    cancellation error. *)
Lemma bodyWithContext_Read_in_progress :
  let req := getRequest 3%nat in
  let resp := {| StatusCode := 200; Body := bodyWithContext (connBody 1) 3%nat |} in
  (roundTrip liveTransport req testWorld).1.1 = (Some resp, None) /\
  env (roundTrip liveTransport req testWorld).2 = 1%nat /\
  ctx_Err (Network := testNet) (http.Ctx req) 1%nat = None /\
  Read (H := testNet) (Body resp) 512 1%nat = (returns 512 None, 2%nat) /\
  ctx_Err (Network := testNet) (http.Ctx req) 2%nat = Some context_Canceled /\
  (Read (H := testNet) (Body resp) 512 1%nat).1 <> returns 0 (Some context_Canceled).
Proof. repeat split. discriminate. Qed.

(** A read that begins after the signal is set does abort, and so does one
    on a body whose reads would block. *)
Example roundTrip_then_canceled :
  Read (H := testNet) (bodyWithContext (connBody 1) 3%nat) 512 2%nat
  = (returns 0 (Some context_Canceled), 2%nat) /\
  Read (H := testNet) (connBody 2) 512 2%nat = (blocks, 2%nat) /\
  Read (H := testNet) (bodyWithContext (connBody 2) 3%nat) 512 2%nat
  = (returns 0 (Some context_Canceled), 2%nat).
Proof. repeat split. Qed.

Example redial_success :
  redial redialingTransport 0%nat testWorld
  = (None,
     @Build_connTransport testNet 2%nat (Redial redialingTransport) (Some 2%nat) true,
     @Build_World testNet [] [@CloseCall testNet 0%nat; @RedialCall testNet] testConfig 0%nat).
Proof. reflexivity. Qed.

Example redial_failure :
  redial failingRedialTransport 0%nat testWorld
  = (Some (errors_New "dial tcp: connection refused"), failingRedialTransport,
     @Build_World testNet [] [@RedialCall testNet] testConfig 0%nat).
Proof. reflexivity. Qed.

(** Scenario 3 of the specification: a GET whose first exchange ends in
    [io.EOF] is retried once on the redialed connection. *)
Example RoundTrip_scenario3 :
  (RoundTrip redialingTransport (getRequest 0%nat) testWorld).1.1
  = (Some {| StatusCode := 200; Body := bodyWithContext (connBody 2) 0%nat |}, None) /\
  calls (RoundTrip redialingTransport (getRequest 0%nat) testWorld).2
  = [@ReadResponseCall testNet (getRequest 0%nat);
     @WriteCall testNet 2%nat (getRequest 0%nat);
     @CloseCall testNet 0%nat; @RedialCall testNet;
     @ReadResponseCall testNet (getRequest 0%nat);
     @WriteCall testNet 0%nat (getRequest 0%nat)].
Proof. split; vm_compute; reflexivity. Qed.

(** * Running the matcher *)

Example MatchingRules_sub :
  MatchingRules (H := literalPatterns) (loadRules [subRule]) (httpURL "example.com" "/sub")
  = Ret {[subRule := 1]}.
Proof. by_evaluation. Qed.


Example MatchingRules_subpath :
  MatchingRules (H := literalPatterns) (loadRules [subRule]) (httpURL "example.com" "/subpath")
  = Ret ∅.
Proof. by_evaluation. Qed.

Example MatchingRules_trailing_dot :
  MatchingRules (H := literalPatterns) (loadRules []) (httpURL "sub.bad.com." "")
  = Panic "slice bounds out of range".
Proof. by_evaluation. Qed.

Example MatchingRules_scenario1 :
  MatchingRules (H := literalPatterns)
    (loadRules [ plainRule hostRegex "ads."; plainRule urlMatch "example.com/login" ])
    (httpURL "ads.example.com" "/login")
  = Ret {[ plainRule hostRegex "ads." := 1;
           plainRule urlMatch "example.com/login" := 1 ]}.
Proof. by_evaluation. Qed.

(** * Facts about Go strings *)

Section StringFacts.

Implicit Types (s a b sub : string) (c d : ascii).

Lemma str_app_nil_l s : "" +:+ s = s.
Proof. reflexivity. Qed.

Lemma str_app_cons c a b : String c a +:+ b = String c (a +:+ b).
Proof. reflexivity. Qed.

Lemma str_app_nil_r s : s +:+ "" = s.
Proof. induction s as [|c s IH]; [done|]. by rewrite str_app_cons, IH. Qed.

Lemma str_app_assoc a b s : (a +:+ b) +:+ s = a +:+ (b +:+ s).
Proof. induction a as [|c a IH]; [done|]. by rewrite !str_app_cons, IH. Qed.

Lemma str_length_app a b : String.length (a +:+ b) = (String.length a + String.length b)%nat.
Proof. induction a as [|c a IH]; [done|]. rewrite str_app_cons. simpl. by rewrite IH. Qed.

Lemma length_zero s : String.length s = 0%nat -> s = "".
Proof. by destruct s. Qed.

(** Lower-casing works on each side of an ASCII byte separately. *)
Lemma lowerRuns_ascii (f : string -> string) pending a c b :
  isASCII c = true ->
  lowerRuns f pending (a +:+ String c b)
  = lowerRuns f pending a +:+ String (lowerByte c) (lowerRuns f "" b).
Proof.
  intros Hc. revert pending. induction a as [|d a IH]; intros pending.
  - rewrite str_app_nil_l. cbn [lowerRuns]. by rewrite Hc.
  - rewrite str_app_cons. cbn [lowerRuns]. destruct (isASCII d); [|apply IH].
    by rewrite IH, str_app_assoc, str_app_cons.
Qed.

Lemma app_nil_inv a b : a +:+ b = "" -> a = "" /\ b = "".
Proof. by destruct a. Qed.

Lemma rev_app_spec s1 s2 : String.rev_app s1 s2 = String.rev s1 +:+ s2.
Proof.
  revert s2. induction s1 as [|c s1 IH]; intros s2; [done|].
  unfold String.rev. cbn [String.rev_app]. rewrite (IH (String c s2)), (IH (String c "")).
  by rewrite str_app_assoc.
Qed.

Lemma rev_cons c s : String.rev (String c s) = String.rev s +:+ String c "".
Proof. unfold String.rev at 1. cbn [String.rev_app]. apply rev_app_spec. Qed.

Lemma rev_nil_inv s : String.rev s = "" -> s = "".
Proof.
  destruct s as [|c s]; [done|]. rewrite rev_cons. intros Hrev.
  by apply app_nil_inv in Hrev as [_ [=]].
Qed.

Lemma takeBytes_app a b : takeBytes (String.length a) (a +:+ b) = a.
Proof. induction a as [|c a IH]; [by destruct b|]. rewrite str_app_cons. simpl. by rewrite IH. Qed.

Lemma dropBytes_app a b : dropBytes (String.length a) (a +:+ b) = b.
Proof. induction a as [|c a IH]; [by destruct b|]. by rewrite str_app_cons. Qed.

Lemma takeBytes_length n s :
  (n <= String.length s)%nat -> String.length (takeBytes n s) = n.
Proof.
  revert s. induction n as [|n IH]; intros [|c s] Hn; simpl in *; try done; try lia.
  rewrite IH; lia.
Qed.

Lemma take_drop n s : takeBytes n s +:+ dropBytes n s = s.
Proof.
  revert s. induction n as [|n IH]; intros [|c s]; try done.
  simpl. by rewrite str_app_cons, IH.
Qed.

Lemma dropBytes_length n s :
  String.length (dropBytes n s) = (String.length s - n)%nat.
Proof.
  revert s. induction n as [|n IH]; intros [|c s]; simpl; try done.
Qed.

Lemma HasPrefix_nil s : HasPrefix s "" = true.
Proof. by destruct s. Qed.

Lemma HasPrefix_refl s : HasPrefix s s = true.
Proof. induction s as [|c s IH]; [done|]. simpl. by rewrite Ascii.eqb_refl. Qed.

Lemma HasPrefix_app a b : HasPrefix (a +:+ b) a = true.
Proof.
  induction a as [|c a IH]; [apply HasPrefix_nil|].
  rewrite str_app_cons. simpl. by rewrite Ascii.eqb_refl.
Qed.

Lemma HasPrefix_split s sub : HasPrefix s sub = true -> exists b, s = sub +:+ b.
Proof.
  revert s. induction sub as [|p sub IH]; intros s Hp.
  - by exists s.
  - destruct s as [|c s]; [done|]. simpl in Hp.
    destruct (Ascii.eqb c p) eqn:Hc; [|done].
    apply Ascii.eqb_eq in Hc as ->. destruct (IH s Hp) as [b ->]. by exists b.
Qed.

(** *** Occurrences *)

Lemma indexNat_unfold s sub :
  indexNat s sub =
  if HasPrefix s sub then Some 0%nat
  else match s with
       | EmptyString => None
       | String _ s' => S <$> indexNat s' sub
       end.
Proof. by destruct s. Qed.

Lemma indexNat_split s sub i :
  indexNat s sub = Some i ->
  exists a b, s = a +:+ sub +:+ b /\ String.length a = i.
Proof.
  revert i. induction s as [|c s IH]; intros i; rewrite indexNat_unfold.
  - destruct (HasPrefix "" sub) eqn:Hp; [|done]. intros [= <-].
    destruct (HasPrefix_split _ _ Hp) as [b Hb]. by exists "", b.
  - destruct (HasPrefix (String c s) sub) eqn:Hp.
    + intros [= <-]. destruct (HasPrefix_split _ _ Hp) as [b Hb]. by exists "", b.
    + destruct (indexNat s sub) as [j|]; [|done]. simpl. intros [= <-].
      destruct (IH j eq_refl) as (a & b & -> & <-). by exists (String c a), b.
Qed.

Lemma indexNat_app a sub b : is_Some (indexNat (a +:+ sub +:+ b) sub).
Proof.
  induction a as [|c a IH].
  - rewrite str_app_nil_l, indexNat_unfold, HasPrefix_app. eauto.
  - rewrite str_app_cons, indexNat_unfold. destruct (HasPrefix _ _); [eauto|].
    destruct IH as [i ->]. simpl. eauto.
Qed.

Lemma Contains_true s sub :
  Contains s sub = true <-> exists a b, s = a +:+ sub +:+ b.
Proof.
  unfold Contains, Index. split.
  - destruct (indexNat s sub) as [i|] eqn:Hi; [|done]. intros _.
    destruct (indexNat_split _ _ _ Hi) as (a & b & -> & _). eauto.
  - intros (a & b & ->). destruct (indexNat_app a sub b) as [i ->].
    apply Z.leb_le. lia.
Qed.

Lemma Contains_false s sub :
  Contains s sub = false <-> indexNat s sub = None.
Proof.
  unfold Contains, Index. destruct (indexNat s sub); split; try done.
  intros Hneg%Z.leb_gt. lia.
Qed.

Lemma Contains_app_l a b sub : Contains a sub = true -> Contains (a +:+ b) sub = true.
Proof.
  rewrite !Contains_true. intros (x & y & ->). exists x, (y +:+ b).
  by rewrite !str_app_assoc.
Qed.

Lemma Contains_app_r a b sub : Contains b sub = true -> Contains (a +:+ b) sub = true.
Proof.
  rewrite !Contains_true. intros (x & y & ->). exists (a +:+ x), y.
  by rewrite !str_app_assoc.
Qed.

(** *** Single bytes *)

Lemma HasPrefix_byte c d s : HasPrefix (String d s) (String c "") = Ascii.eqb d c.
Proof. simpl. destruct (Ascii.eqb d c); [apply HasPrefix_nil|done]. Qed.

Lemma Contains_byte_nil c : Contains "" (String c "") = false.
Proof. reflexivity. Qed.

Lemma Contains_byte_cons c d s :
  Contains (String d s) (String c "") = Ascii.eqb d c || Contains s (String c "").
Proof.
  unfold Contains, Index. cbn [indexNat]. rewrite HasPrefix_byte.
  destruct (Ascii.eqb d c); [done|].
  destruct (indexNat s (String c "")) as [i|]; simpl; [|done].
  transitivity true; [|symmetry]; apply Z.leb_le; lia.
Qed.

Lemma Contains_byte_app c a b :
  Contains (a +:+ b) (String c "") = Contains a (String c "") || Contains b (String c "").
Proof.
  induction a as [|d a IH]; [done|].
  rewrite str_app_cons, !Contains_byte_cons, IH. by rewrite orb_assoc.
Qed.

Lemma lastIndexNat_byte_cons c d s :
  lastIndexNat (String d s) (String c "") =
  match lastIndexNat s (String c "") with
  | Some i => Some (S i)
  | None => if Ascii.eqb d c then Some 0%nat else None
  end.
Proof. cbn [lastIndexNat]. by rewrite HasPrefix_byte. Qed.

Lemma lastIndexNat_byte_none c s :
  lastIndexNat s (String c "") = None <-> Contains s (String c "") = false.
Proof.
  induction s as [|d s IH]; [done|].
  rewrite lastIndexNat_byte_cons, Contains_byte_cons.
  destruct (lastIndexNat s (String c "")) as [i|].
  - split; [done|]. intros [_ Hs]%orb_false_iff. apply IH in Hs. done.
  - destruct (Ascii.eqb d c); [done|]. simpl. split; [|done]. intros _. by apply IH.
Qed.


Lemma lastIndexNat_byte_lt c s i :
  lastIndexNat s (String c "") = Some i -> (i < String.length s)%nat.
Proof.
  revert i. induction s as [|d s IH]; intros i; [done|].
  rewrite lastIndexNat_byte_cons.
  destruct (lastIndexNat s (String c "")) as [j|].
  - intros [= <-]. specialize (IH j eq_refl). simpl. lia.
  - destruct (Ascii.eqb d c); [|done]. intros [= <-]. simpl. lia.
Qed.

Lemma indexNat_byte_cons c d s :
  indexNat (String d s) (String c "") =
  if Ascii.eqb d c then Some 0%nat else S <$> indexNat s (String c "").
Proof. cbn [indexNat]. by rewrite HasPrefix_byte. Qed.

Lemma indexNat_byte_app c a b :
  Contains a (String c "") = false ->
  indexNat (a +:+ String c b) (String c "") = Some (String.length a).
Proof.
  induction a as [|d a IH]; intros Ha.
  - by rewrite str_app_nil_l, indexNat_byte_cons, Ascii.eqb_refl.
  - rewrite Contains_byte_cons in Ha. apply orb_false_iff in Ha as [Hd Ha].
    by rewrite str_app_cons, indexNat_byte_cons, Hd, IH.
Qed.

Lemma indexNat_byte_lt c s i :
  indexNat s (String c "") = Some i -> (i < String.length s)%nat.
Proof.
  revert i. induction s as [|d s IH]; intros i; [done|].
  rewrite indexNat_byte_cons. destruct (Ascii.eqb d c).
  - intros [= <-]. simpl. lia.
  - destruct (indexNat s (String c "")) as [j|]; [|done].
    intros [= <-]. specialize (IH j eq_refl). simpl. lia.
Qed.

End StringFacts.

(** * Properties of the URL matcher *)

(** ** The port suffix *)

(** ** Lower case *)

Section LowerFacts.

Context `{Patterns}.

Implicit Types (s a b pending : string) (c d : ascii).

Lemma ToLower_empty : ToLower "" = "".
Proof. reflexivity. Qed.

(** [strings.ToLower] works on each side of an ASCII byte separately. *)
Lemma ToLower_ascii a c b :
  isASCII c = true -> ToLower (a +:+ String c b) = ToLower a +:+ String (lowerByte c) (ToLower b).
Proof. apply lowerRuns_ascii. Qed.

Lemma ToLower_ascii_cons c s :
  isASCII c = true -> ToLower (String c s) = String (lowerByte c) (ToLower s).
Proof. intros Hc. by rewrite <- (str_app_nil_l (String c s)), ToLower_ascii. Qed.




Lemma flushRun_nonempty pending :
  pending <> "" -> flushRun strings_ToLower pending <> "".
Proof.
  destruct pending as [|c pending]; [done|]. intros _ Hflush.
  by apply strings_ToLower_empty, rev_nil_inv in Hflush.
Qed.

Lemma lowerRuns_nonempty pending s :
  pending <> "" \/ s <> "" -> lowerRuns strings_ToLower pending s <> "".
Proof.
  revert pending. induction s as [|c s IH]; intros pending Hne.
  - apply flushRun_nonempty. by destruct Hne.
  - cbn [lowerRuns]. destruct (isASCII c).
    + by intros [_ [=]]%app_nil_inv.
    + apply IH. by left.
Qed.

Lemma ToLower_slash s : HasPrefix s "/" = true -> exists q, ToLower s = String "/" q.
Proof.
  destruct s as [|c s]; [done|]. rewrite HasPrefix_byte. intros ->%Ascii.eqb_eq.
  rewrite ToLower_ascii_cons by done. by eexists.
Qed.

(** Only the empty string has an empty lower case. *)
Lemma ToLower_nil s : ToLower s = "" <-> s = "".
Proof.
  split; [|by intros ->]. intros Hlower.
  destruct (decide (s = "")) as [|Hne]; [done|].
  exfalso. apply (lowerRuns_nonempty "" s); [by right|done].
Qed.







End LowerFacts.

Section PortFacts.

Context `{Patterns}.

Implicit Types (s a b h port : string) (c d : ascii).


Lemma HasSuffix_split s suffix :
  HasSuffix s suffix = true <-> exists a, s = a +:+ suffix.
Proof.
  unfold HasSuffix. split.
  - intros [Hlen Hpre]%andb_true_iff. apply Nat.leb_le in Hlen.
    destruct (HasPrefix_split _ _ Hpre) as [b Hb].
    assert (b = "") as ->.
    { apply length_zero. apply (f_equal String.length) in Hb.
      rewrite dropBytes_length, str_length_app in Hb. lia. }
    rewrite str_app_nil_r in Hb.
    exists (takeBytes (String.length s - String.length suffix) s).
    rewrite <- (take_drop (String.length s - String.length suffix) s) at 1.
    by rewrite Hb.
  - intros [a ->]. rewrite str_length_app. apply andb_true_iff. split.
    + apply Nat.leb_le. lia.
    + replace (String.length a + String.length suffix - String.length suffix)%nat
        with (String.length a) by lia.
      rewrite dropBytes_app. apply HasPrefix_refl.
Qed.

Lemma sliceTo_app a b : sliceTo (a +:+ b) (len a) = Ret a.
Proof.
  unfold sliceTo, len. rewrite str_length_app.
  replace (_ && _) with true by (symmetry; apply andb_true_iff; split; apply Z.leb_le; lia).
  by rewrite Nat2Z.id, takeBytes_app.
Qed.

Lemma sliceFrom_app a b : sliceFrom (a +:+ b) (len a) = Ret b.
Proof.
  unfold sliceFrom, len. rewrite str_length_app.
  replace (_ && _) with true by (symmetry; apply andb_true_iff; split; apply Z.leb_le; lia).
  by rewrite Nat2Z.id, dropBytes_app.
Qed.

Lemma sliceFrom_le s (i : nat) :
  (i <= String.length s)%nat -> sliceFrom s (Z.of_nat i) = Ret (dropBytes i s).
Proof.
  intros Hi. unfold sliceFrom, len.
  replace (_ && _) with true by (symmetry; apply andb_true_iff; split; apply Z.leb_le; lia).
  by rewrite Nat2Z.id.
Qed.

Lemma sliceTo_le s (i : nat) :
  (i <= String.length s)%nat -> sliceTo s (Z.of_nat i) = Ret (takeBytes i s).
Proof.
  intros Hi. unfold sliceTo, len.
  replace (_ && _) with true by (symmetry; apply andb_true_iff; split; apply Z.leb_le; lia).
  by rewrite Nat2Z.id.
Qed.

(** A host without a colon is left alone. *)
Lemma stripPort_no_colon h : Contains h ":" = false -> stripPort h = Ret h.
Proof.
  intros Hno%lastIndexNat_byte_none. unfold stripPort, LastIndex. by rewrite Hno.
Qed.




End PortFacts.

Example stripPort_examples :
  stripPort "example.com:8080" = Ret "example.com" /\
  stripPort "[2001:db8::1]:8080" = Ret "[2001:db8::1]" /\
  stripPort "[2001:db8::1]" = Ret "[2001:db8::1]" /\
  stripPort "example.com" = Ret "example.com".
Proof. repeat split. Qed.

(** ** Tallies *)

Lemma markAll_app (ks1 ks2 : list rule) (tally : Tally) :
  markAll (ks1 ++ ks2) tally = markAll ks2 (markAll ks1 tally).
Proof. apply foldl_app. Qed.

Lemma lookup_markAll (ks : list rule) (tally : Tally) (k : rule) :
  markAll ks tally !! k = if decide (k ∈ ks) then Some 1 else tally !! k.
Proof.
  revert tally. induction ks as [|k0 ks IH]; intros tally.
  - destruct (decide (k ∈ [])) as [Hin|_]; [|done]. by apply elem_of_nil in Hin.
  - change (markAll (k0 :: ks) tally) with (markAll ks (<[k0:=1]> tally)).
    rewrite IH. destruct (decide (k ∈ ks)) as [Hin|Hnin].
    + destruct (decide (k ∈ k0 :: ks)) as [_|Hno]; [done|]. set_solver.
    + destruct (decide (k = k0)) as [->|Hne].
      * destruct (decide (k0 ∈ k0 :: ks)) as [_|Hno]; [|set_solver].
        apply lookup_insert_eq.
      * destruct (decide (k ∈ k0 :: ks)) as [Hyes|_]; [set_solver|].
        by apply lookup_insert_ne.
Qed.

Lemma markAll_ext (ks1 ks2 : list rule) (tally : Tally) :
  (forall k, k ∈ ks1 <-> k ∈ ks2) -> markAll ks1 tally = markAll ks2 tally.
Proof.
  intros Hiff. apply map_eq. intros k. rewrite !lookup_markAll.
  destruct (decide (k ∈ ks1)) as [Hin|Hnin], (decide (k ∈ ks2)) as [Hin2|Hnin2];
    try done; exfalso; naive_solver.
Qed.

Section RegexMapFacts.

Context `{Patterns}.

Implicit Types (rm : regexMap) (x y : regexRule) (r k : rule) (p q s : string).

Lemma elem_of_matching l s k :
  k ∈ matching l s <-> exists x, x ∈ l /\ MatchString (re x) s = true /\ rule_ x = k.
Proof.
  unfold matching. rewrite list_elem_of_fmap. split.
  - intros (x & -> & Hx). apply list_elem_of_In, filter_In in Hx as [Hx Hm].
    exists x. by rewrite list_elem_of_In.
  - intros (x & Hx & Hm & <-). exists x. split; [done|].
    apply list_elem_of_In, filter_In. by rewrite <- list_elem_of_In.
Qed.

Lemma tallyRules_markAll l s (tally : Tally) :
  tallyRules l s tally = markAll (matching l s) tally.
Proof.
  revert tally. induction l as [|x l IH]; intros tally; [done|].
  unfold tallyRules, matching. simpl.
  destruct (MatchString (re x) s); simpl; apply IH.
Qed.

(** *** What [addRule] stores *)

Lemma bucket_appendRule rm p y q x :
  x ∈ bucket (appendRule rm p y) q <-> x ∈ bucket rm q \/ (q = p /\ x = y).
Proof.
  unfold appendRule, bucket. simpl. destruct (decide (q = p)) as [->|Hne].
  - rewrite lookup_insert_eq. simpl. rewrite elem_of_app, list_elem_of_singleton.
    naive_solver.
  - rewrite lookup_insert_ne by done. naive_solver.
Qed.

Lemma registerUnder_bucket y ss rm q x :
  x ∈ bucket (registerUnder y rm ss) q <-> x ∈ bucket rm q \/ (q ∈ ss /\ x = y).
Proof.
  revert rm. induction ss as [|p ss IH]; intros rm; simpl.
  - set_solver.
  - fold (registerUnder y
           (appendRule {| stringList := addPhrase p (stringList rm); rules := rules rm |} p y)
           ss).
    rewrite IH, bucket_appendRule. unfold bucket at 1. simpl. fold (bucket rm q).
    set_solver.
Qed.

Lemma registerUnder_stringList y ss rm p :
  p ∈ stringList (registerUnder y rm ss) <-> p ∈ stringList rm \/ p ∈ ss.
Proof.
  revert rm. induction ss as [|p0 ss IH]; intros rm; simpl.
  - set_solver.
  - fold (registerUnder y
           (appendRule {| stringList := addPhrase p0 (stringList rm); rules := rules rm |} p0 y)
           ss).
    rewrite IH. simpl. unfold addPhrase. set_solver.
Qed.

Lemma addRule_bucket rm r q x :
  x ∈ bucket (addRule rm r) q <->
  x ∈ bucket rm q \/
  (exists re0, Compile (content r) = Some re0 /\ x = {| rule_ := r; re := re0 |} /\
               filedUnder r q).
Proof.
  unfold addRule, filedUnder. destruct (Compile (content r)) as [re0|]; [|naive_solver].
  destruct (regexStrings (content r)) as [ss|].
  - destruct (minLen ss =? 0).
    + rewrite bucket_appendRule. naive_solver.
    + fold (registerUnder {| rule_ := r; re := re0 |} rm ss).
      rewrite registerUnder_bucket. naive_solver.
  - rewrite bucket_appendRule. naive_solver.
Qed.

Lemma addRule_stringList rm r p :
  p ∈ stringList rm -> p ∈ stringList (addRule rm r).
Proof.
  intros Hp. unfold addRule. destruct (Compile (content r)) as [re0|]; [|done].
  destruct (regexStrings (content r)) as [ss|]; [|done].
  destruct (minLen ss =? 0); [done|].
  fold (registerUnder {| rule_ := r; re := re0 |} rm ss).
  apply registerUnder_stringList. by left.
Qed.

Lemma addRule_registers rm r p ss :
  is_Some (Compile (content r)) -> regexStrings (content r) = Some ss ->
  (minLen ss =? 0) = false -> p ∈ ss -> p ∈ stringList (addRule rm r).
Proof.
  intros [re0 Hre] Hss Hmin Hp. unfold addRule. rewrite Hre, Hss, Hmin.
  fold (registerUnder {| rule_ := r; re := re0 |} rm ss).
  apply registerUnder_stringList. by right.
Qed.

Lemma regexMapOf_snoc rs r : regexMapOf (rs ++ [r]) = addRule (regexMapOf rs) r.
Proof. unfold regexMapOf. by rewrite foldl_app. Qed.

(** Every stored rule was added and carries its compiled pattern. *)
Lemma regexMapOf_stored rs q x :
  x ∈ bucket (regexMapOf rs) q ->
  rule_ x ∈ rs /\ Compile (content (rule_ x)) = Some (re x).
Proof.
  revert q x. induction rs as [|r rs IH] using rev_ind; intros q x.
  - unfold regexMapOf, bucket. simpl. rewrite lookup_empty. simpl. set_solver.
  - rewrite regexMapOf_snoc, addRule_bucket.
    intros [Hold|(re0 & Hre & -> & _)].
    + destruct (IH _ _ Hold). set_solver.
    + simpl. set_solver.
Qed.

(** Every added rule that compiles is stored in the no-literal bucket, or
    under each of its literals, all of which are registered phrases. *)
Lemma regexMapOf_added rs r re0 :
  r ∈ rs -> Compile (content r) = Some re0 ->
  {| rule_ := r; re := re0 |} ∈ bucket (regexMapOf rs) "" \/
  exists ss, regexStrings (content r) = Some ss /\ minLen ss <> 0 /\
    forall p, p ∈ ss ->
      p ∈ stringList (regexMapOf rs) /\ {| rule_ := r; re := re0 |} ∈ bucket (regexMapOf rs) p.
Proof.
  induction rs as [|r1 rs IH] using rev_ind; [set_solver|].
  rewrite elem_of_app, list_elem_of_singleton, regexMapOf_snoc.
  intros [Hin|Heq] Hre; [|subst r1].
  - destruct (IH Hin Hre) as [Hnil|(ss & Hss & Hmin & Hall)].
    + left. apply addRule_bucket. by left.
    + right. exists ss. split_and!; [done..|]. intros p Hp. destruct (Hall p Hp) as [H1 H2].
      split; [by apply addRule_stringList|]. apply addRule_bucket. by left.
  - destruct (regexStrings (content r)) as [ss|] eqn:Hss.
    + destruct (minLen ss =? 0) eqn:Hmin.
      * left. apply addRule_bucket. right. exists re0. unfold filedUnder.
        by rewrite Hss, Hmin.
      * right. exists ss. split_and!; [done|by apply Z.eqb_neq|]. intros p Hp. split.
        -- by apply (addRule_registers _ _ _ ss).
        -- apply addRule_bucket. right. exists re0. unfold filedUnder.
           by rewrite Hss, Hmin.
    + left. apply addRule_bucket. right. exists re0. unfold filedUnder. by rewrite Hss.
Qed.

End RegexMapFacts.

(** ** The scan of [findMatches] *)

Section ScanFacts.

Context `{Patterns}.

Implicit Types (rm : regexMap) (x y : regexRule) (r k : rule) (p q s : string).

Implicit Types (st : gmap string bool * Tally).

Lemma callback_tried rm s st p q :
  (forall p b, st.1 !! p = Some b -> b = true) ->
  (callback rm s st p).1 !! q = Some true <-> st.1 !! q = Some true \/ q = p.
Proof.
  intros Hall. unfold callback. destruct (st.1 !! p) as [b|] eqn:Hp; cbn [default].
  - rewrite (Hall p b Hp) in *. cbn [fst]. naive_solver.
  - cbn [fst]. destruct (decide (q = p)) as [->|Hne].
    + rewrite lookup_insert_eq. naive_solver.
    + rewrite lookup_insert_ne by done. naive_solver.
Qed.

Lemma callback_consistent rm s tally0 st p :
  consistent rm s tally0 st -> consistent rm s tally0 (callback rm s st p).
Proof.
  intros (Hall & ks & Htally & Hks). unfold callback.
  destruct (st.1 !! p) as [b|] eqn:Hp; cbn [default].
  - rewrite (Hall p b Hp). split; [done|]. by exists ks.
  - split; cbn [fst snd].
    + intros q b. destruct (decide (q = p)) as [->|Hne].
      * rewrite lookup_insert_eq. congruence.
      * rewrite lookup_insert_ne by done. apply Hall.
    + exists (ks ++ matching (bucket rm p) s). split.
      * by rewrite tallyRules_markAll, Htally, markAll_app.
      * intros k. rewrite elem_of_app, Hks, elem_of_matching. split.
        -- intros [(q & x & Hq & Hx)|(x & Hx)].
           ++ exists q, x. rewrite lookup_insert_ne by congruence. done.
           ++ exists p, x. by rewrite lookup_insert_eq.
        -- intros (q & x & Hq & Hx). destruct (decide (q = p)) as [->|Hne].
           ++ right. by exists x.
           ++ rewrite lookup_insert_ne in Hq by done. left. by exists q, x.
Qed.

Lemma callbacks rm s tally0 st (ps : list string) :
  consistent rm s tally0 st ->
  consistent rm s tally0 (foldl (callback rm s) st ps) /\
  forall q, (foldl (callback rm s) st ps).1 !! q = Some true <->
            st.1 !! q = Some true \/ q ∈ ps.
Proof.
  revert st. induction ps as [|p ps IH]; intros st Hst; simpl.
  - split; [done|]. set_solver.
  - destruct (IH _ (callback_consistent _ _ _ _ p Hst)) as [Hcons Htried].
    split; [done|]. intros q. rewrite Htried, callback_tried by apply Hst.
    set_solver.
Qed.

Lemma elem_of_scanByte (scanner : phraseScanner) c q :
  q ∈ (scanByte scanner c).2 <->
  q ∈ scanList scanner /\ HasSuffix (scanned scanner +:+ String c "") q = true.
Proof.
  unfold scanByte. simpl. rewrite list_elem_of_In, filter_In, <- list_elem_of_In.
  rewrite elem_of_elements. done.
Qed.

Lemma scanLoop_spec rm s tally0 rest (scanner : phraseScanner) st :
  consistent rm s tally0 st ->
  consistent rm s tally0 (scanLoop rm s rest scanner st) /\
  forall q, (scanLoop rm s rest scanner st).1 !! q = Some true <->
            st.1 !! q = Some true \/ reportedIn (scanList scanner) (scanned scanner) rest q.
Proof.
  revert scanner st. induction rest as [|c rest IH]; intros scanner st Hst.
  - simpl. split; [done|]. intros q. split; [by left|].
    intros [Hq|(_ & t1 & t2 & Heq & Hne & _)]; [done|].
    destruct t1; [done|discriminate].
  - cbn [scanLoop]. destruct (scanByte scanner c) as [scanner' reported] eqn:Hscan.
    pose proof (elem_of_scanByte scanner c) as Hreported. rewrite Hscan in Hreported.
    assert (scanList scanner' = scanList scanner /\
            scanned scanner' = scanned scanner +:+ String c "") as [Hlist Htext].
    { unfold scanByte in Hscan. by injection Hscan as <- _. }
    destruct (callbacks rm s tally0 st reported Hst) as [Hcons Htried].
    destruct (IH scanner' _ Hcons) as [Hcons' Htried'].
    split; [done|]. intros q. rewrite Htried', Htried, Hreported.
    unfold reportedIn. rewrite Hlist, Htext. simpl. split.
    + intros [[Hq|[Hq Hsuf]]|(Hq & t1 & t2 & -> & Hne & Hsuf)].
      * by left.
      * right. split; [done|]. exists (String c ""), rest. done.
      * right. split; [done|]. exists (String c t1), t2. split; [done|]. split; [done|].
        by rewrite str_app_assoc in Hsuf.
    + intros [Hq|(Hq & t1 & t2 & Heq & Hne & Hsuf)]; [by left; left|].
      destruct t1 as [|c1 t1]; [done|]. rewrite str_app_cons in Heq.
      injection Heq as <- ->. destruct t1 as [|c2 t1].
      * left. right. done.
      * right. split; [done|]. exists (String c2 t1), t2. split; [done|]. split; [done|].
        by rewrite str_app_assoc.
Qed.

(** [findMatches] marks exactly the matching rules of the no-literal bucket
    and of the buckets of the registered phrases that end somewhere in [s]. *)
Lemma findMatches_markAll rm s (tally : Tally) :
  exists ks, findMatches rm s tally = markAll ks tally /\
    forall k, k ∈ ks <->
      exists p x, (p = "" \/ reportedIn (stringList rm) "" s p) /\
                  x ∈ bucket rm p /\ MatchString (re x) s = true /\ rule_ x = k.
Proof.
  unfold findMatches.
  assert (consistent rm s tally (∅, tally)) as Hinit.
  { split; [intros p b; simpl; by rewrite lookup_empty|].
    exists []. split; [done|]. intros k. split; [set_solver|].
    intros (p & x & Hp & _). simpl in Hp. by rewrite lookup_empty in Hp. }
  destruct (scanLoop_spec rm s tally s (newPhraseScanner (stringList rm)) _ Hinit)
    as [(_ & ks & Htally & Hks) Htried].
  simpl in Htried.
  exists (ks ++ matching (bucket rm "") s). split.
  - by rewrite tallyRules_markAll, Htally, markAll_app.
  - intros k. rewrite elem_of_app, Hks, elem_of_matching. split.
    + intros [(p & x & Hp & Hx)|(x & Hx)].
      * exists p, x. split; [|done]. right. apply Htried in Hp as [Hp|Hp]; [|done].
        by rewrite lookup_empty in Hp.
      * exists "", x. split; [by left|done].
    + intros (p & x & [->|Hp] & Hx).
      * right. by exists x.
      * left. exists p, x. split; [|done]. apply Htried. by right.
Qed.

(** A registered non-empty phrase that occurs in [s] ends somewhere in it. *)
Lemma Contains_reportedIn (l : phraseList) s p :
  p ∈ l -> p <> "" -> Contains s p = true -> reportedIn l "" s p.
Proof.
  intros Hp Hne (a & b & ->)%Contains_true. split; [done|].
  exists (a +:+ p), b. split; [by rewrite str_app_assoc|]. split.
  - destruct a; [by rewrite str_app_nil_l|by rewrite str_app_cons].
  - rewrite str_app_nil_l. apply HasSuffix_split. by exists a.
Qed.

End ScanFacts.

(** ** Pruning by literals *)

Section Pruning.

Context `{Patterns}.

Lemma naiveMatches_markAll (rs : list rule) (s : string) (tally : Tally) :
  exists ks, naiveMatches rs s tally = markAll ks tally /\
    forall k, k ∈ ks <->
      k ∈ rs /\ exists re0, Compile (content k) = Some re0 /\ MatchString re0 s = true.
Proof.
  induction rs as [|r rs IH] using rev_ind.
  - exists []. split; [done|]. set_solver.
  - destruct IH as (ks & Heq & Hks). unfold naiveMatches in *. rewrite foldl_app, Heq.
    cbn [foldl]. destruct (Compile (content r)) as [re0|] eqn:Hre;
      [destruct (MatchString re0 s) eqn:Hm|].
    + exists (ks ++ [r]). split; [by rewrite markAll_app|].
      intros k. rewrite !elem_of_app, !list_elem_of_singleton, Hks. split.
      * intros [[Hin Hk]| ->]; [by auto|]. split; [by right|]. by exists re0.
      * intros [[Hin| ->] Hk]; [by left|by right].
    + exists ks. split; [done|].
      intros k. rewrite !elem_of_app, !list_elem_of_singleton, Hks. split.
      * intros [Hin Hk]. auto.
      * intros [[Hin| ->] Hk]; [done|]. destruct Hk as (re1 & Hre1 & Hm1). congruence.
    + exists ks. split; [done|].
      intros k. rewrite !elem_of_app, !list_elem_of_singleton, Hks. split.
      * intros [Hin Hk]. auto.
      * intros [[Hin| ->] Hk]; [done|]. destruct Hk as (re1 & Hre1 & Hm1). congruence.
Qed.

(** C2: for every text [s] and every list of rules added with [addRule],
    provided the literals that [regexStrings] extracts from a pattern are
    required by it on [s] whenever the shortest of them is not empty,
    [findMatches] produces the tally obtained by evaluating every rule whose
    pattern compiles individually on [s]. *)
Theorem findMatches_naive (rs : list rule) (s : string) (tally : Tally) :
  literalsRequired rs s ->
  findMatches (regexMapOf rs) s tally = naiveMatches rs s tally.
Proof.
  intros Hreq.
  destruct (findMatches_markAll (regexMapOf rs) s tally) as (ks1 & -> & Hks1).
  destruct (naiveMatches_markAll rs s tally) as (ks2 & -> & Hks2).
  apply markAll_ext. intros k. rewrite Hks1, Hks2. split.
  - intros (p & x & _ & Hx & Hm & <-).
    destruct (regexMapOf_stored rs p x Hx) as [Hin Hre]. split; [done|]. by exists (re x).
  - intros (Hin & re0 & Hre & Hm).
    destruct (regexMapOf_added rs k re0 Hin Hre) as [Hnil|(ss & Hss & Hmin & Hall)].
    + exists "", {| rule_ := k; re := re0 |}. split; [by left|done].
    + destruct (Hreq k re0 ss Hin Hre Hss Hmin Hm) as (p & Hp & Hocc).
      destruct (Hall p Hp) as [Hlist Hbucket].
      exists p, {| rule_ := k; re := re0 |}. split; [|done].
      destruct (decide (p = "")) as [->|Hne]; [by left|].
      right. by apply Contains_reportedIn.
Qed.

End Pruning.

Lemma findMatches_naive_witness :
  findMatches (H := literalPatterns) (regexMapOf adsRules) "ads.example.com" ∅
  = naiveMatches (H := literalPatterns) adsRules "ads.example.com" ∅.
Proof.
  apply (@findMatches_naive literalPatterns adsRules "ads.example.com" ∅).
  intros r re0 ss _ [= <-] [= <-] _ Hm. exists (content r). split; [set_solver|exact Hm].
Defined.

Example findMatches_example :
  findMatches (H := literalPatterns) (regexMapOf adsRules) "ads.example.com" ∅
  = {[ plainRule hostRegex "ads." := 1; plainRule hostRegex "" := 1 ]}.
Proof. by_evaluation. Qed.

(** ** The fragment walk *)

Section WalkFacts.

Implicit Types (frags : gmap string rule) (s a b path : string) (result : Tally).

Lemma pathLoop_keys fuel frags s2 result :
  pathLoop fuel frags s2 result =
  let* ks := pathKeys fuel s2 in Ret (tallyFragments frags ks result).
Proof.
  revert s2 result. induction fuel as [|fuel IH]; intros s2 result; [done|].
  cbn [pathLoop pathKeys]. destruct (sliceTo s2 (len s2 - 1)) as [front| |]; try done.
  cbn [run_bind]. destruct (LastIndex front "/" =? -1); [done|].
  destruct (sliceTo s2 (LastIndex front "/" + 1)) as [s2'| |]; try done.
  cbn [run_bind]. rewrite IH. by destruct (pathKeys fuel s2').
Qed.

Lemma tallyFragments_app frags ks1 ks2 result :
  tallyFragments frags (ks1 ++ ks2) result
  = tallyFragments frags ks2 (tallyFragments frags ks1 result).
Proof. apply foldl_app. Qed.

Lemma hostLoop_keys fuel frags s path result :
  hostLoop fuel frags s path result =
  let* ks := hostKeys fuel s path in Ret (tallyFragments frags ks result).
Proof.
  revert s result. induction fuel as [|fuel IH]; intros s result; [done|].
  cbn [hostLoop hostKeys]. rewrite pathLoop_keys.
  destruct (pathKeys _ (s +:+ path)) as [ks1| |]; try done.
  cbn [run_bind]. destruct (Index s "." =? -1).
  - cbn [run_bind]. by rewrite tallyFragments_app.
  - destruct (sliceFrom s (Index s "." + 1)) as [s'| |]; try done.
    cbn [run_bind]. rewrite IH. destruct (hostKeys fuel s' path) as [ks2| |]; try done.
    cbn [run_bind]. by rewrite tallyFragments_app.
Qed.

Lemma tallyFragment_lookup frags key result (r : rule) :
  tallyFragment frags key result !! r =
  if decide (frags !! key = Some r) then Some 1 else result !! r.
Proof.
  unfold tallyFragment. destruct (frags !! key) as [r0|] eqn:Hkey.
  - destruct (decide (Some r0 = Some r)) as [[= ->]|Hne].
    + apply lookup_insert_eq.
    + apply lookup_insert_ne. congruence.
  - by destruct (decide (None = Some r)).
Qed.

(** A rule stored under one of the candidates is in the tally. *)
Lemma tallyFragments_hit frags ks result key (r : rule) :
  key ∈ ks -> frags !! key = Some r -> tallyFragments frags ks result !! r = Some 1.
Proof.
  intros Hin Hkey. revert result.
  induction ks as [|k ks IH] using rev_ind; intros result; [by apply elem_of_nil in Hin|].
  rewrite tallyFragments_app. cbn [tallyFragments foldl]. rewrite tallyFragment_lookup.
  destruct (decide (frags !! k = Some r)) as [|Hne]; [done|].
  apply IH. apply elem_of_app in Hin as [Hin|Hin]; [done|].
  apply list_elem_of_singleton in Hin as ->. done.
Qed.


End WalkFacts.

(** ** The matcher as loaded from a list of rules *)

Section MatcherFacts.

Context `{Patterns}.

Implicit Types (m : URLMatcher) (rm : regexMap) (r : rule) (rs : list rule) (u : url.URL).

Lemma MatchingRules_unfold m u :
  MatchingRules m u =
  let* host := matchingHost u in
  let* keys := hostKeys (S (String.length host)) host (ToLower (url.Path u)) in
  Ret (tallyFragments (fragments m) keys (regexTally m u host)).
Proof.
  unfold MatchingRules, regexTally. destruct (matchingHost u) as [host| |]; try done.
  cbn [run_bind]. rewrite <- hostLoop_keys.
  destruct (negb (String.eqb host "")), (negb (String.eqb (ToLower (url.RawQuery u)) ""));
    reflexivity.
Qed.



Lemma loadRules_snoc rs r : loadRules (rs ++ [r]) = AddRule (loadRules rs) r.
Proof. unfold loadRules. by rewrite foldl_app. Qed.

(** Each tier holds the rules of its kind, and the fragment map the
    [urlMatch] rules, each under its content. *)
Lemma loadRules_parts rs :
  hostRegexes (loadRules rs) = regexMapOf (filter (fun r => t r = hostRegex) rs) /\
  pathRegexes (loadRules rs) = regexMapOf (filter (fun r => t r = pathRegex) rs) /\
  queryRegexes (loadRules rs) = regexMapOf (filter (fun r => t r = queryRegex) rs) /\
  regexes (loadRules rs) = regexMapOf (filter (fun r => t r = urlRegex) rs) /\
  forall key r, fragments (loadRules rs) !! key = Some r ->
                r ∈ rs /\ t r = urlMatch /\ content r = key.
Proof.
  induction rs as [|r0 rs (IH1 & IH2 & IH3 & IH4 & IH5)] using rev_ind.
  - split_and!; done.
  - rewrite loadRules_snoc, !filter_app. unfold AddRule.
    destruct (t r0) eqn:Ht; simpl;
      rewrite ?IH1, ?IH2, ?IH3, ?IH4;
      rewrite !filter_cons, !filter_nil, Ht; simpl;
      rewrite ?regexMapOf_snoc, ?app_nil_r;
      split_and!; try done;
      try (intros key r Hlook; destruct (IH5 key r Hlook) as (? & ? & ?); set_solver).
    intros key r. destruct (decide (key = content r0)) as [->|Hne].
    + rewrite lookup_insert_eq. intros [= ->]. set_solver.
    + rewrite lookup_insert_ne by done. intros Hlook.
      destruct (IH5 key r Hlook) as (? & ? & ?). set_solver.
Qed.


Lemma matchingHost_normal u :
  normalHost (url.Host u) -> matchingHost u = Ret (url.Host u).
Proof.
  intros (Hlower & Hcolon & Hace). unfold matchingHost.
  rewrite Hlower, stripPort_no_colon by done. cbn [run_bind].
  unfold decodeIDN. by rewrite Hace.
Qed.

End MatcherFacts.

(** ** Fragment rules with a path *)

Section FragmentPath.

Context `{Patterns}.

Lemma matchingHost_example (path : string) :
  matchingHost (httpURL "example.com" path) = Ret "example.com".
Proof. reflexivity. Qed.


Lemma hostKeys_sub_x :
  hostKeys 12 "example.com" "/sub/x"
  = Ret ["example.com/sub/x"; "example.com/sub/"; "example.com/"; "example.com";
         "com/sub/x"; "com/sub/"; "com/"; "com"].
Proof. by_evaluation. Qed.



(** The prefix that is looked up for [/sub/x] keeps its slash: a rule with
    content [example.com/sub/] is the one found. *)
Lemma fragment_sub_slash (m : URLMatcher) (r : rule) :
  fragments m !! "example.com/sub/" = Some r ->
  exists tally, MatchingRules m (httpURL "example.com" "/sub/x") = Ret tally /\
                tally !! r = Some 1.
Proof.
  intros Hreg. eexists. split.
  - rewrite MatchingRules_unfold, matchingHost_example. cbn [run_bind String.length].
    change (ToLower (url.Path (httpURL "example.com" "/sub/x"))) with "/sub/x".
    rewrite hostKeys_sub_x. reflexivity.
  - apply (tallyFragments_hit _ _ _ "example.com/sub/"); [set_solver|done].
Qed.

End FragmentPath.



(** ** Fragment rules on a parent domain *)

Section DomainWalk.

Implicit Types (s a b l h : string).

Lemma Contains_suffix_false a b sub :
  Contains (a +:+ b) sub = false -> Contains b sub = false.
Proof.
  intros Hno. destruct (Contains b sub) eqn:Hb; [|done].
  by rewrite (Contains_app_r a b sub Hb) in Hno.
Qed.


(** The first dot of a string that has one. *)
Lemma first_dot s :
  Contains s "." = true ->
  exists l s', s = l +:+ "." +:+ s' /\ Contains l "." = false.
Proof.
  induction s as [|c s IH]; [done|]. rewrite Contains_byte_cons.
  destruct (Ascii.eqb c ".") eqn:Hc.
  - apply Ascii.eqb_eq in Hc as ->. intros _. by exists "", s.
  - simpl. intros Hs. destruct (IH Hs) as (l & s' & -> & Hl).
    exists (String c l), s'. split; [done|]. by rewrite Contains_byte_cons, Hc, Hl.
Qed.

(** Any dot of [l.s'] is its first one, or a dot of [s']. *)
Lemma dot_split l s' a b :
  Contains l "." = false ->
  l +:+ "." +:+ s' = a +:+ "." +:+ b ->
  (a = l /\ b = s') \/ exists a', a = l +:+ "." +:+ a' /\ s' = a' +:+ "." +:+ b.
Proof.
  revert a. induction l as [|c l IH]; intros a Hl Heq.
  - destruct a as [|d a];
      repeat (rewrite str_app_cons in Heq || rewrite str_app_nil_l in Heq).
    + left. by injection Heq as <-.
    + right. injection Heq as <- ->. by exists a.
  - rewrite Contains_byte_cons in Hl. apply orb_false_iff in Hl as [Hc Hl].
    destruct a as [|d a];
      repeat (rewrite str_app_cons in Heq || rewrite str_app_nil_l in Heq).
    + injection Heq as -> _. by rewrite Ascii.eqb_refl in Hc.
    + injection Heq as <- Heq.
      destruct (IH a Hl) as [[-> ->]|(a' & -> & ->)]; [done|by left|].
      right. by exists a'.
Qed.

Lemma pathKeys_total fuel s2 :
  (String.length s2 < fuel)%nat -> s2 <> "" ->
  exists ks, pathKeys fuel s2 = Ret ks /\
             forall k, k ∈ ks -> (String.length k <= String.length s2)%nat.
Proof.
  revert s2. induction fuel as [|fuel IH]; intros s2 Hfuel Hne; [lia|].
  assert (0 < String.length s2)%nat as Hpos by (destruct s2; [done|simpl; lia]).
  cbn [pathKeys].
  replace (len s2 - 1) with (Z.of_nat (String.length s2 - 1)) by (unfold len; lia).
  rewrite sliceTo_le by lia. cbn [run_bind]. unfold LastIndex.
  destruct (lastIndexNat _ "/") as [i|] eqn:Hi.
  - apply lastIndexNat_byte_lt in Hi. rewrite takeBytes_length in Hi by lia.
    replace (Z.of_nat i =? -1) with false by (symmetry; apply Z.eqb_neq; lia).
    replace (Z.of_nat i + 1) with (Z.of_nat (S i)) by lia.
    rewrite sliceTo_le by lia. cbn [run_bind].
    destruct (IH (takeBytes (S i) s2)) as (ks & -> & Hks).
    + rewrite takeBytes_length; lia.
    + intros Hnil. apply (f_equal String.length) in Hnil.
      rewrite takeBytes_length in Hnil by lia. done.
    + cbn [run_bind]. eexists. split; [done|]. intros k [->|Hk]%elem_of_cons; [done|].
      specialize (Hks k Hk). rewrite takeBytes_length in Hks; lia.
  - cbn [Z.eqb]. eexists. split; [done|]. by intros k ->%list_elem_of_singleton.
Qed.


End DomainWalk.

(** ** Labels *)

Section LabelFacts.

Implicit Types (s a b cur sep : string) (c : ascii) (ls : list string).

Lemma splitGo_dot_cons c s cur :
  splitGo (String c s) "." 0 cur =
  if Ascii.eqb c "." then String.rev cur :: splitGo s "." 0 ""
  else splitGo s "." 0 (String c cur).
Proof. cbn [splitGo]. by rewrite HasPrefix_byte. Qed.


Lemma splitGo_app_dot a b cur :
  splitGo (a +:+ "." +:+ b) "." 0 cur = splitGo a "." 0 cur ++ splitGo b "." 0 "".
Proof.
  revert cur. induction a as [|c a IH]; intros cur.
  - rewrite str_app_nil_l. change ("." +:+ b) with (String "." b).
    by rewrite splitGo_dot_cons.
  - rewrite str_app_cons, !splitGo_dot_cons. destruct (Ascii.eqb c ".").
    + by rewrite IH.
    + apply IH.
Qed.

Lemma Join_cons a ls sep : ls <> [] -> Join (a :: ls) sep = a +:+ sep +:+ Join ls sep.
Proof. by destruct ls. Qed.




Lemma splitGo_piece s cur l :
  l ∈ splitGo s "." 0 cur -> exists x y, String.rev cur +:+ s = x +:+ l +:+ y.
Proof.
  revert cur. induction s as [|c s IH]; intros cur.
  - intros ->%list_elem_of_singleton. exists "", "". by rewrite str_app_nil_l.
  - rewrite splitGo_dot_cons. destruct (Ascii.eqb c ".") eqn:Hc.
    + apply Ascii.eqb_eq in Hc as ->. intros [->|Hin]%elem_of_cons.
      * exists "", (String "." s). by rewrite str_app_nil_l.
      * destruct (IH _ Hin) as (x & y & Heq). rewrite str_app_nil_l in Heq. subst s.
        exists (String.rev cur +:+ "." +:+ x), y. by rewrite !str_app_assoc.
    + intros Hin. destruct (IH _ Hin) as (x & y & Heq).
      exists x, y. by rewrite <- Heq, rev_cons, str_app_assoc.
Qed.

(** A label of [s] that starts with [sub] is an occurrence of [sub] in [s]. *)
Lemma Split_prefix s l sub :
  l ∈ Split s "." -> HasPrefix l sub = true -> Contains s sub = true.
Proof.
  intros (x & y & Heq)%splitGo_piece [l' ->]%HasPrefix_split.
  rewrite str_app_nil_l in Heq. apply Contains_true. exists x, (l' +:+ y).
  by rewrite Heq, !str_app_assoc.
Qed.

End LabelFacts.

Section ParentDomain.

Context `{Patterns}.

Implicit Types (s a b h : string) (ls : list string).

Lemma HasSuffix_byte_cons c d s :
  s <> "" -> HasSuffix (String d s) (String c "") = HasSuffix s (String c "").
Proof.
  destruct s as [|e s]; [done|]. intros _. unfold HasSuffix. simpl String.length.
  replace (S (S (String.length s)) - 1)%nat with (S (String.length s)) by lia.
  replace (S (String.length s) - 1)%nat with (String.length s) by lia.
  done.
Qed.

Lemma HasSuffix_byte_app c a b :
  b <> "" -> HasSuffix (a +:+ b) (String c "") = HasSuffix b (String c "").
Proof.
  intros Hb. induction a as [|d a IH]; [done|].
  rewrite str_app_cons, HasSuffix_byte_cons; [done|].
  destruct a; [by rewrite str_app_nil_l|by rewrite str_app_cons].
Qed.

Lemma decodeLabel_total (puny : string) : exists uni, decodeLabel puny = Ret uni.
Proof.
  unfold decodeLabel. destruct (HasPrefix puny "xn--") eqn:Hp; cbn [negb]; [|eauto].
  destruct (HasPrefix_split _ _ Hp) as [rest ->].
  rewrite sliceFrom_app. cbn [run_bind]. destruct (punycode_DecodeString rest); eauto.
Qed.

Lemma decodeLabels_total ls :
  exists ls', decodeLabels ls = Ret ls' /\ length ls' = length ls.
Proof.
  induction ls as [|puny ls (ls' & IH & Hlen)]; [by exists []|].
  cbn [decodeLabels]. destruct (decodeLabel_total puny) as [uni ->].
  cbn [run_bind]. rewrite IH. cbn [run_bind]. exists (uni :: ls'). simpl. by rewrite Hlen.
Qed.





End ParentDomain.


Example MatchingRules_scenario2 :
  MatchingRules (H := idnPatterns) (loadRules [badRule; shopBadRule])
    (httpURL "Shop.xn--bcher-kva.bad.com" "")
  = Ret {[badRule := 1]} /\
  MatchingRules (H := idnPatterns) (loadRules [badRule; shopBadRule])
    (httpURL "bad.com" "")
  = Ret {[badRule := 1]}.
Proof. split; by_evaluation. Qed.


(** With an empty path, a host that ends with a dot makes the walk reach the
    empty string, whose last byte cannot be cut off: line 190 panics. *)
Example MatchingRules_trailing_dot_panics :
  MatchingRules (H := literalPatterns)
    (loadRules [ plainRule urlMatch "bad.com." ])
    (httpURL "sub.bad.com." "")
  = Panic "slice bounds out of range".
Proof. by_evaluation. Qed.

(** ** Fuel *)

Section Fuel.

Context `{Patterns}.

Lemma pathKeys_fuel fuel (s2 : string) :
  (String.length s2 < fuel)%nat -> pathKeys fuel s2 <> OutOfFuel.
Proof.
  intros Hfuel. destruct s2 as [|c s2].
  - destruct fuel; [lia|done].
  - destruct (pathKeys_total fuel (String c s2)) as (ks & -> & _); done.
Qed.

Lemma hostKeys_fuel fuel (s path : string) :
  (String.length s < fuel)%nat -> hostKeys fuel s path <> OutOfFuel.
Proof.
  revert s. induction fuel as [|fuel IH]; intros s Hfuel; [lia|].
  cbn [hostKeys].
  pose proof (pathKeys_fuel (S (String.length (s +:+ path))) (s +:+ path)) as Hpath.
  destruct (pathKeys _ (s +:+ path)) as [ks1| |]; [|done|by apply Hpath; lia].
  cbn [run_bind]. unfold Index.
  destruct (indexNat s ".") as [i|] eqn:Hi; [|done].
  apply indexNat_byte_lt in Hi.
  replace (Z.of_nat i =? -1) with false by (symmetry; apply Z.eqb_neq; lia).
  replace (Z.of_nat i + 1) with (Z.of_nat (S i)) by lia.
  rewrite sliceFrom_le by lia. cbn [run_bind].
  specialize (IH (dropBytes (S i) s)).
  destruct (hostKeys fuel (dropBytes (S i) s) path); [done|done|].
  exfalso. apply IH; [|done]. rewrite dropBytes_length. lia.
Qed.

Lemma stripPort_fuel (host : string) : stripPort host <> OutOfFuel.
Proof.
  unfold stripPort, sliceFrom, sliceTo.
  repeat (match goal with |- context [if ?b then _ else _] => destruct b end;
          cbn [run_bind]); done.
Qed.

Lemma matchingHost_fuel (u : url.URL) : matchingHost u <> OutOfFuel.
Proof.
  unfold matchingHost. pose proof (stripPort_fuel (ToLower (url.Host u))) as Hstrip.
  destruct (stripPort _) as [host| |]; [|done|done].
  cbn [run_bind]. unfold decodeIDN. destruct (Contains host "xn--"); [|done].
  destruct (decodeLabels_total (Split host ".")) as (ls & -> & _). done.
Qed.

(** The fuel that [MatchingRules] passes to its loops is enough: it never
    runs out.  [MatchingRules] returns a tally or panics. *)
Lemma MatchingRules_fuel (m : URLMatcher) (u : url.URL) : MatchingRules m u <> OutOfFuel.
Proof.
  rewrite MatchingRules_unfold. pose proof (matchingHost_fuel u) as Hhost.
  destruct (matchingHost u) as [host| |]; [|done|done].
  cbn [run_bind].
  pose proof (hostKeys_fuel (S (String.length host)) host (ToLower (url.Path u))) as Hkeys.
  destruct (hostKeys _ host _); [done|done|]. exfalso. apply Hkeys; [lia|done].
Qed.

(** With a path that is not empty it does not panic either. *)
Lemma pathKeys_nonempty fuel (s2 : string) :
  (String.length s2 < fuel)%nat -> s2 <> "" -> exists ks, pathKeys fuel s2 = Ret ks.
Proof. intros Hfuel Hne. destruct (pathKeys_total fuel s2) as (ks & -> & _); eauto. Qed.

End Fuel.

(** * Further properties of the transport layer *)

(** ** connTransport *)

Section ExchangeFacts.

Context `{Network}.

Implicit Types (ct : connTransport) (req : http.Request) (w : World) (ctx : Context).

Lemma redial_counts ct ctx w :
  writeCalls (calls (redial ct ctx w).2) = writeCalls (calls w) /\
  (redialCalls (calls (redial ct ctx w).2) <= redialCalls (calls w) + 1)%nat /\
  (Redial ct = None -> calls (redial ct ctx w).2 = calls w).
Proof.
  unfold redial, writeCalls, redialCalls.
  destruct (Redial ct) as [f|]; [|simpl; split_and!; (done || lia)].
  destruct (f ctx (env w)) as [[newConn|err] e]; simpl; split_and!; (done || lia).
Qed.

Lemma redial_fields ct ctx w :
  used (redial ct ctx w).1.2 = used ct /\ Redial (redial ct ctx w).1.2 = Redial ct.
Proof.
  unfold redial. destruct (Redial ct) as [f|] eqn:Hf; [|simpl; auto].
  destruct (f ctx (env w)) as [[newConn|err] e]; simpl; auto.
Qed.

Lemma roundTrip_counts ct req w :
  (writeCalls (calls (roundTrip ct req w).2) <= writeCalls (calls w) + 1)%nat /\
  redialCalls (calls (roundTrip ct req w).2) = redialCalls (calls w).
Proof.
  unfold roundTrip, writeCalls, redialCalls.
  destruct (ctx_Err _ _); [simpl; split; [lia|done]|].
  destruct (Request_Write _ _ _) as [[err|] e]; [simpl; split; [lia|done]|].
  destruct (ReadResponse _ _ _) as [[[resp|err] rd] e']; simpl; split; (done || lia).
Qed.

Lemma roundTrip_fields ct req w :
  used (roundTrip ct req w).1.2 = used ct /\ Redial (roundTrip ct req w).1.2 = Redial ct /\
  Conn (roundTrip ct req w).1.2 = Conn ct.
Proof.
  unfold roundTrip. destruct (ctx_Err _ _); [done|].
  destruct (Request_Write _ _ _) as [[err|] e]; [done|].
  destruct (ReadResponse _ _ _) as [[[resp|err] rd] e']; done.
Qed.

End ExchangeFacts.

Section RoundTripProperties.

Context `{Network}.

Implicit Types (ct : connTransport) (req : http.Request) (w : World) (ctx : Context).

(** X11: one call of [RoundTrip] writes the request at most twice and calls
    the redial function at most once; a request that is not replayable is
    written at most once. *)
Theorem RoundTrip_writes_and_redials ct req w :
  (writeCalls (calls (RoundTrip ct req w).2) <= writeCalls (calls w) + 2)%nat /\
  (redialCalls (calls (RoundTrip ct req w).2) <= redialCalls (calls w) + 1)%nat /\
  (requestIsReplayable req = false ->
   (writeCalls (calls (RoundTrip ct req w).2) <= writeCalls (calls w) + 1)%nat).
Proof.
  unfold RoundTrip. destruct (requestIsReplayable req) eqn:Hrep.
  - rewrite andb_false_r.
    pose proof (roundTrip_counts (setUsed ct) req w) as [W1 R1].
    destruct (roundTrip (setUsed ct) req w) as [[[resp err] ct1] w1]. simpl in W1, R1.
    destruct err as [e|]; [|simpl; split_and!; [lia|lia|done]].
    destruct (shouldRedialForError e); simpl; [|split_and!; [lia|lia|done]].
    pose proof (redial_counts ct1 (http.Ctx req) w1) as (W2 & R2 & _).
    destruct (redial ct1 (http.Ctx req) w1) as [[redialErr ct2] w2]. simpl in W2, R2.
    destruct redialErr as [re|].
    + simpl. rewrite logVerbose_calls. split_and!; [lia|lia|done].
    + pose proof (roundTrip_counts ct2 req w2) as [W3 R3].
      destruct (roundTrip ct2 req w2) as [[[resp3 err3] ct3] w3]. simpl in *.
      split_and!; [lia|lia|done].
  - rewrite andb_true_r. destruct (used ct).
    + pose proof (redial_counts ct (http.Ctx req) w) as (W0 & R0 & _).
      destruct (redial ct (http.Ctx req) w) as [[redialErr ct0] w0]. simpl in W0, R0.
      pose proof (roundTrip_counts (setUsed ct0) req w0) as [W1 R1].
      destruct (roundTrip (setUsed ct0) req w0) as [[[resp err] ct1] w1]. simpl in W1, R1.
      destruct err as [e|]; rewrite ?andb_false_r; simpl; split_and!; try lia; intros _; lia.
    + pose proof (roundTrip_counts (setUsed ct) req w) as [W1 R1].
      destruct (roundTrip (setUsed ct) req w) as [[[resp err] ct1] w1]. simpl in W1, R1.
      destruct err as [e|]; rewrite ?andb_false_r; simpl; split_and!; try lia; intros _; lia.
Qed.

(** X12: after [RoundTrip] the transport is marked as used, whatever the
    outcome, and it has the redial function that it had. *)
Theorem RoundTrip_marks_used ct req w :
  used (RoundTrip ct req w).1.2 = true /\
  Redial (RoundTrip ct req w).1.2 = Redial ct.
Proof.
  unfold RoundTrip. destruct (used ct && negb (requestIsReplayable req)).
  1: pose proof (redial_fields ct (http.Ctx req) w) as (_ & F0);
     destruct (redial ct (http.Ctx req) w) as [[redialErr ct0] w0]; simpl in F0.
  all: match goal with
       | |- context [roundTrip (setUsed ?c) ?r ?w0] =>
           pose proof (roundTrip_fields (setUsed c) r w0) as (U1 & F1 & _);
           destruct (roundTrip (setUsed c) r w0) as [[[resp err] ct1] w1];
           simpl in U1, F1
       end.
  all: destruct err as [e|]; [|simpl; split; congruence].
  all: destruct (shouldRedialForError e && requestIsReplayable req);
         [|simpl; split; congruence].
  all: pose proof (redial_fields ct1 (http.Ctx req) w1) as (U2 & F2);
       destruct (redial ct1 (http.Ctx req) w1) as [[[re|] ct2] w2]; simpl in U2, F2;
         [simpl; split; congruence|].
  all: pose proof (roundTrip_fields ct2 req w2) as (U3 & F3 & _);
       destruct (roundTrip ct2 req w2) as [[[resp3 err3] ct3] w3]; simpl in *;
       split; congruence.
Qed.

(** X13: on a transport without a redial function, [RoundTrip] is one
    exchange on the connection it has: the result, the transport, the calls
    made and the environment are those of [roundTrip] on the transport marked
    as used. *)
Theorem RoundTrip_without_redial ct req w :
  Redial ct = None ->
  (RoundTrip ct req w).1 = (roundTrip (setUsed ct) req w).1 /\
  calls (RoundTrip ct req w).2 = calls (roundTrip (setUsed ct) req w).2 /\
  env (RoundTrip ct req w).2 = env (roundTrip (setUsed ct) req w).2.
Proof.
  intros Hnone. unfold RoundTrip.
  assert (redial ct (http.Ctx req) w
          = (Some (errors_New "no redial function provided"), ct, w)) as Hredial
    by (unfold redial; by rewrite Hnone).
  destruct (used ct && negb (requestIsReplayable req)); rewrite ?Hredial; cbn zeta; cbn iota.
  all: pose proof (roundTrip_fields (setUsed ct) req w) as (_ & F1 & _);
    destruct (roundTrip (setUsed ct) req w) as [[[resp err] ct1] w1]; simpl in F1;
    rewrite Hnone in F1;
    (destruct err as [e|]; [|done]);
    (destruct (shouldRedialForError e && requestIsReplayable req); [|done]);
    unfold redial; rewrite F1; simpl;
    by rewrite logVerbose_calls, logVerbose_env.
Qed.

End RoundTripProperties.

Section ReactiveRedial.

Context `{Network}.

Implicit Types (ct : connTransport) (req : http.Request) (w : World) (ctx : Context).

Lemma redial_getConfig ct ctx w : getConfig (redial ct ctx w).2 = getConfig w.
Proof.
  unfold redial. destruct (Redial ct) as [f|]; [|done].
  destruct (f ctx (env w)) as [[newConn|err] e]; done.
Qed.

Lemma roundTrip_getConfig ct req w : getConfig (roundTrip ct req w).2 = getConfig w.
Proof.
  unfold roundTrip. destruct (ctx_Err _ _); [done|].
  destruct (Request_Write _ _ _) as [[err|] e]; [done|].
  destruct (ReadResponse _ _ _) as [[[resp|err] rd] e']; done.
Qed.

(** X14: the reactive redial.  When the request is replayable, the exchange
    fails with an error that asks for a redial, and the redial fails, then
    [RoundTrip] returns the error of the exchange, not that of the redial;
    the request has been written at most once; and the failure of the redial
    is logged, when the "redial" category is verbose. *)
Theorem RoundTrip_reactive_redial_failure ct req w resp e ct1 w1 re ct2 w2 :
  requestIsReplayable req = true ->
  roundTrip (setUsed ct) req w = ((resp, Some e), ct1, w1) ->
  shouldRedialForError e = true ->
  redial ct1 (http.Ctx req) w1 = (Some re, ct2, w2) ->
  (RoundTrip ct req w).1.1 = (resp, Some e) /\
  (writeCalls (calls (RoundTrip ct req w).2) <= writeCalls (calls w) + 1)%nat /\
  log (RoundTrip ct req w).2 =
    if verbose w "redial"
    then {| format := "Error redialing connection to %s: %v";
            args := [http.Host req; Error re] |} :: log w
    else log w.
Proof.
  intros Hrep Hfirst Hworthy Hredial.
  pose proof (roundTrip_counts (setUsed ct) req w) as [W1 _].
  pose proof (roundTrip_log (setUsed ct) req w) as L1.
  pose proof (roundTrip_getConfig (setUsed ct) req w) as G1.
  pose proof (redial_counts ct1 (http.Ctx req) w1) as (W2 & _ & _).
  pose proof (redial_log ct1 (http.Ctx req) w1) as L2.
  pose proof (redial_getConfig ct1 (http.Ctx req) w1) as G2.
  rewrite Hfirst in W1, L1, G1. rewrite Hredial in W2, L2, G2. simpl in *.
  unfold RoundTrip. rewrite Hrep, andb_false_r, Hfirst, Hworthy. cbn [andb].
  rewrite Hredial. split_and!.
  - done.
  - simpl. rewrite logVerbose_calls. lia.
  - simpl. unfold logVerbose, verbose. rewrite G2, G1.
    destruct (default false _); simpl; congruence.
Qed.

End ReactiveRedial.

Lemma RoundTrip_without_redial_witness :
  (RoundTrip usedTransport (getRequest 0%nat) testWorld).1
  = (roundTrip (setUsed usedTransport) (getRequest 0%nat) testWorld).1 /\
  calls (RoundTrip usedTransport (getRequest 0%nat) testWorld).2
  = calls (roundTrip (setUsed usedTransport) (getRequest 0%nat) testWorld).2 /\
  env (RoundTrip usedTransport (getRequest 0%nat) testWorld).2
  = env (roundTrip (setUsed usedTransport) (getRequest 0%nat) testWorld).2.
Proof.
  apply (@RoundTrip_without_redial testNet usedTransport (getRequest 0%nat) testWorld).
  reflexivity.
Defined.

Lemma RoundTrip_reactive_redial_failure_witness :
  (RoundTrip usedTransport (getRequest 0%nat) testWorld).1.1 = (None, Some io_EOF) /\
  (writeCalls (calls (RoundTrip usedTransport (getRequest 0%nat) testWorld).2)
   <= writeCalls (calls testWorld) + 1)%nat /\
  log (RoundTrip usedTransport (getRequest 0%nat) testWorld).2 =
    if verbose testWorld "redial"
    then {| format := "Error redialing connection to %s: %v";
            args := [http.Host (getRequest 0%nat);
                     Error (errors_New "no redial function provided")] |} :: log testWorld
    else log testWorld.
Proof.
  apply (@RoundTrip_reactive_redial_failure testNet usedTransport (getRequest 0%nat) testWorld
           None io_EOF
           (@Build_connTransport testNet 0%nat None (Some 0%nat) true)
           (@Build_World testNet []
              [@ReadResponseCall testNet (getRequest 0%nat);
               @WriteCall testNet 0%nat (getRequest 0%nat)] testConfig 1%nat)
           (errors_New "no redial function provided")
           (@Build_connTransport testNet 0%nat None (Some 0%nat) true)
           (@Build_World testNet []
              [@ReadResponseCall testNet (getRequest 0%nat);
               @WriteCall testNet 0%nat (getRequest 0%nat)] testConfig 1%nat));
    reflexivity.
Defined.

Lemma RoundTrip_canceled_throughout_witness :
  (RoundTrip redialingTransport (postRequest 1%nat) testWorld).1.1
  = (None, Some context_Canceled) /\
  forall conn req',
    @WriteCall testNet conn req'
      ∈ calls (RoundTrip redialingTransport (postRequest 1%nat) testWorld).2 ->
    @WriteCall testNet conn req' ∈ calls testWorld.
Proof.
  apply (@RoundTrip_canceled_throughout testNet redialingTransport (postRequest 1%nat)
           testWorld context_Canceled).
  - intros e. reflexivity.
  - reflexivity.
Defined.

Section RedialPaths.

Context `{Network}.

Implicit Types (ct : connTransport) (req : http.Request) (w : World) (ctx : Context).

(** A redial that succeeds: the redial function has been called, the old
    connection closed, and the transport is on the new connection with a new
    buffered reader. *)
Lemma redial_succeeds ct ctx w (f : redialFunc) newConn e :
  Redial ct = Some f -> f ctx (env w) = (inl newConn, e) ->
  redial ct ctx w =
  (None,
   {| Conn := newConn; Redial := Redial ct; br := Some (bufio_NewReader newConn);
      used := used ct |},
   {| log := log w; calls := CloseCall (Conn ct) :: RedialCall :: calls w;
      getConfig := getConfig w; env := Conn_Close (Conn ct) e |}).
Proof. intros Hf Hcall. unfold redial. by rewrite Hf, Hcall. Qed.

(** X21: the reactive redial that succeeds.  When the request is
    replayable, the exchange fails with an error that asks for a redial, and
    the redial function hands out a new connection, then the old connection
    is closed and [RoundTrip] is the exchange made once more, on the new
    connection with a new buffered reader; what that exchange returns is
    returned, without another redial. *)
Theorem RoundTrip_reactive_redial_success
    ct req w resp e ct1 w1 (f : redialFunc) newConn e2 :
  requestIsReplayable req = true ->
  roundTrip (setUsed ct) req w = ((resp, Some e), ct1, w1) ->
  shouldRedialForError e = true ->
  Redial ct = Some f -> f (http.Ctx req) (env w1) = (inl newConn, e2) ->
  RoundTrip ct req w =
  roundTrip
    {| Conn := newConn; Redial := Redial ct; br := Some (bufio_NewReader newConn);
       used := true |}
    req
    {| log := log w1; calls := CloseCall (Conn ct) :: RedialCall :: calls w1;
       getConfig := getConfig w1; env := Conn_Close (Conn ct) e2 |}.
Proof.
  intros Hrep Hfirst Hworthy Hf Hcall.
  pose proof (roundTrip_fields (setUsed ct) req w) as (U1 & F1 & C1).
  rewrite Hfirst in U1, F1, C1. simpl in U1, F1, C1.
  unfold RoundTrip. rewrite Hrep, andb_false_r, Hfirst, Hworthy. cbn [andb].
  rewrite (redial_succeeds ct1 (http.Ctx req) w1 f newConn e2) by congruence.
  by rewrite U1, F1, C1.
Qed.

(** X22: the proactive redial that succeeds.  On a transport that has been
    used, for a request that is not replayable, when the redial function
    hands out a new connection, the old connection is closed and [RoundTrip]
    is one exchange on the new connection with a new buffered reader: the
    request is not written to the connection that was used before. *)
Theorem RoundTrip_proactive_redial_success
    ct req w (f : redialFunc) newConn e :
  used ct = true -> requestIsReplayable req = false ->
  Redial ct = Some f -> f (http.Ctx req) (env w) = (inl newConn, e) ->
  RoundTrip ct req w =
  roundTrip
    {| Conn := newConn; Redial := Redial ct; br := Some (bufio_NewReader newConn);
       used := true |}
    req
    {| log := log w; calls := CloseCall (Conn ct) :: RedialCall :: calls w;
       getConfig := getConfig w; env := Conn_Close (Conn ct) e |}.
Proof.
  intros Hused Hrep Hf Hcall. unfold RoundTrip. rewrite Hused, Hrep. cbn [negb andb].
  rewrite (redial_succeeds ct (http.Ctx req) w f newConn e) by done.
  unfold setUsed. cbn [Conn Redial br used].
  destruct (roundTrip _ req _) as [[[resp err] ct1] w1].
  destruct err as [e1|]; [|done]. by rewrite andb_false_r.
Qed.

End RedialPaths.

Lemma RoundTrip_reactive_redial_success_witness :
  RoundTrip redialingTransport (getRequest 0%nat) testWorld =
  roundTrip
    (@Build_connTransport testNet 2%nat (Redial redialingTransport)
       (Some (bufio_NewReader (Network := testNet) 2%nat)) true)
    (getRequest 0%nat)
    (@Build_World testNet []
       (@CloseCall testNet (Conn redialingTransport) :: @RedialCall testNet
        :: [@ReadResponseCall testNet (getRequest 0%nat);
            @WriteCall testNet 0%nat (getRequest 0%nat)])
       testConfig (Conn_Close (Network := testNet) (Conn redialingTransport) 1%nat)).
Proof.
  apply (@RoundTrip_reactive_redial_success testNet redialingTransport (getRequest 0%nat)
           testWorld None io_EOF
           (@Build_connTransport testNet 0%nat (Redial redialingTransport) (Some 0%nat) true)
           (@Build_World testNet []
              [@ReadResponseCall testNet (getRequest 0%nat);
               @WriteCall testNet 0%nat (getRequest 0%nat)] testConfig 1%nat)
           (fun _ e => (inl 2%nat, e)) 2%nat 1%nat); reflexivity.
Defined.

Lemma RoundTrip_proactive_redial_success_witness :
  RoundTrip redialingTransport (postRequest 0%nat) testWorld =
  roundTrip
    (@Build_connTransport testNet 2%nat (Redial redialingTransport)
       (Some (bufio_NewReader (Network := testNet) 2%nat)) true)
    (postRequest 0%nat)
    (@Build_World testNet []
       [@CloseCall testNet (Conn redialingTransport); @RedialCall testNet]
       testConfig (Conn_Close (Network := testNet) (Conn redialingTransport) 0%nat)).
Proof.
  apply (@RoundTrip_proactive_redial_success testNet redialingTransport (postRequest 0%nat)
           testWorld (fun _ e => (inl 2%nat, e)) 2%nat 0%nat); reflexivity.
Defined.

Example RoundTrip_proactive_redial_example :
  (RoundTrip redialingTransport (postRequest 0%nat) testWorld).1.1
  = (Some {| StatusCode := 200; Body := bodyWithContext (connBody 2) 0%nat |}, None) /\
  calls (RoundTrip redialingTransport (postRequest 0%nat) testWorld).2
  = [@ReadResponseCall testNet (postRequest 0%nat);
     @WriteCall testNet 2%nat (postRequest 0%nat);
     @CloseCall testNet 0%nat; @RedialCall testNet].
Proof. split; vm_compute; reflexivity. Qed.

(** ** RetryTransport and dialWithExtraRootCerts *)

Section RetryLog.

Context `{Network}.

Implicit Types (t : RetryTransport) (req : http.Request) (w : World).

Lemma logVerbose_log category fmt v w :
  length (log (logVerbose category fmt v w))
  = (length (log w) + if verbose w category then 1 else 0)%nat.
Proof. unfold logVerbose, verbose. destruct (default false _); simpl; lia. Qed.

Lemma transport_RoundTrip_world t req w :
  roundTripCalls (calls (transport_RoundTrip t req w).2) = S (roundTripCalls (calls w)) /\
  log (transport_RoundTrip t req w).2 = log w /\
  getConfig (transport_RoundTrip t req w).2 = getConfig w.
Proof. unfold transport_RoundTrip. by destruct (transport t req (env w)). Qed.

(** The loop of [n] rounds makes [k] attempts and logs a line after each
    failed one that it does not return: [k - 1] lines when it returns, [n]
    lines after [n] attempts when it falls through. *)
Lemma retryLoop_log (n : nat) t req w :
  exists k,
    roundTripCalls (calls (retryLoop n t req w).2) = (roundTripCalls (calls w) + k)%nat /\
    getConfig (retryLoop n t req w).2 = getConfig w /\
    match (retryLoop n t req w).1 with
    | Some _ =>
        (1 <= k <= n)%nat /\
        length (log (retryLoop n t req w).2)
        = (length (log w) + if verbose w "redial" then k - 1 else 0)%nat
    | None =>
        k = n /\
        length (log (retryLoop n t req w).2)
        = (length (log w) + if verbose w "redial" then n else 0)%nat
    end.
Proof.
  revert w. induction n as [|n IH]; intros w.
  - exists 0%nat. simpl. split_and!; try done; try lia. destruct (verbose w "redial"); lia.
  - cbn [retryLoop].
    pose proof (transport_RoundTrip_world t req w) as (C1 & L1 & G1).
    destruct (transport_RoundTrip t req w) as [[resp err] w1]. simpl in C1, L1, G1.
    assert (verbose w1 "redial" = verbose w "redial") as V1 by (unfold verbose; by rewrite G1).
    destruct err as [e|]; [destruct (shouldRedialForError e)|]; simpl.
    + set (w2 := logVerbose _ _ _ w1).
      assert (verbose w2 "redial" = verbose w "redial") as V2
        by (unfold verbose, w2; by rewrite logVerbose_getConfig, G1).
      destruct (IH w2) as (k & Hcalls & Hconf & Hres). exists (S k).
      rewrite Hcalls, Hconf. unfold w2 at 1 2. rewrite logVerbose_calls, logVerbose_getConfig.
      split_and!; [lia|done|].
      pose proof (logVerbose_log "redial" "retrying request for %v"
                    [url.Host (http.URL req) +:+ url.Path (http.URL req)] w1) as Hline.
      fold w2 in Hline. rewrite V1, L1 in Hline. rewrite V2 in Hres.
      destruct (retryLoop n t req w2).1; destruct Hres as [Hk ->]; rewrite Hline;
        destruct (verbose w "redial"); split; lia.
    + exists 1%nat. rewrite L1. destruct (verbose w "redial"); split_and!; (done || lia).
    + exists 1%nat. rewrite L1. destruct (verbose w "redial"); split_and!; (done || lia).
Qed.

(** X16: [RetryTransport.RoundTrip] makes between one and four attempts,
    and exactly one for a request that is not replayable; when the "redial"
    category is verbose it logs one line for each attempt but the last, and
    otherwise none. *)
Theorem RetryTransport_RoundTrip_log t req w :
  exists k,
    (1 <= k <= 4)%nat /\
    roundTripCalls (calls (RetryTransport_RoundTrip t req w).2)
    = (roundTripCalls (calls w) + k)%nat /\
    length (log (RetryTransport_RoundTrip t req w).2)
    = (length (log w) + if verbose w "redial" then k - 1 else 0)%nat /\
    (requestIsReplayable req = false -> k = 1%nat).
Proof.
  unfold RetryTransport_RoundTrip. destruct (requestIsReplayable req).
  - destruct (retryLoop_log 3 t req w) as (k & Hcalls & Hconf & Hres).
    destruct (retryLoop 3 t req w) as [[r|] w1]; simpl in *.
    + destruct Hres as [Hk Hlog]. exists k. split_and!; (done || lia).
    + destruct Hres as [-> Hlog].
      pose proof (transport_RoundTrip_world t req w1) as (C1 & L1 & _).
      destruct (transport_RoundTrip t req w1) as [r w2]. simpl in *.
      exists 4%nat. rewrite C1, L1, Hcalls, Hlog.
      destruct (verbose w "redial"); split_and!; (done || lia).
  - pose proof (transport_RoundTrip_world t req w) as (C1 & L1 & _).
    destruct (transport_RoundTrip t req w) as [r w2]. simpl in *.
    exists 1%nat. rewrite C1, L1.
    destruct (verbose w "redial"); split_and!; (done || lia).
Qed.

End RetryLog.

Section DialProperties.

Context `{Network}.

(** X17: [dialWithExtraRootCerts] hands out a connection or an error, never
    both and never neither; a connection that it has dialed and does not hand
    out has been closed, and one that it hands out has not. *)
Theorem dialWithExtraRootCerts_closes_or_returns
    (network addr : string) (w : World) r (w' : World) :
  dialWithExtraRootCerts network addr w = Ret (r, w') ->
  let dialed := tls_DialWithDialer network addr (net_SplitHostPort addr) (env w) in
  (exists conn, dialed.1 = inl conn /\ r = (Some conn, None) /\
                calls w' = DialCall network addr :: calls w) \/
  (exists conn err, dialed.1 = inl conn /\ r = (None, Some err) /\
                    calls w' = CloseCall conn :: DialCall network addr :: calls w) \/
  (exists err, dialed.1 = inr err /\ r = (None, Some err) /\
               calls w' = DialCall network addr :: calls w).
Proof.
  unfold dialWithExtraRootCerts.
  destruct (tls_DialWithDialer _ _ _ _) as [[conn|err] e]; simpl.
  - destruct (PeerCertificates conn e) as [|serverCert rest]; [done|].
    destruct (Verify serverCert _ e) as [chains|err].
    + intros [= <- <-]. left. by exists conn.
    + destruct (ExtraRootCerts (getConfig w)) as [extra|].
      * destruct (Verify serverCert _ e) as [chains|err2]; intros [= <- <-].
        -- left. by exists conn.
        -- right. left. by exists conn, err2.
      * intros [= <- <-]. right. left. by exists conn, err.
  - intros [= <- <-]. right. right. by exists err.
Qed.

(** X18: once the dial has succeeded and the peer has presented a
    certificate, [dialWithExtraRootCerts] hands out the connection exactly
    when the chain verifies against the system roots or against the
    configured supplementary pool. *)
Theorem dialWithExtraRootCerts_accepts_iff
    (network addr : string) (w : World) (conn : net_Conn) (e : Env)
    (serverCert : Certificate) (rest : list Certificate) :
  tls_DialWithDialer network addr (net_SplitHostPort addr) (env w) = (inl conn, e) ->
  PeerCertificates conn e = serverCert :: rest ->
  let opts roots := {| Intermediates := certPoolWith rest;
                       DNSName := net_SplitHostPort addr; Roots := roots |} in
  (exists w', dialWithExtraRootCerts network addr w = Ret ((Some conn, None), w')) <->
  (exists chains, Verify serverCert (opts None) e = inl chains) \/
  (exists extra chains, ExtraRootCerts (getConfig w) = Some extra /\
                        Verify serverCert (opts (Some extra)) e = inl chains).
Proof.
  intros Hdial Hcerts opts. unfold dialWithExtraRootCerts. rewrite Hdial. simpl.
  rewrite Hcerts. subst opts. cbn beta.
  destruct (Verify serverCert _ e) as [chains|err] eqn:Hsys.
  - split; [intros _; left; by exists chains|intros _; by eexists].
  - destruct (ExtraRootCerts (getConfig w)) as [extra|].
    + destruct (Verify serverCert {| Roots := Some extra |} e) as [chains|err2] eqn:Hextra.
      * split; [intros _; right; by exists extra, chains|intros _; by eexists].
      * split; [intros [w' Heq]; simpl in Heq; discriminate|].
        intros [[chains [=]]|(extra' & chains & [= <-] & Hv)]. congruence.
    + split; [intros [w' Heq]; simpl in Heq; discriminate|].
      intros [[chains [=]]|(extra' & chains & [=] & _)].
Qed.

End DialProperties.

Lemma dialWithExtraRootCerts_closes_or_returns_witness :
  let dialed := tls_DialWithDialer (Network := privateNet) "tcp" "intranet.example:443"
                  (net_SplitHostPort (Network := privateNet) "intranet.example:443")
                  (env privateWorld) in
  let w' := record (@DialCall privateNet "tcp" "intranet.example:443") privateWorld in
  (exists conn, dialed.1 = inl conn /\ (Some 1%nat, @None error) = (Some conn, None) /\
                calls w' = @DialCall privateNet "tcp" "intranet.example:443"
                             :: calls privateWorld) \/
  (exists conn err, dialed.1 = inl conn /\ (Some 1%nat, @None error) = (None, Some err) /\
                    calls w' = @CloseCall privateNet conn
                                 :: @DialCall privateNet "tcp" "intranet.example:443"
                                 :: calls privateWorld) \/
  (exists err, dialed.1 = inr err /\ (Some 1%nat, @None error) = (None, Some err) /\
               calls w' = @DialCall privateNet "tcp" "intranet.example:443"
                            :: calls privateWorld).
Proof.
  apply (@dialWithExtraRootCerts_closes_or_returns privateNet "tcp" "intranet.example:443"
           privateWorld (Some 1%nat, None)
           (record (@DialCall privateNet "tcp" "intranet.example:443") privateWorld)).
  reflexivity.
Defined.

Lemma dialWithExtraRootCerts_accepts_iff_witness :
  let opts roots := {| Intermediates := certPoolWith (Network := privateNet) ["intermediate"];
                       DNSName := net_SplitHostPort (Network := privateNet)
                                    "intranet.example:443";
                       Roots := roots |} in
  (exists w', dialWithExtraRootCerts "tcp" "intranet.example:443" privateWorld
              = Ret ((Some 1%nat, None), w')) <->
  (exists chains, Verify (Network := privateNet) "leaf" (opts None) 0%nat = inl chains) \/
  (exists extra chains,
     ExtraRootCerts (getConfig privateWorld) = Some extra /\
     Verify (Network := privateNet) "leaf" (opts (Some extra)) 0%nat = inl chains).
Proof.
  apply (@dialWithExtraRootCerts_accepts_iff privateNet "tcp" "intranet.example:443"
           privateWorld 1%nat 0%nat "leaf" ["intermediate"]); reflexivity.
Defined.

Example dialWithExtraRootCerts_private_authority :
  dialWithExtraRootCerts "tcp" "intranet.example:443" privateWorld
  = Ret ((Some 1%nat, None),
         record (@DialCall privateNet "tcp" "intranet.example:443") privateWorld).
Proof. reflexivity. Qed.

(** ** FTPTransport *)

Section FTPProperties.

Context `{FTP}.

(** X19: for a request whose method is not exactly [GET],
    [FTPTransport.RoundTrip] returns a response with status 405, without
    body or header, and a nil error; it starts no transfer and no goroutine,
    and leaves the environment as it was. *)
Theorem FTPTransport_RoundTrip_not_GET (req : http.Request) (e : FtpEnv) :
  http.Method req <> "GET" ->
  FTPTransport_RoundTrip req e =
  ((Some {| ftp.StatusCode := 405; ftp.ProtoMajor := 0; ftp.ProtoMinor := 0;
            ftp.Request := req; ftp.Body := None; ftp.Header := None |}, None),
   None, e).
Proof.
  intros Hne. unfold FTPTransport_RoundTrip.
  destruct (String.eqb_spec (http.Method req) "GET") as [Heq|_]; [done|]. done.
Qed.

(** X20: the goroutine that feeds the body of a download acts on the first
    [COMPLETED] or [ERROR] that the transfer reports, whatever was reported
    before and whatever follows: at [COMPLETED] it closes the pipe; at
    [ERROR] it closes the pipe with the first error of the transfer and logs
    it; if the transfer reports neither, the pipe is left open. *)
Theorem bridge_first_terminal_status
    (req : http.Request) (pre post : list ftp.status) (err : error) (errs : list error) :
  Forall passedOver pre ->
  bridge req (pre ++ ftp.COMPLETED :: post) errs = (ftp.closed, []) /\
  bridge req (pre ++ ftp.ERROR :: post) (err :: errs)
  = (ftp.closedWithError err,
     [{| format := "FTP: error downloading %v: %v";
         args := [URL_String (http.URL req); Error err] |}]) /\
  bridge req pre errs = (ftp.stillOpen, []).
Proof.
  induction 1 as [|s pre [Hc He] _ IH]; [done|].
  destruct s as [| |n]; [done|done|]. exact IH.
Qed.

(** X23: for a [GET], [FTPTransport.RoundTrip] starts a transfer of the
    host followed by the path.  If that fails, it returns the error and no
    response, and starts no goroutine.  Otherwise it returns a response with
    status 200 whose body is the read end of the pipe, and starts the
    goroutine on the transfer; the header of the response holds nothing but
    [Content-Type], which is the MIME type of the extension of the path, and
    is absent when the path has no extension or the extension no known type. *)
Theorem FTPTransport_RoundTrip_GET (req : http.Request) (e : FtpEnv) :
  http.Method req = "GET" ->
  let ext := path_Ext (url.Path (http.URL req)) in
  match ftp_GetAsync (url.Host (http.URL req) +:+ url.Path (http.URL req)) e with
  | (inr err, e') => FTPTransport_RoundTrip req e = ((None, Some err), None, e')
  | (inl xfer, e') =>
      exists resp h,
        FTPTransport_RoundTrip req e = ((Some resp, None), Some xfer, e') /\
        ftp.StatusCode resp = 200 /\ ftp.Body resp = Some ftp.pipeReader /\
        ftp.Header resp = Some h /\
        http.Get h "Content-Type" = (if String.eqb ext "" then "" else mime_TypeByExtension ext) /\
        (http.Get h "Content-Type" = "" <-> h = ∅) /\
        forall key, key <> "Content-Type" -> h !! key = None
  end.
Proof.
  intros Hget ext. unfold FTPTransport_RoundTrip. rewrite Hget. cbn [String.eqb negb].
  change (String.eqb "GET" "GET") with true. cbn [negb].
  destruct (ftp_GetAsync _ e) as [[xfer|err] e']; [|done].
  fold ext. eexists _, _. split; [reflexivity|]. cbn [ftp.StatusCode ftp.Body ftp.Header].
  split_and!; try done.
  - destruct (String.eqb ext ""); cbn [negb]; [done|].
    destruct (String.eqb_spec (mime_TypeByExtension ext) "") as [Hct|Hct]; cbn [negb].
    + by rewrite Hct.
    + unfold http.Get. by rewrite lookup_insert_eq.
  - destruct (String.eqb ext ""); cbn [negb]; [done|].
    destruct (String.eqb_spec (mime_TypeByExtension ext) "") as [Hct|Hct]; cbn [negb];
      [done|].
    unfold http.Get. rewrite lookup_insert_eq. split; [done|].
    intros Hempty. apply (f_equal (fun m : http.MIMEHeader => m !! "Content-Type")) in Hempty.
    by rewrite lookup_insert_eq, lookup_empty in Hempty.
  - intros key Hkey. destruct (String.eqb ext ""); cbn [negb]; [apply lookup_empty|].
    destruct (String.eqb (mime_TypeByExtension ext) ""); cbn [negb]; [apply lookup_empty|].
    rewrite lookup_insert_ne by done. apply lookup_empty.
Qed.

End FTPProperties.

Lemma FTPTransport_RoundTrip_not_GET_witness :
  FTPTransport_RoundTrip (H := testFTP) (ftpRequest "get" "/pub/readme.txt") 0%nat =
  ((Some {| ftp.StatusCode := 405; ftp.ProtoMajor := 0; ftp.ProtoMinor := 0;
            ftp.Request := ftpRequest "get" "/pub/readme.txt";
            ftp.Body := None; ftp.Header := None |}, None),
   None, 0%nat).
Proof.
  apply (@FTPTransport_RoundTrip_not_GET testFTP (ftpRequest "get" "/pub/readme.txt") 0%nat).
  discriminate.
Defined.

Lemma bridge_first_terminal_status_witness :
  let req := ftpRequest "GET" "/pub/missing" in
  let err := errors_New "550 No such file" in
  bridge (H := testFTP) req ([ftp.otherStatus 1] ++ ftp.COMPLETED :: []) [] = (ftp.closed, []) /\
  bridge (H := testFTP) req ([ftp.otherStatus 1] ++ ftp.ERROR :: []) (err :: [])
  = (ftp.closedWithError err,
     [{| format := "FTP: error downloading %v: %v";
         args := [URL_String (FTP := testFTP) (http.URL req); Error err] |}]) /\
  bridge (H := testFTP) req [ftp.otherStatus 1] [] = (ftp.stillOpen, []).
Proof.
  apply (@bridge_first_terminal_status testFTP (ftpRequest "GET" "/pub/missing")
           [ftp.otherStatus 1] [] (errors_New "550 No such file") []).
  apply List.Forall_cons; [by split|]. apply List.Forall_nil.
Defined.

Lemma FTPTransport_RoundTrip_GET_witness :
  let req := ftpRequest "GET" "/pub/readme.txt" in
  let ext := path_Ext (FTP := testFTP) (url.Path (http.URL req)) in
  match ftp_GetAsync (FTP := testFTP)
          (url.Host (http.URL req) +:+ url.Path (http.URL req)) 0%nat with
  | (inr err, e') =>
      FTPTransport_RoundTrip (H := testFTP) req 0%nat = ((None, Some err), None, e')
  | (inl xfer, e') =>
      exists resp h,
        FTPTransport_RoundTrip (H := testFTP) req 0%nat = ((Some resp, None), Some xfer, e') /\
        ftp.StatusCode resp = 200 /\ ftp.Body resp = Some ftp.pipeReader /\
        ftp.Header resp = Some h /\
        http.Get h "Content-Type"
        = (if String.eqb ext "" then "" else mime_TypeByExtension (FTP := testFTP) ext) /\
        (http.Get h "Content-Type" = "" <-> h = ∅) /\
        forall key, key <> "Content-Type" -> h !! key = None
  end.
Proof.
  apply (@FTPTransport_RoundTrip_GET testFTP (ftpRequest "GET" "/pub/readme.txt") 0%nat).
  reflexivity.
Defined.

Example FTPTransport_download :
  FTPTransport_RoundTrip (H := testFTP) (ftpRequest "GET" "/pub/readme.txt") 0%nat =
  ((Some {| ftp.StatusCode := 200; ftp.ProtoMajor := 1; ftp.ProtoMinor := 1;
            ftp.Request := ftpRequest "GET" "/pub/readme.txt";
            ftp.Body := Some ftp.pipeReader;
            ftp.Header := Some {["Content-Type" := ["text/plain"]]} |}, None),
   Some {| ftp.Status := [ftp.otherStatus 1; ftp.COMPLETED]; ftp.Error := [] |}, 1%nat).
Proof. reflexivity. Qed.

(** * Further properties of the matcher *)

(** ** Prefixes and last occurrences *)

Section PrefixFacts.

Implicit Types (s a b k sub rest : string) (c d : ascii).

Lemma Contains_nil s : Contains s "" = true.
Proof. unfold Contains, Index. rewrite indexNat_unfold, HasPrefix_nil. done. Qed.

(** Two prefixes of one string: the shorter is a prefix of the longer. *)
Lemma prefixes_compare a b a' b' :
  a +:+ b = a' +:+ b' ->
  (String.length a <= String.length a')%nat ->
  exists x, a' = a +:+ x /\ b = x +:+ b'.
Proof.
  revert a'. induction a as [|c a IH]; intros a' Heq Hlen.
  - exists a'. by rewrite !str_app_nil_l in *.
  - destruct a' as [|d a']; [simpl in Hlen; lia|].
    rewrite !str_app_cons in Heq. injection Heq as <- Heq.
    destruct (IH a' Heq) as (x & -> & ->); [simpl in Hlen; lia|].
    by exists x.
Qed.

(** The last occurrence of a byte. *)
Lemma lastIndexNat_byte_split c s i :
  lastIndexNat s (String c "") = Some i ->
  exists a b, s = a +:+ String c b /\ String.length a = i /\ Contains b (String c "") = false.
Proof.
  revert i. induction s as [|d s IH]; intros i; [done|].
  rewrite lastIndexNat_byte_cons.
  destruct (lastIndexNat s (String c "")) as [j|] eqn:Hj.
  - intros [= <-]. destruct (IH j eq_refl) as (a & b & -> & <- & Hb).
    by exists (String d a), b.
  - destruct (Ascii.eqb d c) eqn:Hd; [|done]. intros [= <-].
    apply Ascii.eqb_eq in Hd as ->. exists "", s. split_and!; try done.
    by apply lastIndexNat_byte_none.
Qed.

(** Any occurrence of a byte in [a c b], where [b] is free of it, is the one
    shown or lies in [a]. *)
Lemma last_byte_split c a b a' b' :
  Contains b (String c "") = false ->
  a +:+ String c b = a' +:+ String c b' ->
  (a' = a /\ b' = b) \/ exists x, a = a' +:+ String c x.
Proof.
  intros Hb. revert a'. induction a as [|d a IH]; intros a' Heq.
  - destruct a' as [|e a']; rewrite ?str_app_cons, ?str_app_nil_l in Heq.
    + left. by injection Heq as <-.
    + injection Heq as <- ->. rewrite Contains_byte_app, Contains_byte_cons in Hb.
      rewrite Ascii.eqb_refl in Hb. simpl in Hb. by rewrite orb_true_r in Hb.
  - destruct a' as [|e a']; rewrite ?str_app_cons, ?str_app_nil_l in Heq.
    + injection Heq as -> <-. right. by exists a.
    + injection Heq as <- Heq. destruct (IH a' Heq) as [[-> ->]|[x ->]]; [by left|].
      right. by exists x.
Qed.

Lemma HasSuffix_byte_snoc c a : HasSuffix (a +:+ String c "") (String c "") = true.
Proof. apply HasSuffix_split. by exists a. Qed.

End PrefixFacts.

(** ** The candidates of the fragment walk *)

Section KeyFacts.

Implicit Types (s a b k path rest : string) (c d : ascii).

(** Cutting off the last byte: possible exactly for a string that has one. *)
Lemma sliceTo_last s :
  match sliceTo s (len s - 1) with
  | Ret front => exists c, s = front +:+ String c ""
  | Panic msg => s = "" /\ msg = "slice bounds out of range"
  | OutOfFuel => False
  end.
Proof.
  destruct s as [|c0 s0]; [done|]. set (s := String c0 s0).
  assert (0 < String.length s)%nat as Hpos by (simpl; lia).
  replace (len s - 1) with (Z.of_nat (String.length s - 1)) by (unfold len; lia).
  rewrite sliceTo_le by lia.
  pose proof (take_drop (String.length s - 1) s) as Hsplit.
  pose proof (dropBytes_length (String.length s - 1) s) as Hlen.
  destruct (dropBytes (String.length s - 1) s) as [|c [|c' rest]].
  - simpl in Hlen. lia.
  - by exists c.
  - simpl in Hlen. lia.
Qed.

(** The candidates of the inner loop: the string itself and its shorter
    prefixes that end with a slash. *)
Lemma pathKeys_spec fuel s2 ks :
  pathKeys fuel s2 = Ret ks ->
  forall k, k ∈ ks <->
    k = s2 \/ exists rest, rest <> "" /\ s2 = k +:+ rest /\ HasSuffix k "/" = true.
Proof.
  revert s2 ks. induction fuel as [|fuel IH]; intros s2 ks; [done|].
  cbn [pathKeys]. pose proof (sliceTo_last s2) as Hlast.
  destruct (sliceTo s2 (len s2 - 1)) as [front| |]; [|done|done].
  destruct Hlast as [c ->]. cbn [run_bind]. unfold LastIndex.
  destruct (lastIndexNat front "/") as [i|] eqn:Hi.
  - destruct (lastIndexNat_byte_split _ _ _ Hi) as (a & b & -> & <- & Hb).
    replace (Z.of_nat (String.length a) =? -1) with false
      by (symmetry; apply Z.eqb_neq; lia).
    replace (Z.of_nat (String.length a) + 1) with (len (a +:+ "/"))
      by (unfold len; rewrite str_length_app; simpl; lia).
    replace ((a +:+ String "/" b) +:+ String c "")
      with ((a +:+ "/") +:+ (b +:+ String c ""))
      by (by rewrite !str_app_assoc).
    rewrite sliceTo_app. cbn [run_bind].
    destruct (pathKeys fuel (a +:+ "/")) as [ks'| |] eqn:Hks'; [|done|done].
    cbn [run_bind]. intros [= <-] k. rewrite elem_of_cons, (IH _ _ Hks' k). split.
    + intros [->|[->|(rest & Hrest & Heq & Hsuf)]].
      * by left.
      * right. exists (b +:+ String c ""). split_and!; [by destruct b|done|].
        apply HasSuffix_byte_snoc.
      * right. exists (rest +:+ b +:+ String c ""). split_and!; [by destruct rest| |done].
        by rewrite Heq, !str_app_assoc.
    + intros [->|(rest & Hrest & Heq & Hsuf)]; [by left|]. right.
      apply HasSuffix_split in Hsuf as [k0 ->].
      assert (exists rest', rest = rest' +:+ String c "" /\
                a +:+ String "/" b = (k0 +:+ "/") +:+ rest') as (rest' & -> & Hfront).
      { destruct (prefixes_compare (k0 +:+ "/") rest (a +:+ String "/" b) (String c ""))
          as (x & Hx & ->).
        - by rewrite <- Heq, !str_app_assoc.
        - apply (f_equal String.length) in Heq. rewrite !str_length_app in Heq.
          simpl in Heq. destruct rest; [done|]. simpl in Heq. rewrite !str_length_app.
          simpl. lia.
        - exists x. split; [done|]. done. }
      rewrite str_app_assoc in Hfront.
      destruct (last_byte_split "/" a b k0 rest' Hb Hfront) as [[-> ->]|[x ->]].
      * by left.
      * right. exists (x +:+ "/"). split_and!.
        -- destruct x; done.
        -- by rewrite !str_app_assoc.
        -- apply HasSuffix_byte_snoc.
  - cbn [Z.eqb]. intros [= <-] k. rewrite list_elem_of_singleton. split; [by left|].
    intros [->|(rest & Hrest & Heq & Hsuf)]; [done|]. exfalso.
    apply HasSuffix_split in Hsuf as [k0 ->].
    destruct (prefixes_compare (k0 +:+ "/") rest front (String c "")) as (x & Hx & ->).
    + by rewrite Heq.
    + apply (f_equal String.length) in Heq. rewrite !str_length_app in Heq.
      simpl in Heq. destruct rest; [done|]. simpl in Heq. rewrite !str_length_app.
      simpl. lia.
    + apply lastIndexNat_byte_none in Hi. subst front.
      rewrite !Contains_byte_app in Hi. simpl in Hi.
      by rewrite orb_true_r in Hi.
Qed.

Lemma indexNat_dot l s1 :
  Contains l "." = false -> indexNat (l +:+ "." +:+ s1) "." = Some (String.length l).
Proof. intros Hl. by apply (indexNat_byte_app "." l s1). Qed.

Lemma sliceFrom_dot l s1 :
  sliceFrom (l +:+ "." +:+ s1) (Z.of_nat (String.length l) + 1) = Ret s1.
Proof.
  replace (Z.of_nat (String.length l) + 1) with (len (l +:+ "."))
    by (unfold len; rewrite str_length_app; simpl; lia).
  rewrite <- (str_app_assoc l "." s1). apply sliceFrom_app.
Qed.

Lemma fragmentKey_pathKeys fuel s path ks :
  pathKeys fuel (s +:+ path) = Ret ks ->
  forall k, fragmentKey s path k <-> k = s \/ k ∈ ks.
Proof.
  intros Hks k. unfold fragmentKey. rewrite (pathKeys_spec _ _ _ Hks k). done.
Qed.

Lemma domainOf_refl s : domainOf s s.
Proof. by left. Qed.

Lemma domainOf_no_dot s s' : Contains s "." = false -> domainOf s s' <-> s' = s.
Proof.
  intros Hno. split; [|intros ->; apply domainOf_refl].
  intros [->|[a ->]]; [done|].
  rewrite (proj2 (Contains_true _ ".")) in Hno by eauto. done.
Qed.

Lemma domainOf_dot l s1 s' :
  Contains l "." = false ->
  domainOf (l +:+ "." +:+ s1) s' <-> s' = l +:+ "." +:+ s1 \/ domainOf s1 s'.
Proof.
  intros Hl. split.
  - intros [->|[a Heq]]; [by left|]. right.
    destruct (dot_split l s1 a s' Hl Heq) as [[-> ->]|(a' & -> & ->)].
    + apply domainOf_refl.
    + right. by exists a'.
  - intros [->|[->|[a ->]]].
    + apply domainOf_refl.
    + right. by exists l.
    + right. exists (l +:+ "." +:+ a). by rewrite !str_app_assoc.
Qed.

(** The candidates of the walk: for each domain of the host, that domain,
    the domain followed by the path, and the shorter prefixes of that which
    end with a slash. *)
Lemma hostKeys_spec fuel s path ks :
  hostKeys fuel s path = Ret ks ->
  forall k, k ∈ ks <-> exists s', domainOf s s' /\ fragmentKey s' path k.
Proof.
  revert s ks. induction fuel as [|fuel IH]; intros s ks; [done|].
  cbn [hostKeys].
  destruct (pathKeys _ (s +:+ path)) as [ks1| |] eqn:Hks1; [|done|done].
  cbn [run_bind]. pose proof (fragmentKey_pathKeys _ _ _ _ Hks1) as Hkey.
  unfold Index. destruct (Contains s ".") eqn:Hhas.
  - destruct (first_dot s Hhas) as (l & s1 & -> & Hl).
    rewrite indexNat_dot by done.
    replace (Z.of_nat (String.length l) =? -1) with false
      by (symmetry; apply Z.eqb_neq; lia).
    rewrite sliceFrom_dot. cbn [run_bind].
    destruct (hostKeys fuel s1 path) as [ks2| |] eqn:Hks2; [|done|done].
    cbn [run_bind]. intros [= <-] k.
    rewrite elem_of_app, elem_of_cons, (IH _ _ Hks2 k). split.
    + intros [Hk|[->|(s' & Hdom & Hk)]].
      * exists (l +:+ "." +:+ s1). split; [apply domainOf_refl|]. apply Hkey. by right.
      * exists (l +:+ "." +:+ s1). split; [apply domainOf_refl|]. by left.
      * exists s'. split; [|done]. apply domainOf_dot; auto.
    + intros (s' & [->|Hdom]%domainOf_dot & Hk); [|right; right; eauto|done].
      apply Hkey in Hk as [->|Hk]; auto.
  - apply Contains_false in Hhas as Hnone. rewrite Hnone. cbn [Z.eqb].
    intros [= <-] k. rewrite elem_of_app, list_elem_of_singleton. split.
    + intros Hk. exists s. split; [apply domainOf_refl|]. apply Hkey. tauto.
    + intros (s' & ->%domainOf_no_dot & Hk); [|done]. apply Hkey in Hk. tauto.
Qed.

(** *** When the walk returns *)

Lemma HasSuffix_dot_app l s1 :
  HasSuffix (l +:+ "." +:+ s1) "." = bool_decide (s1 = "") || HasSuffix s1 ".".
Proof.
  destruct s1 as [|c s1].
  - simpl. rewrite str_app_nil_r. apply HasSuffix_byte_snoc.
  - rewrite <- str_app_assoc, HasSuffix_byte_app by done. done.
Qed.

(** The walk panics exactly when the path is empty and the host is empty or
    ends with a dot; otherwise it returns its candidates. *)
Lemma hostKeys_outcome fuel s path :
  (String.length s < fuel)%nat ->
  if bool_decide (path = "") && (bool_decide (s = "") || HasSuffix s ".")
  then hostKeys fuel s path = Panic "slice bounds out of range"
  else exists ks, hostKeys fuel s path = Ret ks.
Proof.
  revert s. induction fuel as [|fuel IH]; intros s Hfuel; [lia|].
  cbn [hostKeys].
  destruct (decide (s +:+ path = "")) as [Hnil|Hne].
  - destruct s; [|done]. rewrite str_app_nil_l in Hnil. subst path. done.
  - destruct (pathKeys_total (S (String.length (s +:+ path))) (s +:+ path))
      as (ks1 & -> & _); [lia|done|].
    cbn [run_bind]. unfold Index. destruct (Contains s ".") eqn:Hhas.
    + destruct (first_dot s Hhas) as (l & s1 & -> & Hl).
      rewrite indexNat_dot by done.
      replace (Z.of_nat (String.length l) =? -1) with false
        by (symmetry; apply Z.eqb_neq; lia).
      rewrite sliceFrom_dot. cbn [run_bind].
      rewrite HasSuffix_dot_app.
      assert (bool_decide (l +:+ "." +:+ s1 = "") = false) as ->.
      { apply bool_decide_eq_false. by destruct l. }
      cbn [orb]. specialize (IH s1).
      destruct (bool_decide (path = "") && (bool_decide (s1 = "") || HasSuffix s1 ".")).
      * rewrite IH; [done|]. rewrite !str_length_app in Hfuel. simpl in Hfuel. lia.
      * destruct IH as [ks2 ->]; [|cbn [run_bind]; eauto].
        rewrite !str_length_app in Hfuel. simpl in Hfuel. lia.
    + apply Contains_false in Hhas as Hnone. rewrite Hnone. cbn [Z.eqb].
      assert (HasSuffix s "." = false) as ->.
      { destruct (HasSuffix s ".") eqn:Hsuf; [|done].
        apply HasSuffix_split in Hsuf as [a ->].
        rewrite Contains_byte_app in Hhas. simpl in Hhas. by rewrite orb_true_r in Hhas. }
      assert (bool_decide (path = "") && (bool_decide (s = "") || false) = false) as ->.
      { rewrite orb_false_r. apply andb_false_iff.
        destruct (decide (path = "")) as [->|]; [right|left]; apply bool_decide_eq_false;
          [|done]. intros ->. done. }
      eauto.
Qed.

End KeyFacts.

(** ** What each tier reports *)

Section TierFacts.

Context `{Patterns}.

Implicit Types (rm : regexMap) (x y : regexRule) (r k : rule) (p q s : string)
  (rs : list rule) (tally : Tally).

(** What the buckets of a map filled by [addRule] hold. *)
Lemma regexMapOf_bucket rs q x :
  x ∈ bucket (regexMapOf rs) q <->
  rule_ x ∈ rs /\ Compile (content (rule_ x)) = Some (re x) /\ filedUnder (rule_ x) q.
Proof.
  induction rs as [|r rs IH] using rev_ind.
  - unfold regexMapOf, bucket. simpl. rewrite lookup_empty. simpl. set_solver.
  - rewrite regexMapOf_snoc, addRule_bucket, IH, elem_of_app, list_elem_of_singleton.
    split.
    + intros [(Hin & Hre & Hq)|(re0 & Hre & -> & Hq)]; simpl; auto.
    + intros ([Hin|Heq] & Hre & Hq); [by left|]. right. exists (re x).
      destruct x as [r0 re0]. simpl in *. subst r0. done.
Qed.

(** A literal that is not empty, under which a rule is filed, is a registered
    phrase. *)
Lemma regexMapOf_phrase rs r p :
  r ∈ rs -> is_Some (Compile (content r)) -> filedUnder r p -> p <> "" ->
  p ∈ stringList (regexMapOf rs).
Proof.
  intros Hin Hre Hp Hne. induction rs as [|r1 rs IH] using rev_ind; [set_solver|].
  rewrite regexMapOf_snoc.
  apply elem_of_app in Hin as [Hin|Heq%list_elem_of_singleton].
  - apply addRule_stringList. auto.
  - subst r1. unfold filedUnder in Hp.
    destruct (regexStrings (content r)) as [ss|] eqn:Hss; [|done].
    destruct (minLen ss =? 0) eqn:Hmin; [done|].
    by apply (addRule_registers _ _ _ ss).
Qed.

Lemma reportedIn_Contains (l : phraseList) s p :
  reportedIn l "" s p -> Contains s p = true.
Proof.
  intros (_ & t1 & t2 & -> & _ & Hsuf). rewrite str_app_nil_l in Hsuf.
  apply HasSuffix_split in Hsuf as [a ->]. apply Contains_true. exists a, t2.
  by rewrite !str_app_assoc.
Qed.

(** The rules that [findMatches] marks in a map filled by [addRule]. *)
Lemma findMatches_hits rs s k :
  (exists p x, (p = "" \/ reportedIn (stringList (regexMapOf rs)) "" s p) /\
               x ∈ bucket (regexMapOf rs) p /\ MatchString (re x) s = true /\ rule_ x = k)
  <-> k ∈ rs /\ hits k s.
Proof.
  split.
  - intros (p & x & Hp & (Hin & Hre & Hq)%regexMapOf_bucket & Hm & <-).
    split; [done|]. exists (re x). split_and!; [done|done|]. exists p. split; [done|].
    destruct Hp as [->|Hp]; [apply Contains_nil|by apply reportedIn_Contains in Hp].
  - intros (Hin & re0 & Hre & Hm & q & Hq & Hocc).
    exists q, {| rule_ := k; re := re0 |}. split_and!; try done.
    + destruct (decide (q = "")) as [->|Hne]; [by left|]. right.
      apply Contains_reportedIn; [|done|done].
      by apply (regexMapOf_phrase rs k).
    + by apply regexMapOf_bucket.
Qed.

Lemma findMatches_lookup rs s tally r :
  findMatches (regexMapOf rs) s tally !! r = Some 1 <->
  tally !! r = Some 1 \/ (r ∈ rs /\ hits r s).
Proof.
  destruct (findMatches_markAll (regexMapOf rs) s tally) as (ks & -> & Hks).
  rewrite lookup_markAll, <- findMatches_hits, <- Hks.
  destruct (decide (r ∈ ks)); naive_solver.
Qed.

(** [findMatches] writes 1 and nothing else, and touches no other entry. *)
Lemma findMatches_frame rm s tally r :
  findMatches rm s tally !! r = Some 1 \/ findMatches rm s tally !! r = tally !! r.
Proof.
  destruct (findMatches_markAll rm s tally) as (ks & -> & _).
  rewrite lookup_markAll. destruct (decide (r ∈ ks)); auto.
Qed.

Lemma tallyFragments_frame (frags : gmap string rule) ks tally r :
  tallyFragments frags ks tally !! r = Some 1 \/
  tallyFragments frags ks tally !! r = tally !! r.
Proof.
  revert tally. induction ks as [|key ks IH] using rev_ind; intros tally; [by right|].
  rewrite tallyFragments_app. cbn [tallyFragments foldl]. rewrite tallyFragment_lookup.
  destruct (decide (frags !! key = Some r)); [by left|apply IH].
Qed.

Lemma tallyFragments_lookup (frags : gmap string rule) ks tally r :
  tallyFragments frags ks tally !! r = Some 1 <->
  tally !! r = Some 1 \/ exists key, key ∈ ks /\ frags !! key = Some r.
Proof.
  revert tally. induction ks as [|key ks IH] using rev_ind; intros tally.
  - simpl. split; [by left|]. intros [?|(key & Hkey & _)]; [done|].
    by apply elem_of_nil in Hkey.
  - rewrite tallyFragments_app. cbn [tallyFragments foldl]. rewrite tallyFragment_lookup.
    destruct (decide (frags !! key = Some r)) as [Hkey|Hkey].
    + split; [|done]. intros _. right. exists key. split; [set_solver|done].
    + fold (tallyFragments frags ks tally). rewrite IH. split.
      * intros [?|(key' & Hin & Hlook)]; [by left|]. right. exists key'. set_solver.
      * intros [?|(key' & Hin & Hlook)]; [by left|]. right. exists key'.
        split; [|done]. apply elem_of_app in Hin as [Hin|Heq%list_elem_of_singleton];
          [done|congruence].
Qed.

(** *** The four tiers *)

Lemma eqb_empty s : String.eqb s "" = bool_decide (s = "").
Proof. destruct s; done. Qed.

(** The tally of the tiers, one tier after the other. *)
Lemma regexTally_tiers (m : URLMatcher) (u : url.URL) (host : string) :
  regexTally m u host =
  let r1 := if String.eqb host "" then ∅ else findMatches (hostRegexes m) host ∅ in
  let r2 := findMatches (pathRegexes m) (ToLower (url.Path u)) r1 in
  let r3 := match matchingQuery u with
            | Some q => findMatches (queryRegexes m) q r2
            | None => r2
            end in
  findMatches (regexes m) (matchingURL u host) r3.
Proof.
  unfold regexTally, matchingURL, matchingQuery.
  destruct (String.eqb (url.Scheme u) ""), (String.eqb host ""),
    (String.eqb (ToLower (url.RawQuery u)) ""); cbn [negb];
    rewrite ?str_app_nil_l, ?str_app_nil_r, ?str_app_assoc; reflexivity.
Qed.

(** The fragment map holds, under each key, the fragment rule added last
    with that content. *)
Lemma fragments_loadRules rs key :
  fragments (loadRules rs) !! key = lastFragment rs key.
Proof.
  unfold lastFragment. induction rs as [|r0 rs IH] using rev_ind; [done|].
  rewrite loadRules_snoc, filter_app, filter_cons, filter_nil. unfold AddRule.
  destruct (decide (t r0 = urlMatch /\ content r0 = key)) as [[Ht <-]|Hno].
  - rewrite Ht, last_snoc. simpl. apply lookup_insert_eq.
  - rewrite app_nil_r, <- IH. destruct (t r0) eqn:Ht; simpl; try done.
    apply lookup_insert_ne. intros Heq. by apply Hno.
Qed.

Lemma lastFragment_Some rs key r :
  lastFragment rs key = Some r -> r ∈ rs /\ t r = urlMatch /\ content r = key.
Proof.
  unfold lastFragment. intros Hlast%last_Some_elem_of.
  by apply list_elem_of_filter in Hlast as [[? ?] ?].
Qed.

Lemma inForce_elem_of rs r : inForce rs r -> r ∈ rs.
Proof.
  unfold inForce. destruct (t r); try done. by intros [? _]%lastFragment_Some.
Qed.

Lemma regexTally_lookup rs u host r :
  regexTally (loadRules rs) u host !! r = Some 1 <->
  r ∈ rs /\ t r <> urlMatch /\ ruleApplies r u host.
Proof.
  rewrite regexTally_tiers. cbn zeta.
  destruct (loadRules_parts rs) as (-> & -> & -> & -> & _).
  rewrite findMatches_lookup, list_elem_of_filter.
  assert ((match matchingQuery u with
           | Some q =>
               findMatches (regexMapOf (filter (fun r => t r = queryRegex) rs)) q
                 (findMatches (regexMapOf (filter (fun r => t r = pathRegex) rs))
                    (ToLower (url.Path u))
                    (if String.eqb host "" then ∅
                     else findMatches (regexMapOf (filter (fun r => t r = hostRegex) rs))
                            host ∅))
           | None =>
               findMatches (regexMapOf (filter (fun r => t r = pathRegex) rs))
                 (ToLower (url.Path u))
                 (if String.eqb host "" then ∅
                  else findMatches (regexMapOf (filter (fun r => t r = hostRegex) rs))
                         host ∅)
           end) !! r = Some 1 <->
          r ∈ rs /\ ((t r = queryRegex /\ exists q, matchingQuery u = Some q /\ hits r q) \/
                     (t r = pathRegex /\ hits r (ToLower (url.Path u))) \/
                     (t r = hostRegex /\ host <> "" /\ hits r host))) as ->.
  { assert ((if String.eqb host "" then ∅
             else findMatches (regexMapOf (filter (fun r => t r = hostRegex) rs)) host ∅)
              !! r = Some 1 <-> r ∈ rs /\ t r = hostRegex /\ host <> "" /\ hits r host)
      as Hhost.
    { rewrite eqb_empty. case_bool_decide as Hh.
      - rewrite lookup_empty. naive_solver.
      - rewrite findMatches_lookup, lookup_empty, list_elem_of_filter. naive_solver. }
    destruct (matchingQuery u) as [q|].
    - rewrite !findMatches_lookup, !list_elem_of_filter, Hhost. naive_solver.
    - rewrite !findMatches_lookup, !list_elem_of_filter, Hhost. naive_solver. }
  unfold ruleApplies. destruct (t r); naive_solver.
Qed.

Lemma regexTally_ones (m : URLMatcher) u host r v :
  regexTally m u host !! r = Some v -> v = 1.
Proof.
  rewrite regexTally_tiers. cbn zeta.
  assert (forall rm s tally, (forall v, tally !! r = Some v -> v = 1) ->
            forall v, findMatches rm s tally !! r = Some v -> v = 1) as Hstep.
  { intros rm s tally Hall v0. destruct (findMatches_frame rm s tally r) as [->| ->];
      [congruence|apply Hall]. }
  assert (forall v, (if String.eqb host "" then (∅ : Tally)
                     else findMatches (hostRegexes m) host ∅) !! r = Some v -> v = 1)
    as Hhost.
  { destruct (String.eqb host ""); [by intros v0; rewrite lookup_empty|].
    apply Hstep. intros v0. by rewrite lookup_empty. }
  revert v. apply Hstep.
  destruct (matchingQuery u); [apply Hstep|]; apply Hstep; exact Hhost.
Qed.

End TierFacts.

Section MatchingFacts.

Context `{Patterns}.

Implicit Types (m : URLMatcher) (r : rule) (rs : list rule) (u : url.URL).

(** [MatchingRules] writes 1 and nothing else. *)
Lemma MatchingRules_ones m u (tally : Tally) r v :
  MatchingRules m u = Ret tally -> tally !! r = Some v -> v = 1.
Proof.
  rewrite MatchingRules_unfold.
  destruct (matchingHost u) as [host| |]; [|done|done]. cbn [run_bind].
  destruct (hostKeys _ host _) as [ks| |]; [|done|done]. cbn [run_bind].
  intros [= <-].
  destruct (tallyFragments_frame (fragments m) ks (regexTally m u host) r) as [->| ->].
  - congruence.
  - apply regexTally_ones.
Qed.

(** The rules that [MatchingRules] reports, for a matcher loaded from a list
    of rules. *)
Lemma MatchingRules_lookup rs u host (tally : Tally) r :
  matchingHost u = Ret host ->
  MatchingRules (loadRules rs) u = Ret tally ->
  tally !! r = Some 1 <-> inForce rs r /\ ruleApplies r u host.
Proof.
  intros Hhost. rewrite MatchingRules_unfold, Hhost. cbn [run_bind].
  destruct (hostKeys _ host _) as [ks| |] eqn:Hks; [|done|done]. cbn [run_bind].
  intros [= <-]. rewrite tallyFragments_lookup, regexTally_lookup.
  pose proof (hostKeys_spec _ _ _ _ Hks) as Hkeys.
  split.
  - intros [(Hin & Ht & Happ)|(key & Hkey & Hlook)].
    + split; [|done]. unfold inForce. by destruct (t r).
    + rewrite fragments_loadRules in Hlook.
      destruct (lastFragment_Some _ _ _ Hlook) as (_ & Ht & <-).
      unfold inForce, ruleApplies. rewrite Ht. split; [done|]. by apply Hkeys.
  - intros [Hin Happ]. destruct (decide (t r = urlMatch)) as [Ht|Ht].
    + right. exists (content r). unfold inForce, ruleApplies in *. rewrite Ht in *.
      split; [by apply Hkeys|]. by rewrite fragments_loadRules.
    + left. split_and!; [|done..]. by apply inForce_elem_of.
Qed.


Lemma matchingHost_total u : exists host, matchingHost u = Ret host.
Proof.
  unfold matchingHost.
  assert (exists h, stripPort (ToLower (url.Host u)) = Ret h) as [h ->].
  { unfold stripPort, LastIndex.
    destruct (lastIndexNat _ ":") as [i|] eqn:Hi; [|by eexists].
    apply lastIndexNat_byte_lt in Hi as Hlt.
    replace (Z.of_nat i =? -1) with false by (symmetry; apply Z.eqb_neq; lia).
    cbn [negb]. rewrite sliceFrom_le by lia. cbn [run_bind].
    destruct (negb _); [|by eexists]. rewrite sliceTo_le by lia. by eexists. }
  cbn [run_bind]. unfold decodeIDN. destruct (Contains h "xn--"); [|by eexists].
  destruct (decodeLabels_total (Split h ".")) as (ls & -> & _). cbn [run_bind].
  by eexists.
Qed.

Lemma MatchingRules_outcome m u host :
  matchingHost u = Ret host ->
  if bool_decide (url.Path u = "") && (bool_decide (host = "") || HasSuffix host ".")
  then MatchingRules m u = Panic "slice bounds out of range"
  else exists tally, MatchingRules m u = Ret tally.
Proof.
  intros Hhost. rewrite MatchingRules_unfold, Hhost. cbn [run_bind].
  pose proof (hostKeys_outcome (S (String.length host)) host (ToLower (url.Path u))) as Hout.
  assert (bool_decide (ToLower (url.Path u) = "") = bool_decide (url.Path u = "")) as Hpath.
  { apply bool_decide_ext, ToLower_nil. }
  rewrite Hpath in Hout.
  destruct (bool_decide (url.Path u = "") && _).
  - rewrite Hout by lia. done.
  - destruct Hout as [ks ->]; [lia|]. cbn [run_bind]. eauto.
Qed.

End MatchingFacts.

Section FirstByte.

Implicit Types (a b : string) (c : ascii).

(** The first occurrence of a byte is where it is. *)
Lemma first_byte_unique c a b a' b' :
  Contains a (String c "") = false -> Contains a' (String c "") = false ->
  a +:+ String c b = a' +:+ String c b' -> a = a' /\ b = b'.
Proof.
  revert a'. induction a as [|d a IH]; intros a' Ha Ha' Heq.
  - destruct a' as [|e a']; rewrite ?str_app_cons, ?str_app_nil_l in Heq.
    + by injection Heq as <-.
    + injection Heq as <- _. rewrite Contains_byte_cons, Ascii.eqb_refl in Ha'. done.
  - rewrite Contains_byte_cons in Ha. apply orb_false_iff in Ha as [Hd Ha].
    destruct a' as [|e a']; rewrite ?str_app_cons, ?str_app_nil_l in Heq.
    + injection Heq as -> _. by rewrite Ascii.eqb_refl in Hd.
    + injection Heq as <- Heq. rewrite Contains_byte_cons in Ha'.
      apply orb_false_iff in Ha' as [_ Ha']. destruct (IH a' Ha Ha' Heq) as [-> ->]. done.
Qed.

Lemma domainOf_Contains host s sub :
  domainOf host s -> Contains host sub = false -> Contains s sub = false.
Proof.
  intros [->|[a ->]] Hno; [done|]. rewrite <- str_app_assoc in Hno.
  by apply Contains_suffix_false in Hno.
Qed.

End FirstByte.

(** ** The port suffix, end to end *)

Section PortProperties.

Context `{Patterns}.


End PortProperties.


(** The host of [http://Example.com:8080/] is matched as [example.com], and
    that of [http://[2001:DB8::1]:8080/] as the whole bracketed address. *)
Example matchingHost_port_examples :
  matchingHost (H := literalPatterns) (httpURL "Example.com:8080" "/")
  = Ret "example.com" /\
  matchingHost (H := literalPatterns) (httpURL "[2001:DB8::1]:8080" "/")
  = Ret "[2001:db8::1]" /\
  MatchingRules (H := literalPatterns) (loadRules [plainRule urlMatch "[2001:db8::1]"])
    (httpURL "[2001:DB8::1]:8080" "/")
  = Ret {[plainRule urlMatch "[2001:db8::1]" := 1]}.
Proof. split_and!; by_evaluation. Qed.

(** ** What [MatchingRules] reports *)

Section MatcherProperties.

Context `{Patterns}.

Implicit Types (m : URLMatcher) (r : rule) (rs : list rule) (u : url.URL).

(** X1: every value of the tally that [MatchingRules] returns is 1, whatever
    the matcher holds. *)
Theorem MatchingRules_values_one m u (tally : Tally) :
  MatchingRules m u = Ret tally -> map_Forall (fun _ v => v = 1) tally.
Proof. intros Hrun r v. by apply (MatchingRules_ones m u). Qed.

(** X2: [MatchingRules] panics, with a slice bound out of range on line 190,
    exactly when the path of the URL is empty and the host it matches on (lower
    case, port removed, ACE labels decoded) is empty or ends with a dot; in
    every other case it returns a tally. *)
Theorem MatchingRules_panics_iff m u :
  exists host, matchingHost u = Ret host /\
    if bool_decide (url.Path u = "") && (bool_decide (host = "") || HasSuffix host ".")
    then MatchingRules m u = Panic "slice bounds out of range"
    else exists tally, MatchingRules m u = Ret tally.
Proof.
  destruct (matchingHost_total u) as [host Hhost]. exists host. split; [done|].
  by apply MatchingRules_outcome.
Qed.

(** X3: for a matcher loaded from a list of rules, the tally that
    [MatchingRules] returns holds exactly the rules in force that apply to
    the URL.  A fragment rule is in force when no later fragment rule of the
    list has its content; it applies when its content is a domain of the
    host, that domain followed by the lower-cased path, or a shorter prefix of
    that which ends with a slash.  A regular-expression rule is in force when
    it is in the list; it applies when its pattern compiles and matches the
    text of its tier (the host, unless empty; the path; the query, unless
    empty; the whole URL), one of the literals it is filed under occurring in
    that text. *)
Theorem MatchingRules_reports rs u host (tally : Tally) r :
  matchingHost u = Ret host ->
  MatchingRules (loadRules rs) u = Ret tally ->
  tally !! r = Some 1 <-> inForce rs r /\ ruleApplies r u host.
Proof. apply MatchingRules_lookup. Qed.

(** X4: the result of [MatchingRules] depends on the rules in force only:
    the regular-expression rules of the list, whatever their order and
    however often they were added, and for each fragment the rule added last
    with that content, which replaces the earlier ones. *)
Theorem MatchingRules_rule_set rs rs' u :
  (forall r, inForce rs r <-> inForce rs' r) ->
  MatchingRules (loadRules rs) u = MatchingRules (loadRules rs') u.
Proof.
  intros Hsame. destruct (matchingHost_total u) as [host Hhost].
  pose proof (MatchingRules_outcome (loadRules rs) u host Hhost) as H1.
  pose proof (MatchingRules_outcome (loadRules rs') u host Hhost) as H2.
  destruct (bool_decide (url.Path u = "") && _); [congruence|].
  destruct H1 as [tally1 H1], H2 as [tally2 H2]. rewrite H1, H2. f_equal.
  apply map_eq. intros r.
  pose proof (MatchingRules_lookup rs u host tally1 r Hhost H1) as L1.
  pose proof (MatchingRules_lookup rs' u host tally2 r Hhost H2) as L2.
  pose proof (fun v => MatchingRules_ones _ _ tally1 r v H1) as O1.
  pose proof (fun v => MatchingRules_ones _ _ tally2 r v H2) as O2.
  rewrite <- Hsame in L2.
  destruct (tally1 !! r) as [v1|] eqn:E1, (tally2 !! r) as [v2|] eqn:E2; try done.
  - by rewrite (O1 v1), (O2 v2).
  - rewrite (O1 v1 eq_refl) in L1. destruct L1 as [L1 _], L2 as [_ L2].
    specialize (L2 (L1 eq_refl)). done.
  - rewrite (O2 v2 eq_refl) in L2. destruct L1 as [_ L1], L2 as [L2 _].
    specialize (L1 (L2 eq_refl)). done.
Qed.

(** X5: [MatchingRules] reads the scheme, host, path and query of the URL
    through [strings.ToLower] only: two URLs whose components are equal up to
    the case of their letters give the same result. *)
Theorem MatchingRules_case_insensitive m u1 u2 :
  ToLower (url.Scheme u1) = ToLower (url.Scheme u2) ->
  ToLower (url.Host u1) = ToLower (url.Host u2) ->
  ToLower (url.Path u1) = ToLower (url.Path u2) ->
  ToLower (url.RawQuery u1) = ToLower (url.RawQuery u2) ->
  MatchingRules m u1 = MatchingRules m u2.
Proof.
  intros Hs Hh Hp Hq.
  assert (String.eqb (url.Scheme u1) "" = String.eqb (url.Scheme u2) "") as Hempty.
  { rewrite !eqb_empty. apply bool_decide_ext.
    rewrite <- (ToLower_nil (url.Scheme u1)), <- (ToLower_nil (url.Scheme u2)).
    by rewrite Hs. }
  unfold MatchingRules, matchingHost. by rewrite Hs, Hh, Hp, Hq, Hempty.
Qed.

(** X8: a fragment rule with a path.  Let the host that is matched on be
    free of slashes and the path of the URL start with one, and let [r] be
    the fragment rule that the list leaves under [d] followed by [p], where
    [d] is free of slashes and [p] starts with one.  Then [MatchingRules]
    returns a tally, and the rule is in it exactly when [d] is a domain of the
    host and the lower-cased path is [p], or starts with [p] and [p] ends with
    a slash. *)
Theorem fragment_path_rule rs u host r d p :
  matchingHost u = Ret host ->
  Contains host "/" = false ->
  HasPrefix (url.Path u) "/" = true ->
  lastFragment rs (d +:+ p) = Some r ->
  Contains d "/" = false -> HasPrefix p "/" = true ->
  exists tally, MatchingRules (loadRules rs) u = Ret tally /\
    (tally !! r = Some 1 <->
     domainOf host d /\
     (ToLower (url.Path u) = p \/
      (HasSuffix p "/" = true /\ HasPrefix (ToLower (url.Path u)) p = true))).
Proof.
  intros Hhost Hslash Hpath Hlast Hd Hp.
  destruct (lastFragment_Some _ _ _ Hlast) as (_ & Ht & Hc).
  assert (inForce rs r) as Hin by (unfold inForce; by rewrite Ht, Hc).
  pose proof (MatchingRules_outcome (loadRules rs) u host Hhost) as Hout.
  assert (bool_decide (url.Path u = "") = false) as Hne
    by (apply bool_decide_eq_false; intros Heq; by rewrite Heq in Hpath).
  rewrite Hne in Hout. cbn [andb] in Hout. destruct Hout as [tally Hrun].
  exists tally. split; [done|].
  rewrite (MatchingRules_lookup rs u host tally r Hhost Hrun).
  unfold ruleApplies. rewrite Ht, Hc.
  destruct (ToLower_slash _ Hpath) as [q0 Hq0]. rewrite Hq0.
  destruct (HasPrefix_split _ _ Hp) as [p0 ->]. change ("/" +:+ p0) with (String "/" p0).
  split.
  - intros (_ & s & Hdom & Hkey).
    pose proof (domainOf_Contains _ _ _ Hdom Hslash) as Hs.
    destruct Hkey as [Heq|[Heq|(rest & Hrest & Heq & Hsuf)]].
    + exfalso. rewrite <- Heq, Contains_byte_app, Contains_byte_cons, Ascii.eqb_refl in Hs.
      by rewrite orb_true_r in Hs.
    + destruct (first_byte_unique "/" d p0 s q0 Hd Hs Heq) as [-> ->]. auto.
    + rewrite str_app_assoc, str_app_cons in Heq. symmetry in Heq.
      destruct (first_byte_unique "/" d (p0 +:+ rest) s q0 Hd Hs Heq) as [-> <-].
      split; [done|]. right. split.
      * rewrite HasSuffix_byte_app in Hsuf by done. done.
      * change (String "/" (p0 +:+ rest)) with (String "/" p0 +:+ rest).
        apply HasPrefix_app.
  - intros (Hdom & Hcase). split; [done|]. exists d. split; [done|].
    destruct Hcase as [[= ->]|[Hsuf [rest Hrest]%HasPrefix_split]].
    + right. by left.
    + rewrite Hrest. destruct rest as [|c rest].
      * right. left. by rewrite str_app_nil_r.
      * right. right. exists (String c rest). split_and!; [done| |].
        -- by rewrite str_app_assoc.
        -- rewrite HasSuffix_byte_app by done. done.
Qed.

(** X6: in a map filled by [addRule], [findMatches] sets the entry of a rule
    to 1 exactly when the pattern of the rule compiles and matches the text
    and one of the literals the rule is filed under occurs in the text; it
    changes no other entry of the tally. *)
Theorem findMatches_reports rs (s : string) (tally : Tally) r :
  (findMatches (regexMapOf rs) s tally !! r = Some 1 <->
   tally !! r = Some 1 \/ (r ∈ rs /\ hits r s)) /\
  (findMatches (regexMapOf rs) s tally !! r = Some 1 \/
   findMatches (regexMapOf rs) s tally !! r = tally !! r).
Proof. split; [apply findMatches_lookup|apply findMatches_frame]. Qed.

End MatcherProperties.

Lemma MatchingRules_values_one_witness :
  map_Forall (fun _ v => v = 1) ({[subRule := 1]} : Tally).
Proof.
  apply (@MatchingRules_values_one literalPatterns (loadRules [subRule])
           (httpURL "example.com" "/sub")).
  by_evaluation.
Defined.

Lemma MatchingRules_reports_witness :
  ({[allowBad := 1]} : Tally) !! allowBad = Some 1 <->
  inForce [blockBad; allowBad] allowBad /\
  ruleApplies (H := literalPatterns) allowBad (httpURL "www.bad.com" "/") "www.bad.com".
Proof.
  apply (@MatchingRules_reports literalPatterns [blockBad; allowBad]
           (httpURL "www.bad.com" "/")).
  - reflexivity.
  - by_evaluation.
Defined.

(** Of two rules on one fragment the one added last is reported, alone. *)
Example MatchingRules_last_write_wins :
  MatchingRules (H := literalPatterns) (loadRules [blockBad; allowBad])
    (httpURL "www.bad.com" "/")
  = Ret {[allowBad := 1]} /\
  MatchingRules (H := literalPatterns) (loadRules [allowBad; blockBad])
    (httpURL "www.bad.com" "/")
  = Ret {[blockBad := 1]}.
Proof. split; by_evaluation. Qed.

Lemma MatchingRules_rule_set_witness :
  MatchingRules (H := literalPatterns) (loadRules [blockBad; subRule; allowBad])
    (httpURL "bad.com" "/sub")
  = MatchingRules (H := literalPatterns) (loadRules [allowBad; subRule; subRule])
      (httpURL "bad.com" "/sub").
Proof.
  apply (@MatchingRules_rule_set literalPatterns). intros r. unfold inForce.
  destruct (t r) eqn:Ht.
  - unfold lastFragment. rewrite !filter_cons, !filter_nil.
    repeat case_decide; simpl in *; destruct_and?; try done;
      exfalso; naive_solver congruence.
  - rewrite !elem_of_cons, !elem_of_nil.
    split; intros Hr; destruct_or?; subst; discriminate.
  - rewrite !elem_of_cons, !elem_of_nil.
    split; intros Hr; destruct_or?; subst; discriminate.
  - rewrite !elem_of_cons, !elem_of_nil.
    split; intros Hr; destruct_or?; subst; discriminate.
  - rewrite !elem_of_cons, !elem_of_nil.
    split; intros Hr; destruct_or?; subst; discriminate.
  - rewrite !elem_of_cons, !elem_of_nil.
    split; intros Hr; destruct_or?; subst; discriminate.
Defined.

Lemma MatchingRules_case_insensitive_witness :
  MatchingRules (H := literalPatterns) (loadRules [subRule]) mixedCaseURL
  = MatchingRules (H := literalPatterns) (loadRules [subRule]) (httpURL "example.com" "/sub").
Proof.
  apply (@MatchingRules_case_insensitive literalPatterns); reflexivity.
Defined.

Lemma fragment_path_rule_witness :
  exists tally,
    MatchingRules (H := literalPatterns) (loadRules [dirRule]) (httpURL "www.example.com" "/Sub/x")
    = Ret tally /\
    (tally !! dirRule = Some 1 <->
     domainOf "www.example.com" "example.com" /\
     (ToLower (H := literalPatterns) (url.Path (httpURL "www.example.com" "/Sub/x")) = "/sub/" \/
      (HasSuffix "/sub/" "/" = true /\
       HasPrefix (ToLower (H := literalPatterns) (url.Path (httpURL "www.example.com" "/Sub/x")))
         "/sub/" = true))).
Proof.
  apply (@fragment_path_rule literalPatterns [dirRule] (httpURL "www.example.com" "/Sub/x")
           "www.example.com" dirRule "example.com" "/sub/"); reflexivity.
Defined.

Section UnprunedRules.

Context `{Patterns}.

(** X7: a rule from whose pattern no literal can be extracted, or whose
    literals have minimal length 0, is never pruned: in a map filled by
    [addRule], [findMatches] sets its entry to 1 exactly when its pattern
    compiles and matches the text. *)
Theorem findMatches_unpruned (rs : list rule) (s : string) (tally : Tally) (r : rule) :
  r ∈ rs ->
  match regexStrings (content r) with Some ss => minLen ss = 0 | None => True end ->
  findMatches (regexMapOf rs) s tally !! r = Some 1 <->
  tally !! r = Some 1 \/
  exists re0, Compile (content r) = Some re0 /\ MatchString re0 s = true.
Proof.
  intros Hin Hnone. rewrite findMatches_lookup. unfold hits.
  assert (filedUnder r "") as Hfiled.
  { unfold filedUnder. destruct (regexStrings (content r)) as [ss|]; [|done].
    by rewrite Hnone. }
  split.
  - intros [?|(_ & re0 & Hre & Hm & _)]; [by left|right; by exists re0].
  - intros [?|(re0 & Hre & Hm)]; [by left|]. right. split; [done|].
    exists re0. split_and!; [done|done|]. exists "". split; [done|apply Contains_nil].
Qed.

End UnprunedRules.

Lemma findMatches_unpruned_witness :
  findMatches (H := literalPatterns) (regexMapOf [emptyPatternRule]) "example.com/" ∅
    !! emptyPatternRule = Some 1 <->
  (∅ : Tally) !! emptyPatternRule = Some 1 \/
  exists re0, Compile (Patterns := literalPatterns) (content emptyPatternRule) = Some re0 /\
              MatchString (Patterns := literalPatterns) re0 "example.com/" = true.
Proof.
  apply (@findMatches_unpruned literalPatterns [emptyPatternRule] "example.com/" ∅
           emptyPatternRule).
  - set_solver.
  - reflexivity.
Defined.

(** ** Internationalized hosts and queries *)

Section SplitFacts.

Implicit Types (s a b cur sep new : string) (c d : ascii) (ls : list string).

Lemma splitGo_byte_cons c d s cur :
  splitGo (String d s) (String c "") 0 cur =
  if Ascii.eqb d c then String.rev cur :: splitGo s (String c "") 0 ""
  else splitGo s (String c "") 0 (String d cur).
Proof. cbn [splitGo]. by rewrite HasPrefix_byte. Qed.

Lemma splitGo_byte_nonempty c s cur : splitGo s (String c "") 0 cur <> [].
Proof.
  revert cur. induction s as [|d s IH]; intros cur; [done|].
  rewrite splitGo_byte_cons. destruct (Ascii.eqb d c); [done|apply IH].
Qed.

(** Replacing every occurrence of a byte by a text that is free of it leaves
    none. *)
Lemma Join_splitGo_free c s cur new :
  Contains (String.rev cur) (String c "") = false ->
  Contains new (String c "") = false ->
  Contains (Join (splitGo s (String c "") 0 cur) new) (String c "") = false.
Proof.
  intros Hcur Hnew. revert cur Hcur. induction s as [|d s IH]; intros cur Hcur; [done|].
  rewrite splitGo_byte_cons. destruct (Ascii.eqb d c) eqn:Hd.
  - rewrite Join_cons by apply splitGo_byte_nonempty.
    rewrite !Contains_byte_app, Hcur, Hnew. by rewrite IH.
  - apply IH. rewrite rev_cons, Contains_byte_app, Hcur, Contains_byte_cons, Hd. done.
Qed.

Lemma ReplaceAll_free c s new :
  Contains new (String c "") = false ->
  Contains (ReplaceAll s (String c "") new) (String c "") = false.
Proof. intros Hnew. unfold ReplaceAll, Split. by apply Join_splitGo_free. Qed.

(** A text without a dot is one label. *)
Lemma splitGo_free a cur :
  Contains a "." = false -> splitGo a "." 0 cur = [String.rev cur +:+ a].
Proof.
  revert cur. induction a as [|d a IH]; intros cur Ha.
  - simpl. by rewrite str_app_nil_r.
  - rewrite Contains_byte_cons in Ha. apply orb_false_iff in Ha as [Hd Ha].
    rewrite splitGo_dot_cons, Hd, IH by done. by rewrite rev_cons, str_app_assoc.
Qed.

(** [strings.Split(strings.Join(ls, "."), ".")] is [ls], for labels without
    a dot. *)
Lemma Split_Join ls :
  ls <> [] -> Forall (fun l => Contains l "." = false) ls -> Split (Join ls ".") "." = ls.
Proof.
  intros Hne Hfree. unfold Split. induction Hfree as [|l ls Hl Hfree IH]; [done|].
  destruct ls as [|l' ls].
  - simpl. by rewrite splitGo_free.
  - rewrite Join_cons by done. rewrite splitGo_app_dot, splitGo_free by done.
    rewrite IH by done. done.
Qed.

End SplitFacts.

Section IDNFacts.

Context `{Patterns}.

Implicit Types (ls : list string) (l h : string).

Lemma decodeLabel_decodesTo l l' : decodesTo l l' -> decodeLabel l = Ret l'.
Proof.
  unfold decodeLabel. intros [[Hp ->]|(rest & -> & Hdec)].
  - by rewrite Hp.
  - rewrite HasPrefix_app. cbn [negb]. rewrite sliceFrom_app. cbn [run_bind].
    destruct (punycode_DecodeString rest); by subst.
Qed.

Lemma decodeLabels_decodesTo ls ls' :
  Forall2 decodesTo ls ls' -> decodeLabels ls = Ret ls'.
Proof.
  induction 1 as [|l l' ls ls' Hl _ IH]; [done|].
  cbn [decodeLabels]. rewrite (decodeLabel_decodesTo _ _ Hl). cbn [run_bind].
  by rewrite IH.
Qed.

(** Without an ACE label nothing is decoded. *)
Lemma decodesTo_plain ls ls' :
  Forall2 decodesTo ls ls' -> (forall l, l ∈ ls -> HasPrefix l "xn--" = false) -> ls' = ls.
Proof.
  induction 1 as [|l l' ls ls' Hl _ IH]; intros Hplain; [done|].
  rewrite IH by (intros l0 Hl0; apply Hplain; by right). f_equal.
  destruct Hl as [[_ ->]|(rest & -> & _)]; [done|].
  specialize (Hplain ("xn--" +:+ rest)). rewrite HasPrefix_app in Hplain.
  discriminate Hplain. by left.
Qed.

(** The host that is matched when the host of the URL is made of the labels
    [ls], in lower case and without a colon. *)
Lemma matchingHost_labels (u : url.URL) ls ls' :
  ls <> [] -> Forall (fun l => Contains l "." = false) ls ->
  ToLower (Join ls ".") = Join ls "." -> Contains (Join ls ".") ":" = false ->
  Forall2 decodesTo ls ls' ->
  matchingHost (withHost u (Join ls ".")) = Ret (ToLower (Join ls' ".")).
Proof.
  intros Hne Hfree Hlower Hcolon Hdec. unfold matchingHost. simpl url.Host.
  rewrite Hlower, stripPort_no_colon by done. cbn [run_bind]. unfold decodeIDN.
  destruct (Contains (Join ls ".") "xn--") eqn:Hace.
  - rewrite Split_Join by done. rewrite (decodeLabels_decodesTo _ _ Hdec). done.
  - rewrite (decodesTo_plain ls ls' Hdec); [by rewrite Hlower|].
    intros l Hl. destruct (HasPrefix l "xn--") eqn:Hp; [|done].
    rewrite <- (Split_Join ls) in Hl by done.
    by rewrite (Split_prefix _ l "xn--" Hl Hp) in Hace.
Qed.

Lemma MatchingRules_host (m : URLMatcher) (u : url.URL) (h1 h2 : string) :
  matchingHost (withHost u h1) = matchingHost (withHost u h2) ->
  MatchingRules m (withHost u h1) = MatchingRules m (withHost u h2).
Proof. intros Heq. unfold MatchingRules. by rewrite Heq. Qed.

End IDNFacts.

Section IDNProperties.

Context `{Patterns}.

(** X9: a host written with ACE labels is matched as the host with those
    labels decoded.  Let the host be made of labels without dots, in lower
    case and without a colon.  The host that [MatchingRules] works on is made
    of the same labels, each [xn--] label that is valid punycode replaced by
    its decoding and every other label kept, in lower case; and when that
    host is one that is matched as it is (lower case, no colon, no [xn--]
    label left), a URL with it gives the same result. *)
Theorem MatchingRules_IDN (m : URLMatcher) (u : url.URL) (ls ls' : list string) :
  ls <> [] -> Forall (fun l => Contains l "." = false) ls ->
  ToLower (Join ls ".") = Join ls "." -> Contains (Join ls ".") ":" = false ->
  Forall2 decodesTo ls ls' ->
  matchingHost (withHost u (Join ls ".")) = Ret (ToLower (Join ls' ".")) /\
  (normalHost (Join ls' ".") ->
   MatchingRules m (withHost u (Join ls ".")) = MatchingRules m (withHost u (Join ls' "."))).
Proof.
  intros Hne Hfree Hlower Hcolon Hdec.
  pose proof (matchingHost_labels u ls ls' Hne Hfree Hlower Hcolon Hdec) as Hhost.
  split; [done|]. intros Hnormal. apply MatchingRules_host. rewrite Hhost.
  rewrite (matchingHost_normal (withHost u (Join ls' "."))) by done.
  simpl url.Host. by rewrite (proj1 Hnormal).
Qed.

(** X10: when the query of the URL can be unescaped, a query rule is
    reported on account of a text without spaces only: the text that its
    pattern is matched against is the unescaped query with every space, be it
    from [%20] or from [+], put back as [+]. *)
Theorem query_rule_no_space (rs : list rule) (u : url.URL) (tally : Tally) (r : rule) :
  MatchingRules (loadRules rs) u = Ret tally ->
  is_Some (url_QueryUnescape (ToLower (url.RawQuery u))) ->
  t r = queryRegex -> tally !! r = Some 1 ->
  exists q, matchingQuery u = Some q /\ Contains q " " = false /\ hits r q.
Proof.
  intros Hrun [q0 Hq0] Ht Hin. destruct (matchingHost_total u) as [host Hhost].
  destruct (proj1 (MatchingRules_lookup rs u host tally r Hhost Hrun) Hin) as [_ Happ].
  unfold ruleApplies in Happ. rewrite Ht in Happ. destruct Happ as (q & Hq & Hhits).
  exists q. split_and!; [done| |done].
  unfold matchingQuery in Hq. rewrite Hq0 in Hq.
  destruct (String.eqb _ ""); [done|]. injection Hq as <-. by apply ReplaceAll_free.
Qed.

End IDNProperties.

Lemma MatchingRules_IDN_witness :
  matchingHost (H := idnPatterns)
    (withHost (idnURL "") (Join ["www"; "xn--bcher-kva"; "example"] "."))
  = Ret (ToLower (H := idnPatterns) (Join ["www"; "bücher"; "example"] ".")) /\
  (normalHost (H := idnPatterns) (Join ["www"; "bücher"; "example"] ".") ->
   MatchingRules (H := idnPatterns) (loadRules [buecherRule])
     (withHost (idnURL "") (Join ["www"; "xn--bcher-kva"; "example"] "."))
   = MatchingRules (H := idnPatterns) (loadRules [buecherRule])
       (withHost (idnURL "") (Join ["www"; "bücher"; "example"] "."))).
Proof.
  apply (@MatchingRules_IDN idnPatterns).
  - discriminate.
  - repeat constructor.
  - reflexivity.
  - reflexivity.
  - apply List.Forall2_cons; [left; split; reflexivity|].
    apply List.Forall2_cons; [right; exists "bcher-kva"; split; reflexivity|].
    apply List.Forall2_cons; [left; split; reflexivity|].
    apply List.Forall2_nil.
Defined.

Lemma query_rule_no_space_witness :
  exists q, matchingQuery (H := literalPatterns) spaceQueryURL = Some q /\
            Contains q " " = false /\ hits (H := literalPatterns) plusRule q.
Proof.
  apply (@query_rule_no_space literalPatterns [plusRule] spaceQueryURL {[plusRule := 1]}).
  - by_evaluation.
  - eexists. reflexivity.
  - reflexivity.
  - reflexivity.
Defined.

Example MatchingRules_IDN_example :
  MatchingRules (H := idnPatterns) (loadRules [buecherRule])
    (idnURL "www.xn--bcher-kva.example")
  = Ret {[buecherRule := 1]}.
Proof. by_evaluation. Qed.

(** The decoded host is lower-cased once more, on line 152: the label [dca]
    decodes to [É], and the host is matched as [é.com]. *)
Example MatchingRules_IDN_upper :
  matchingHost (H := idnPatterns) (idnURL "xn--dca.com") = Ret "é.com" /\
  MatchingRules (H := idnPatterns) (loadRules [eAcuteRule]) (idnURL "xn--dca.com")
  = Ret {[eAcuteRule := 1]} /\
  MatchingRules (H := idnPatterns) (loadRules [eAcuteRule])
    {| url.Scheme := "https"; url.Host := "É.com"; url.Path := "/É";
       url.RawQuery := "" |}
  = Ret {[eAcuteRule := 1]}.
Proof. split_and!; by_evaluation. Qed.
